(** * findiff: the operator evaluation engine of [findiff/operators.py]

    A shallow embedding of the operator tree ([PartialDerivative], [Plus],
    [Multiply]) and of the stencil engine ([_diff], [_diff_non_uni],
    [_apply_to_array], [_shift_slice]) together with the part of numpy the
    engine relies on: n-dimensional arrays in row-major layout, basic
    slicing along one axis with Python's treatment of negative bounds,
    integer indexing, in-place addition into a view and broadcasting.

    Exceptions are values: every function that can raise returns a [result].
    The value layer passes the accumulator [yd] explicitly; the module
    [Store] repeats the control flow over a store of array objects, where
    [yd] is mutated in place, to speak about aliasing and freshness. *)

From Stdlib Require Import ZArith List Bool Lia Arith PeanoNat.
From Stdlib Require Import Floats.PrimFloat.
From Stdlib Require Import Orders Sorted Permutation Mergesort.
Import ListNotations.

Set Implicit Arguments.

(** ** Exceptions and results *)

(** The two exception classes the module raises: [ValueError] at
    construction time (and from numpy when shapes do not broadcast),
    [IndexError] from [_shift_slice] and from out-of-range indexing. *)
Inductive exn : Type :=
| IndexError
| ValueError.

Inductive result (A : Type) : Type :=
| Ok (a : A)
| Raise (e : exn).

Arguments Ok {A} a.
Arguments Raise {A} e.

Definition bind {A B : Type} (m : result A) (k : A -> result B) : result B :=
  match m with
  | Ok a => k a
  | Raise e => Raise e
  end.

Declare Scope result_scope.
Delimit Scope result_scope with result.
Notation "x <- m ;; k" := (bind m (fun x => k))
  (at level 61, m at next level, right associativity) : result_scope.
Notation "m ;;; k" := (bind m (fun _ => k))
  (at level 61, right associativity) : result_scope.
Open Scope result_scope.

(** [[f(x) for x in xs]]: evaluated left to right, the first exception
    aborts the comprehension. *)
Fixpoint mapM {A B : Type} (f : A -> result B) (xs : list A) : result (list B) :=
  match xs with
  | [] => Ok []
  | x :: xs' => y <- f x ;; ys <- mapM f xs' ;; Ok (y :: ys)
  end.

(** [zip(xs, ys)] stops at the shorter sequence: this is [List.combine]. *)

(** ** Scalars *)

(** The element type of a field and the arithmetic the engine performs on
    it.  No algebraic law is assumed anywhere: every theorem below holds
    for IEEE arithmetic, where addition is not associative. *)
Class Scalar (R : Type) : Type := {
  r0 : R;                      (* 0, the fill value of np.zeros_like *)
  r1 : R;                      (* the literal 1 and 1. *)
  eps : R;                     (* the literal 1.E-14 *)
  radd : R -> R -> R;
  rsub : R -> R -> R;
  rmul : R -> R -> R;
  rdiv : R -> R -> R;
  rabs : R -> R;
  rltb : R -> R -> bool;
  rpow : R -> Z -> R           (* h ** deriv *)
}.

(** ** Row-major n-dimensional arrays *)

Definition size_of (s : list nat) : nat := fold_right Nat.mul 1 s.

(** Flat position of a multi-index, and back. *)
Fixpoint ravel (s idx : list nat) : nat :=
  match s, idx with
  | _ :: s', i :: idx' => i * size_of s' + ravel s' idx'
  | _, _ => 0
  end.

Fixpoint unravel (s : list nat) (p : nat) : list nat :=
  match s with
  | [] => []
  | _ :: s' => (p / size_of s') :: unravel s' (p mod size_of s')
  end.

(** [idx] addresses an element of an array of shape [s]. *)
Definition valid_index (s idx : list nat) : Prop := Forall2 lt idx s.

(** [l[k] = v] on a list (no effect out of range; callers check first). *)
Fixpoint upd (l : list nat) (k v : nat) : list nat :=
  match l, k with
  | [], _ => []
  | _ :: l', O => v :: l'
  | x :: l', S k' => x :: upd l' k' v
  end.

(** Remove, respectively insert, the entry at position [k]. *)
Fixpoint remove_at (k : nat) (l : list nat) : list nat :=
  match l, k with
  | [], _ => []
  | _ :: l', O => l'
  | x :: l', S k' => x :: remove_at k' l'
  end.

Fixpoint insert_at (k v : nat) (l : list nat) : list nat :=
  match k, l with
  | O, _ => v :: l
  | S k', x :: l' => x :: insert_at k' v l'
  | S _, [] => [v]
  end.

Fixpoint all2 (f : nat -> nat -> bool) (xs ys : list nat) : bool :=
  match xs, ys with
  | [], [] => true
  | x :: xs', y :: ys' => f x y && all2 f xs' ys'
  | _, _ => false
  end.

Fixpoint map2 (f : nat -> nat -> nat) (xs ys : list nat) : list nat :=
  match xs, ys with
  | x :: xs', y :: ys' => f x y :: map2 f xs' ys'
  | _, _ => []
  end.

(** *** Broadcasting of shapes (numpy's rule: align on the right, a
    dimension of extent 1 stretches) *)

(** An operand dimension [d] fits a target dimension [t]. *)
Definition dim_fits (d t : nat) : bool := (d =? t) || (d =? 1).

(** An array of shape [src] can be added in place into one of shape [tgt]. *)
Definition broadcastable_to (src tgt : list nat) : bool :=
  (length src <=? length tgt) &&
  all2 dim_fits src (skipn (length tgt - length src) tgt).

(** The element of an operand of shape [src] that is read for the element
    [idx] of the broadcast result. *)
Definition bcast_index (src idx : list nat) : list nat :=
  map2 (fun d i => if d =? 1 then 0 else i) src (skipn (length idx - length src) idx).

Definition dim_join (x y : nat) : option nat :=
  if x =? y then Some x
  else if x =? 1 then Some y
  else if y =? 1 then Some x
  else None.

Fixpoint join_shapes (a b : list nat) : option (list nat) :=
  match a, b with
  | [], [] => Some []
  | x :: a', y :: b' =>
      match dim_join x y, join_shapes a' b' with
      | Some d, Some s => Some (d :: s)
      | _, _ => None
      end
  | _, _ => None
  end.

Definition pad_shape (k : nat) (s : list nat) : list nat :=
  repeat 1 (k - length s) ++ s.

Definition broadcast_shapes (a b : list nat) : option (list nat) :=
  let k := Nat.max (length a) (length b) in
  join_shapes (pad_shape k a) (pad_shape k b).

(** *** Slices and indices *)

(** A slice object [slice(start, stop, 1)]; the module only ever builds
    slices of step 1 ([_shift_slice] copies the step). *)
Record slice : Type := mk_slice { start : Z; stop : Z }.

(** Python's normalisation of a slice bound against an extent [n]: a
    negative bound counts from the end, and the bound is clipped to
    [0 .. n]. *)
Definition clip (n : nat) (x : Z) : Z :=
  if (x <? 0)%Z then Z.max (x + Z.of_nat n) 0 else Z.min x (Z.of_nat n).

(** First index and number of indices that [sl] selects from an axis of
    extent [n]. *)
Definition slice_lo (n : nat) (sl : slice) : nat := Z.to_nat (clip n (start sl)).

Definition slice_len (n : nat) (sl : slice) : nat :=
  Z.to_nat (clip n (stop sl) - clip n (start sl)).

(** [sl] selects the index [i] of an axis of extent [n]. *)
Definition selects (n : nat) (sl : slice) (i : nat) : bool :=
  (slice_lo n sl <=? i) && (i <? slice_lo n sl + slice_len n sl).

(** An integer subscript [k] against an extent [n]: negative subscripts
    count from the end, anything outside [-n .. n-1] raises IndexError. *)
Definition norm_index (n : nat) (k : Z) : result nat :=
  if ((k <? - Z.of_nat n) || (Z.of_nat n <=? k))%Z then Raise IndexError
  else Ok (Z.to_nat (if (k <? 0)%Z then k + Z.of_nat n else k)%Z).

(** [xs[i]] on a list. *)
Definition list_get {A : Type} (xs : list A) (i : nat) : result A :=
  match nth_error xs i with
  | Some x => Ok x
  | None => Raise IndexError
  end.

Section Arrays.
Context {R : Type} {SR : Scalar R}.

Record ndarray : Type := mk_ndarray {
  shape : list nat;
  data : list R
}.

Definition ndim (a : ndarray) : nat := length (shape a).

(** Every numpy array holds exactly as many elements as its shape says. *)
Definition wf (a : ndarray) : Prop := length (data a) = size_of (shape a).

Definition get (a : ndarray) (idx : list nat) : R :=
  nth (ravel (shape a) idx) (data a) r0.

(** The array of shape [s] whose element at [idx] is [f idx]. *)
Definition build (s : list nat) (f : list nat -> R) : ndarray :=
  mk_ndarray s (map (fun p => f (unravel s p)) (seq 0 (size_of s))).

(** [np.zeros_like(a)] *)
Definition zeros_like (a : ndarray) : ndarray :=
  mk_ndarray (shape a) (map (fun _ => r0) (data a)).

(** [c * a] and [a * c] for a scalar [c]. *)
Definition scalar_mul_l (c : R) (a : ndarray) : ndarray :=
  mk_ndarray (shape a) (map (fun x => rmul c x) (data a)).

Definition scalar_mul_r (a : ndarray) (c : R) : ndarray :=
  mk_ndarray (shape a) (map (fun x => rmul x c) (data a)).

(** [a + b] and [a * b] on arrays, with broadcasting; shapes that do not
    broadcast raise ValueError. *)
Definition broadcast2 (f : R -> R -> R) (a b : ndarray) : result ndarray :=
  match broadcast_shapes (shape a) (shape b) with
  | Some s =>
      Ok (build s (fun idx =>
            f (get a (bcast_index (shape a) idx)) (get b (bcast_index (shape b) idx))))
  | None => Raise ValueError
  end.

Definition add_arrays : ndarray -> ndarray -> result ndarray := broadcast2 radd.
Definition mul_arrays : ndarray -> ndarray -> result ndarray := broadcast2 rmul.

(** [a[:, .., sl, .., :]]: the slice [sl] on axis [ax], the full range on
    every other axis. *)
Definition getitem_axis (a : ndarray) (ax : nat) (sl : slice) : ndarray :=
  let n := nth ax (shape a) 0 in
  let lo := slice_lo n sl in
  build (upd (shape a) ax (slice_len n sl))
        (fun idx => get a (upd idx ax (lo + nth ax idx 0))).

(** [yd[:, .., sl, .., :] += rhs].  The right-hand side must broadcast to
    the shape of the selected window, otherwise numpy raises ValueError and
    [yd] is left as it was. *)
Definition iadd_axis (yd : ndarray) (ax : nat) (sl : slice) (rhs : ndarray)
  : result ndarray :=
  let n := nth ax (shape yd) 0 in
  let lo := slice_lo n sl in
  let len := slice_len n sl in
  if broadcastable_to (shape rhs) (upd (shape yd) ax len) then
    Ok (build (shape yd) (fun idx =>
          let i := nth ax idx 0 in
          if selects n sl i
          then radd (get yd idx) (get rhs (bcast_index (shape rhs) (upd idx ax (i - lo))))
          else get yd idx))
  else Raise ValueError.

(** [a[:, .., k, .., :]] with an integer [k] on axis [ax]: the axis is
    dropped from the result. *)
Definition getitem_int (a : ndarray) (ax : nat) (k : Z) : result ndarray :=
  j <- norm_index (nth ax (shape a) 0) k ;;
  Ok (build (remove_at ax (shape a)) (fun idx => get a (insert_at ax j idx))).

(** [yd[:, .., k, .., :] += rhs] with an integer [k] on axis [ax]. *)
Definition iadd_int (yd : ndarray) (ax : nat) (k : Z) (rhs : ndarray)
  : result ndarray :=
  j <- norm_index (nth ax (shape yd) 0) k ;;
  if broadcastable_to (shape rhs) (remove_at ax (shape yd)) then
    Ok (build (shape yd) (fun idx =>
          if nth ax idx 0 =? j
          then radd (get yd idx) (get rhs (bcast_index (shape rhs) (remove_at ax idx)))
          else get yd idx))
  else Raise ValueError.

(** An axis number used as a subscript of [y.shape] or of a list of
    [len(y.shape)] entries: Python accepts [-nd .. nd-1]. *)
Definition norm_axis (nd : nat) (dim : Z) : result nat := norm_index nd dim.

End Arrays.

Arguments ndarray R : clear implicits.

(** ** Stencil coefficients and the grid context (external collaborators) *)

Section Engine.
Context {R : Type} {SR : Scalar R}.

(** One coefficient record: [{"coefficients": [...], "offsets": [...]}]. *)
Record stencil : Type := mk_stencil {
  st_coefficients : list R;
  st_offsets : list Z
}.

(** What [coefficients(order, acc)] returns: one record per scheme. *)
Record scheme_table : Type := mk_scheme_table {
  center : stencil;
  forward : stencil;
  backward : stencil
}.

(** The two coefficient routines of [findiff.coefs], which this module
    only calls. *)
Class Provider : Type := {
  coefficients : Z -> Z -> scheme_table;
  coefficients_non_uni : Z -> Z -> list R -> nat -> stencil
}.

(** The grid object [fd], read through [fd.is_uniform()], [fd.spac[axis]],
    [fd.coords[axis]] and [fd.acc]. *)
Record grid : Type := mk_grid {
  is_uniform : bool;
  spac : Z -> R;
  coords : Z -> list R;
  acc : Z
}.

(** ** The stencil engine *)

(** [_shift_slice(sl, off, max_index)] *)
Definition _shift_slice (sl : slice) (off max_index : Z) : result slice :=
  if ((start sl + off <? 0) || (max_index <? stop sl + off))%Z
  then Raise IndexError
  else Ok (mk_slice (start sl + off) (stop sl + off)).

(** The reference slices of [_diff] for the center, forward and backward
    scheme: [slice(nbndry, npts - nbndry, 1)], [slice(0, nbndry, 1)] and
    [slice(npts - nbndry, npts, 1)]. *)
Definition ref_center (npts nbndry : Z) : slice := mk_slice nbndry (npts - nbndry).
Definition ref_forward (npts nbndry : Z) : slice := mk_slice 0 nbndry.
Definition ref_backward (npts nbndry : Z) : slice := mk_slice (npts - nbndry) npts.

(** [abs(1 - w) < 1.E-14] *)
Definition near_one (w : R) : bool := rltb (rabs (rsub r1 w)) eps.

(** The loop [for w, s in zip(weights, off_slices)] of [_apply_to_array];
    the accumulator [yd] is passed through. *)
Fixpoint _apply_to_array_loop (yd y : ndarray R) (ax : nat) (ref_slice : slice)
  (pairs : list (R * slice)) : result (ndarray R) :=
  match pairs with
  | [] => Ok yd
  | (w, s) :: rest =>
      yd' <- (if near_one w
              then iadd_axis yd ax ref_slice (getitem_axis y ax s)
              else iadd_axis yd ax ref_slice (scalar_mul_l w (getitem_axis y ax s))) ;;
      _apply_to_array_loop yd' y ax ref_slice rest
  end.

(** [_apply_to_array(yd, y, weights, off_slices, ref_slice, dim)];
    [ref_multi_slice[dim] = ref_slice] subscripts a list of [len(y.shape)]
    entries. *)
Definition _apply_to_array (yd y : ndarray R) (weights : list R)
  (off_slices : list slice) (ref_slice : slice) (dim : Z) : result (ndarray R) :=
  ax <- norm_axis (ndim y) dim ;;
  _apply_to_array_loop yd y ax ref_slice (combine weights off_slices).

(** One scheme of [_diff]: shift the reference slice by every offset, then
    accumulate. *)
Definition apply_scheme (yd y : ndarray R) (st : stencil) (ref_slice : slice)
  (npts dim : Z) : result (ndarray R) :=
  off_slices <- mapM (fun off => _shift_slice ref_slice off npts) (st_offsets st) ;;
  _apply_to_array yd y (st_coefficients st) off_slices ref_slice dim.

(** [_diff(y, h, deriv, dim, coefs)]: a partial derivative on a uniform
    grid. *)
Definition _diff (y : ndarray R) (h : R) (deriv dim : Z) (coefs : scheme_table)
  : result (ndarray R) :=
  ax <- norm_axis (ndim y) dim ;;
  let npts := Z.of_nat (nth ax (shape y) 0) in
  let nbndry := Z.of_nat (length (st_coefficients (center coefs)) / 2) in
  let yd := zeros_like y in
  yd <- apply_scheme yd y (center coefs) (ref_center npts nbndry) npts dim ;;
  yd <- apply_scheme yd y (forward coefs) (ref_forward npts nbndry) npts dim ;;
  yd <- apply_scheme yd y (backward coefs) (ref_backward npts nbndry) npts dim ;;
  let h_inv := rdiv r1 (rpow h deriv) in
  Ok (scalar_mul_r yd h_inv).

(** The loop [for off, w in zip(offsets, weights)] of [_diff_non_uni] at
    the grid index [i]. *)
Fixpoint _diff_non_uni_inner (yd y : ndarray R) (ax i : nat)
  (pairs : list (Z * R)) : result (ndarray R) :=
  match pairs with
  | [] => Ok yd
  | (off, w) :: rest =>
      norm_index (nth ax (shape yd) 0) (Z.of_nat i) ;;;
      rhs <- getitem_int y ax (Z.of_nat i + off) ;;
      yd' <- iadd_int yd ax (Z.of_nat i) (scalar_mul_l w rhs) ;;
      _diff_non_uni_inner yd' y ax i rest
  end.

(** The loop [for i, x in enumerate(coords)] of [_diff_non_uni]; [i] is
    the index of the next coordinate. *)
Fixpoint _diff_non_uni_loop (yd y : ndarray R) (dim : Z) (coefs : list stencil)
  (i : nat) (coords : list R) : result (ndarray R) :=
  match coords with
  | [] => Ok yd
  | _ :: coords' =>
      st <- list_get coefs i ;;
      ax <- norm_axis (ndim y) dim ;;
      yd' <- _diff_non_uni_inner yd y ax i
               (combine (st_offsets st) (st_coefficients st)) ;;
      _diff_non_uni_loop yd' y dim coefs (S i) coords'
  end.

(** [_diff_non_uni(y, coords, dim, coefs)]: a partial derivative on a
    non-uniform grid. *)
Definition _diff_non_uni (y : ndarray R) (coords : list R) (dim : Z)
  (coefs : list stencil) : result (ndarray R) :=
  _diff_non_uni_loop (zeros_like y) y dim coefs 0 coords.

(** ** The operator tree *)

(** The left operand of [Multiply]: a number or an array. *)
Inductive value : Type :=
| VScalar (c : R)
| VArray (a : ndarray R).

(** [derivs] is the dictionary [self.derivs] as the list of its items in
    insertion order, which is the order [dict.items()] iterates in. *)
Inductive operator : Type :=
| PartialDerivative (derivs : list (Z * Z))
| Plus (left right : operator)
| Multiply (left : value) (right : operator).

Context {PR : Provider}.

(** One turn of the loop of [PartialDerivative.apply]. *)
Definition apply_axis (fd : grid) (axis order : Z) (u : ndarray R)
  : result (ndarray R) :=
  if is_uniform fd then
    _diff u (spac fd axis) order axis (coefficients order (acc fd))
  else
    let coefs :=
      map (fun i => coefficients_non_uni order (acc fd) (coords fd axis) i)
          (seq 0 (length (coords fd axis))) in
    _diff_non_uni u (coords fd axis) axis coefs.

(** [for axis, order in self.derivs.items(): u = ...; return u] *)
Fixpoint apply_derivs (fd : grid) (items : list (Z * Z)) (u : ndarray R)
  : result (ndarray R) :=
  match items with
  | [] => Ok u
  | (axis, order) :: rest =>
      u' <- apply_axis fd axis order u ;;
      apply_derivs fd rest u'
  end.

(** [self.left * x] of [Multiply.apply]. *)
Definition mul_value (v : value) (x : ndarray R) : result (ndarray R) :=
  match v with
  | VScalar c => Ok (scalar_mul_l c x)
  | VArray a => mul_arrays a x
  end.

(** [op.apply(fd, u)] for the three operator classes. *)
Fixpoint apply (op : operator) (fd : grid) (u : ndarray R) : result (ndarray R) :=
  match op with
  | PartialDerivative derivs => apply_derivs fd derivs u
  | Plus l r =>
      u_left <- apply l fd u ;;
      u_right <- apply r fd u ;;
      add_arrays u_left u_right
  | Multiply v r =>
      x <- apply r fd u ;;
      mul_value v x
  end.

(** ** Construction of a [PartialDerivative] *)

(** The Python objects that can be passed to the constructor.  [bool] is a
    subclass of [int] in Python, so [True] and [False] are the integers 1
    and 0; [PyOther] stands for any object that is neither an [int] nor a
    [tuple] (a float, a string, a list, [None]). *)
Inductive pyobj : Type :=
| PyInt (z : Z)
| PyOther
| PyTuple (items : list pyobj).

Definition is_tuple (o : pyobj) : bool :=
  match o with PyTuple _ => true | _ => false end.

(** [_assert_tuple_valid(t)], on the items of the tuple [t].  Unpacking
    [axis, order = t] raises ValueError when [t] has fewer than two
    items. *)
Definition _assert_tuple_valid (t : list pyobj) : result unit :=
  if 2 <? length t then Raise ValueError
  else match t with
       | [axis; order] =>
           match axis with
           | PyInt a =>
               if (a <? 0)%Z then Raise ValueError
               else match order with
                    | PyInt o => if (o <=? 0)%Z then Raise ValueError else Ok tt
                    | _ => Raise ValueError
                    end
           | _ => Raise ValueError
           end
       | _ => Raise ValueError
       end.

(** The items of a tuple object ([all_tuples] only ever holds tuples). *)
Definition tuple_items (o : pyobj) : list pyobj :=
  match o with PyTuple items => items | _ => [] end.

(** [_convert_to_valid_tuple_list(args)] *)
Definition _convert_to_valid_tuple_list (args : list pyobj)
  : result (list (list pyobj)) :=
  all_tuples <-
    (if forallb is_tuple args then Ok (map tuple_items args)
     else if 2 <? length args then Raise ValueError
     else a0 <- list_get args 0 ;; a1 <- list_get args 1 ;; Ok [[a0; a1]]) ;;
  mapM _assert_tuple_valid all_tuples ;;;
  Ok all_tuples.

(** [t[0] in self.derivs] *)
Definition has_key (derivs : list (Z * Z)) (k : Z) : bool :=
  existsb (fun kv => (fst kv =? k)%Z) derivs.

(** The loop of [__init__] that fills [self.derivs]; a validated tuple
    holds two integers. *)
Fixpoint fill_derivs (derivs : list (Z * Z)) (tuples : list (list pyobj))
  : result (list (Z * Z)) :=
  match tuples with
  | [] => Ok derivs
  | t :: rest =>
      match t with
      | [PyInt a; PyInt o] =>
          if has_key derivs a then Raise ValueError
          else fill_derivs (derivs ++ [(a, o)]) rest
      | _ => Raise ValueError
      end
  end.

(** The constructor [PartialDerivative.__init__], on the positional
    arguments [args]. *)
Definition PartialDerivative_init (args : list pyobj) : result operator :=
  tuples <- _convert_to_valid_tuple_list args ;;
  derivs <- fill_derivs [] tuples ;;
  Ok (PartialDerivative derivs).

End Engine.

Arguments stencil R : clear implicits.
Arguments scheme_table R : clear implicits.
Arguments Provider R : clear implicits.
Arguments grid R : clear implicits.
Arguments value R : clear implicits.
Arguments operator R : clear implicits.

(** ** The same control flow over a store of array objects

    numpy arrays are mutable objects and Python variables hold references
    to them.  Here a reference is a position in the store.  [np.zeros_like]
    and every arithmetic expression on arrays allocate a new object: the
    products [w * y[...]] of the loops, [yd * h_inv], [u_left + u_right]
    and [self.left * ...].  [yd[...] += ...] overwrites the object [yd]
    refers to.  Subscripting with slices makes no new array, the window is
    read where it is.  A raised exception leaves the store as it is at that
    moment. *)

Module Store.

Declare Scope store_scope.
Delimit Scope store_scope with store.

Section StoreEngine.
Context {R : Type} {SR : Scalar R} {PR : Provider R}.

Definition loc : Type := nat.
Definition store : Type := list (ndarray R).

Definition M (A : Type) : Type := store -> result A * store.

Definition ret {A : Type} (a : A) : M A := fun st => (Ok a, st).

Definition bindM {A B : Type} (m : M A) (k : A -> M B) : M B :=
  fun st =>
    match m st with
    | (Ok a, st') => k a st'
    | (Raise e, st') => (Raise e, st')
    end.

(** A pure computation that may raise. *)
Definition lift {A : Type} (r : result A) : M A := fun st => (r, st).

(** The object a reference points to (references are never dangling; the
    default only makes the function total). *)
Definition no_object : ndarray R := mk_ndarray [] [].

Definition deref (l : loc) : M (ndarray R) :=
  fun st => (Ok (nth l st no_object), st).

(** A new object. *)
Definition alloc (a : ndarray R) : M loc :=
  fun st => (Ok (length st), st ++ [a]).

Fixpoint set_nth (st : store) (l : loc) (a : ndarray R) : store :=
  match st, l with
  | [], _ => []
  | _ :: st', O => a :: st'
  | x :: st', S l' => x :: set_nth st' l' a
  end.

(** Overwrite the object at [l] in place. *)
Definition assign (l : loc) (a : ndarray R) : M unit :=
  fun st => (Ok tt, set_nth st l a).

Notation "x <- m ;; k" := (bindM m (fun x => k))
  (at level 61, m at next level, right associativity) : store_scope.
Notation "m ;;; k" := (bindM m (fun _ => k))
  (at level 61, right associativity) : store_scope.
Local Open Scope store_scope.

(** [_apply_to_array]: returns nothing, mutates [yd].  A weight close to
    one adds the window of [y] as it is; any other weight first makes the
    product [w * y[...]], a new array, and adds that. *)
Fixpoint _apply_to_array_loop (yd y : loc) (ax : nat) (ref_slice : slice)
  (pairs : list (R * slice)) : M unit :=
  match pairs with
  | [] => ret tt
  | (w, s) :: rest =>
      ydv <- deref yd ;;
      yv <- deref y ;;
      (if near_one w then
         new <- lift (iadd_axis ydv ax ref_slice (getitem_axis yv ax s)) ;;
         assign yd new
       else
         p <- alloc (scalar_mul_l w (getitem_axis yv ax s)) ;;
         pv <- deref p ;;
         new <- lift (iadd_axis ydv ax ref_slice pv) ;;
         assign yd new) ;;;
      _apply_to_array_loop yd y ax ref_slice rest
  end.

Definition _apply_to_array (yd y : loc) (weights : list R)
  (off_slices : list slice) (ref_slice : slice) (dim : Z) : M unit :=
  yv <- deref y ;;
  ax <- lift (norm_axis (ndim yv) dim) ;;
  _apply_to_array_loop yd y ax ref_slice (combine weights off_slices).

(** [_diff]: [yd] is allocated after the shifted slices of the center
    scheme have been computed; the result [yd * h_inv] is a new object. *)
Definition _diff (y : loc) (h : R) (deriv dim : Z) (coefs : scheme_table R)
  : M loc :=
  yv <- deref y ;;
  ax <- lift (norm_axis (ndim yv) dim) ;;
  let npts := Z.of_nat (nth ax (shape yv) 0) in
  let nbndry := Z.of_nat (length (st_coefficients (center coefs)) / 2) in
  let ref_center := ref_center npts nbndry in
  off_slices <- lift (mapM (fun off => _shift_slice ref_center off npts)
                           (st_offsets (center coefs))) ;;
  yd <- alloc (zeros_like yv) ;;
  _apply_to_array yd y (st_coefficients (center coefs)) off_slices ref_center dim ;;;
  let ref_forward := ref_forward npts nbndry in
  off_slices <- lift (mapM (fun off => _shift_slice ref_forward off npts)
                           (st_offsets (forward coefs))) ;;
  _apply_to_array yd y (st_coefficients (forward coefs)) off_slices ref_forward dim ;;;
  let ref_backward := ref_backward npts nbndry in
  off_slices <- lift (mapM (fun off => _shift_slice ref_backward off npts)
                           (st_offsets (backward coefs))) ;;
  _apply_to_array yd y (st_coefficients (backward coefs)) off_slices ref_backward dim ;;;
  let h_inv := rdiv r1 (rpow h deriv) in
  ydv <- deref yd ;;
  alloc (scalar_mul_r ydv h_inv).

Fixpoint _diff_non_uni_inner (yd y : loc) (ax i : nat) (pairs : list (Z * R))
  : M unit :=
  match pairs with
  | [] => ret tt
  | (off, w) :: rest =>
      ydv <- deref yd ;;
      lift (norm_index (nth ax (shape ydv) 0) (Z.of_nat i)) ;;;
      yv <- deref y ;;
      rhs <- lift (getitem_int yv ax (Z.of_nat i + off)) ;;
      p <- alloc (scalar_mul_l w rhs) ;;
      pv <- deref p ;;
      new <- lift (iadd_int ydv ax (Z.of_nat i) pv) ;;
      assign yd new ;;;
      _diff_non_uni_inner yd y ax i rest
  end.

Fixpoint _diff_non_uni_loop (yd y : loc) (dim : Z) (coefs : list (stencil R))
  (i : nat) (coords : list R) : M unit :=
  match coords with
  | [] => ret tt
  | _ :: coords' =>
      st <- lift (list_get coefs i) ;;
      yv <- deref y ;;
      ax <- lift (norm_axis (ndim yv) dim) ;;
      _diff_non_uni_inner yd y ax i
        (combine (st_offsets st) (st_coefficients st)) ;;;
      _diff_non_uni_loop yd y dim coefs (S i) coords'
  end.

(** [_diff_non_uni]: returns the accumulator [yd] itself. *)
Definition _diff_non_uni (y : loc) (coords : list R) (dim : Z)
  (coefs : list (stencil R)) : M loc :=
  yv <- deref y ;;
  yd <- alloc (zeros_like yv) ;;
  _diff_non_uni_loop yd y dim coefs 0 coords ;;;
  ret yd.

Definition apply_axis (fd : grid R) (axis order : Z) (u : loc) : M loc :=
  if is_uniform fd then
    _diff u (spac fd axis) order axis (coefficients order (acc fd))
  else
    let coefs :=
      map (fun i => coefficients_non_uni order (acc fd) (coords fd axis) i)
          (seq 0 (length (coords fd axis))) in
    _diff_non_uni u (coords fd axis) axis coefs.

(** The variable [u] is rebound in every turn; with no turn at all the
    reference that came in is the one returned. *)
Fixpoint apply_derivs (fd : grid R) (items : list (Z * Z)) (u : loc) : M loc :=
  match items with
  | [] => ret u
  | (axis, order) :: rest =>
      u' <- apply_axis fd axis order u ;;
      apply_derivs fd rest u'
  end.

Fixpoint apply (op : operator R) (fd : grid R) (u : loc) : M loc :=
  match op with
  | PartialDerivative derivs => apply_derivs fd derivs u
  | Plus l r =>
      u_left <- apply l fd u ;;
      u_right <- apply r fd u ;;
      lv <- deref u_left ;;
      rv <- deref u_right ;;
      s <- lift (add_arrays lv rv) ;;
      alloc s
  | Multiply v r =>
      x <- apply r fd u ;;
      xv <- deref x ;;
      p <- lift (mul_value v xv) ;;
      alloc p
  end.

(** [st'] is [st] followed by newly allocated objects: nothing that
    existed in [st] has been overwritten. *)
Definition extends (st st' : store) : Prop := exists extra, st' = st ++ extra.

(** The outcome of a call without its value. *)
Definition erase {A : Type} (r : result A) : result unit :=
  match r with
  | Ok _ => Ok tt
  | Raise e => Raise e
  end.

(** The run [out] of a call on the field at [u], started in [st], agrees
    with the value-level outcome [pure]: the store has only grown, the same
    exception is raised or the returned reference holds the same array,
    and that reference is [u] itself or an object allocated by the call. *)
Definition refines (st : store) (u : loc) (pure : result (ndarray R))
  (out : result loc * store) : Prop :=
  extends st (snd out) /\
  match pure with
  | Ok r =>
      exists l, fst out = Ok l /\ nth_error (snd out) l = Some r /\
                (l = u \/ length st <= l)
  | Raise e => fst out = Raise e
  end.

(** The reference a call returns is an object the call allocated. *)
Definition returns_new_array (op : operator R) (fd : grid R) (u : loc)
  (st : store) : Prop :=
  forall l, fst (apply op fd u st) = Ok l -> length st <= l.

End StoreEngine.

Arguments store R : clear implicits.

End Store.

(** ** The specification's reading of the uniform stencil algorithm

    These definitions follow the words of the specification, element by
    element; they are compared with [_diff] below. *)

Section Specification.
Context {R : Type} {SR : Scalar R}.

(** The shifted read window [sl + off] stays within [0, n). *)
Definition window_in_bounds (sl : slice) (n off : Z) : Prop :=
  (0 <= start sl + off /\ stop sl + off <= n)%Z.

(** [i] lies in the half-open range [lo, hi). *)
Definition in_range (lo hi : Z) (i : nat) : bool :=
  ((lo <=? Z.of_nat i) && (Z.of_nat i <? hi))%Z.

(** The element of [y] read for the output element [idx] at offset [off]
    along axis [ax]; every other axis keeps its index. *)
Definition shifted (y : ndarray R) (ax : nat) (idx : list nat) (off : Z) : R :=
  get y (upd idx ax (Z.to_nat (Z.of_nat (nth ax idx 0) + off))).

(** Starting from [a], add the contribution of every (weight, offset) pair
    of the record, in the order of the record. *)
Definition stencil_sum (contrib : R -> R -> R) (y : ndarray R) (ax : nat)
  (st : stencil R) (idx : list nat) (a : R) : R :=
  fold_left (fun acc wo => radd acc (contrib (fst wo) (shifted y ax idx (snd wo))))
            (combine (st_coefficients st) (st_offsets st)) a.

(** Half-width [b = floor(len(center_weights) / 2)]. *)
Definition half_width (coefs : scheme_table R) : nat :=
  length (st_coefficients (center coefs)) / 2.

(** The three regions of an axis of extent [npts]. *)
Definition leading (npts b : nat) (i : nat) : bool :=
  in_range 0 (Z.of_nat b) i.
Definition interior (npts b : nat) (i : nat) : bool :=
  in_range (Z.of_nat b) (Z.of_nat npts - Z.of_nat b) i.
Definition trailing (npts b : nat) (i : nat) : bool :=
  in_range (Z.of_nat npts - Z.of_nat b) (Z.of_nat npts) i.

(** An accumulator that starts at zero; the center record is added over
    the interior, the forward record over the leading and the backward
    record over the trailing region; the sum is scaled by [1 / h^m].
    [contrib w v] is what one pair with weight [w] adds for the sample
    [v]. *)
Definition diff_spec (contrib : R -> R -> R) (y : ndarray R) (h : R) (m : Z)
  (ax : nat) (coefs : scheme_table R) : ndarray R :=
  let npts := nth ax (shape y) 0 in
  let b := half_width coefs in
  build (shape y) (fun idx =>
    let i := nth ax idx 0 in
    let a0 := r0 in
    let a1 := if interior npts b i
              then stencil_sum contrib y ax (center coefs) idx a0 else a0 in
    let a2 := if leading npts b i
              then stencil_sum contrib y ax (forward coefs) idx a1 else a1 in
    let a3 := if trailing npts b i
              then stencil_sum contrib y ax (backward coefs) idx a2 else a2 in
    rmul a3 (rdiv r1 (rpow h m))).

(** "weight times the sample", as the specification words it. *)
Definition weighted (w v : R) : R := rmul w v.

(** What [_apply_to_array] adds for one pair: the sample itself when the
    weight is within [1e-14] of one, weight times the sample otherwise. *)
Definition weighted_unless_one (w v : R) : R :=
  if near_one w then v else rmul w v.

(** Every shifted window of the three schemes stays within [0, npts). *)
Definition windows_in_bounds (npts : nat) (coefs : scheme_table R) : Prop :=
  let n := Z.of_nat npts in
  let b := Z.of_nat (half_width coefs) in
  Forall (window_in_bounds (ref_center n b) n) (st_offsets (center coefs)) /\
  Forall (window_in_bounds (ref_forward n b) n) (st_offsets (forward coefs)) /\
  Forall (window_in_bounds (ref_backward n b) n) (st_offsets (backward coefs)).

(** The indices of an axis of extent [npts] that the forward, center and
    backward scheme of [_diff] write, for a half-width [b]: those its
    reference slices select. *)
Definition writes_leading (npts b i : nat) : bool :=
  selects npts (ref_forward (Z.of_nat npts) (Z.of_nat b)) i.
Definition writes_interior (npts b i : nat) : bool :=
  selects npts (ref_center (Z.of_nat npts) (Z.of_nat b)) i.
Definition writes_trailing (npts b i : nat) : bool :=
  selects npts (ref_backward (Z.of_nat npts) (Z.of_nat b)) i.

(** The three regions partition [0, npts): every index of the axis is
    written by exactly one scheme, and no scheme writes outside the
    axis. *)
Definition regions_partition (npts b : nat) : Prop :=
  forall i : nat,
    (i < npts ->
       (writes_leading npts b i = true /\ writes_interior npts b i = false /\
        writes_trailing npts b i = false) \/
       (writes_leading npts b i = false /\ writes_interior npts b i = true /\
        writes_trailing npts b i = false) \/
       (writes_leading npts b i = false /\ writes_interior npts b i = false /\
        writes_trailing npts b i = true)) /\
    (npts <= i ->
       writes_leading npts b i = false /\ writes_interior npts b i = false /\
       writes_trailing npts b i = false).

End Specification.

(** ** The specification's reading of a valid argument list *)

(** The tuple object [(axis, order)] and its items. *)
Definition pair_items (p : Z * Z) : list pyobj := [PyInt (fst p); PyInt (snd p)].
Definition to_tuple (p : Z * Z) : pyobj := PyTuple (pair_items p).

(** A non-negative integer axis and a positive integer order. *)
Definition valid_pair (p : Z * Z) : Prop := (0 <= fst p)%Z /\ (0 < snd p)%Z.

(** The argument lists the specification accepts, with the pairs they
    denote: any number of valid pairs in which no axis repeats (none at all
    for the identity), or the two values of one valid pair passed without
    the tuple parentheses. *)
Inductive valid_args : list pyobj -> list (Z * Z) -> Prop :=
| valid_tuples (ps : list (Z * Z)) :
    Forall valid_pair ps -> NoDup (map fst ps) ->
    valid_args (map to_tuple ps) ps
| valid_shorthand (a o : Z) :
    valid_pair (a, o) -> valid_args [PyInt a; PyInt o] [(a, o)].

(** ** The specification's reading of operator evaluation *)

Section OperatorSpecification.
Context {R : Type} {SR : Scalar R} {PR : Provider R}.

(** The multiplier of a [Multiply] is a scalar or an array broadcastable
    to the field shape [s]. *)
Definition value_fits (v : value R) (s : list nat) : Prop :=
  match v with
  | VScalar _ => True
  | VArray a => wf a /\ broadcastable_to (shape a) s = true
  end.

(** Every multiplier in the tree fits the field shape [s]. *)
Fixpoint values_fit (op : operator R) (s : list nat) : Prop :=
  match op with
  | PartialDerivative _ => True
  | Plus l r => values_fit l s /\ values_fit r s
  | Multiply v r => value_fits v s /\ values_fit r s
  end.

(** The factor a multiplier contributes at the element [idx]. *)
Definition value_at (v : value R) (idx : list nat) : R :=
  match v with
  | VScalar c => c
  | VArray a => get a (bcast_index (shape a) idx)
  end.

(** The derivative along the single axis of one pair. *)
Definition single_axis (p : Z * Z) : operator R := PartialDerivative [p].

(** Sequential composition of the single-axis derivatives of [ps], in the
    order of [ps]: what one returns is what the next receives. *)
Definition compose_in_order (fd : grid R) (ps : list (Z * Z)) (u : ndarray R)
  : result (ndarray R) :=
  fold_left (fun r p => v <- r ;; apply (single_axis p) fd v) ps (Ok u).

(** Differentiating along the axes of [ps] one at a time, in the order of
    [ps], each by the turn [apply_axis] of the loop of
    [PartialDerivative.apply]: the array the turn for one axis returns is
    the field the turn for the next axis differentiates, and an exception
    ends the sequence. *)
Definition axis_by_axis (fd : grid R) (ps : list (Z * Z)) (u : ndarray R)
  : result (ndarray R) :=
  fold_left (fun r p => v <- r ;; apply_axis fd (fst p) (snd p) v) ps (Ok u).

End OperatorSpecification.

(** ** The result of the non-uniform stencil algorithm, element by element *)

Section NonUniformSpecification.
Context {R : Type} {SR : Scalar R}.

(** The (offset, weight) pairs [zip(offsets, weights)] of a record. *)
Definition node_pairs (st : stencil R) : list (Z * R) :=
  combine (st_offsets st) (st_coefficients st).

(** The position numpy reads for the subscript [k] on an axis of extent
    [n] when [-n <= k < n]: [k] itself, or [k + n] for a negative [k]. *)
Definition read_position (n : nat) (k : Z) : nat := Z.to_nat (k mod Z.of_nat n).

(** Starting from [a], add weight times the sample at the read position
    for every pair of the record, in the order of the record. *)
Definition node_sum (y : ndarray R) (ax : nat) (st : stencil R) (idx : list nat)
  (a : R) : R :=
  fold_left
    (fun acc p =>
       radd acc
         (rmul (snd p)
            (get y (upd idx ax
                      (read_position (nth ax (shape y) 0)
                         (Z.of_nat (nth ax idx 0) + fst p))))))
    (node_pairs st) a.

(** Every subscript [i + off] that node [i] uses is one numpy accepts. *)
Definition reads_accepted (n i : nat) (st : stencil R) : Prop :=
  Forall (fun p => (- Z.of_nat n <= Z.of_nat i + fst p < Z.of_nat n)%Z)
         (node_pairs st).

(** The record of node [i] in the list [coefs]. *)
Definition node_record (coefs : list (stencil R)) (i : nat) : stencil R :=
  nth i coefs (mk_stencil [] []).

(** Zero everywhere, except that an element at a node [i < ncoords] of the
    active axis holds the sum of the record of that node. *)
Definition diff_non_uni_spec (y : ndarray R) (ncoords : nat) (ax : nat)
  (coefs : list (stencil R)) : ndarray R :=
  build (shape y) (fun idx =>
    let i := nth ax idx 0 in
    if i <? ncoords then node_sum y ax (node_record coefs i) idx r0 else r0).

End NonUniformSpecification.

(** ** The accessors [axes] and [order] of a [PartialDerivative] *)

(** The order of Python integers, for [sorted]. *)
Module ZOrder <: Orders.TotalLeBool.
Definition t : Type := Z.
Definition leb (x y : Z) : bool := (x <=? y)%Z.
Lemma leb_total (x y : Z) : leb x y = true \/ leb y x = true.
Proof.
  unfold leb. destruct (Z.leb_spec x y); [now left | right].
  apply Z.leb_le. lia.
Qed.
End ZOrder.

Module ZSort := Mergesort.Sort ZOrder.

(** [axes(self)]: [sorted(list(self.derivs.keys()))]. *)
Definition axes (derivs : list (Z * Z)) : list Z := ZSort.sort (map fst derivs).

(** [self.derivs[axis]] for a key that is present. *)
Definition dict_value (derivs : list (Z * Z)) (k : Z) : Z :=
  match find (fun kv => (fst kv =? k)%Z) derivs with
  | Some kv => snd kv
  | None => 0%Z
  end.

(** [order(self, axis)]: the stored order if [axis in self.derivs], else 0. *)
Definition order (derivs : list (Z * Z)) (axis : Z) : Z :=
  if has_key derivs axis then dict_value derivs axis else 0%Z.

(** ** binary64 scalars, as numpy's float64 *)

(** A stand-in for C's [pow] by repeated multiplication; it agrees with
    [pow] when the base is 1 or the exponent is 1, which is how the
    examples below use it. *)
Definition float_pow (h : float) (n : Z) : float :=
  match n with
  | Z0 => 1%float
  | Zpos p => Pos.iter (fun x => (x * h)%float) 1%float p
  | Zneg p => (1 / Pos.iter (fun x => (x * h)%float) 1%float p)%float
  end.

#[export] Instance float_scalar : Scalar float := {|
  r0 := 0%float;
  r1 := 1%float;
  eps := 0x1.6849b86a12b9bp-47%float;
  radd := PrimFloat.add;
  rsub := PrimFloat.sub;
  rmul := PrimFloat.mul;
  rdiv := PrimFloat.div;
  rabs := PrimFloat.abs;
  rltb := PrimFloat.ltb;
  rpow := float_pow
|}.

(** ** Example inputs *)

(** A one-dimensional field of three samples, all equal to 3. *)
Definition ex_const3 : ndarray float :=
  mk_ndarray [3] [3; 3; 3]%float.

(** Coefficient records of half-width 1 whose one-sided schemes are the
    two-point differences [(-1, 1)]; the weight that should be 1 carries a
    rounding error of one unit in the last place, as a weight computed by
    solving a linear system may. *)
Definition ex_one_ulp : float := 0x1.0000000000001p+0%float.

Definition ex_coefs_near_one : scheme_table float :=
  mk_scheme_table
    (mk_stencil [-0.5; 0; 0.5]%float [-1; 0; 1]%Z)
    (mk_stencil [-1; ex_one_ulp]%float [0; 1]%Z)
    (mk_stencil [-1; ex_one_ulp]%float [-1; 0]%Z).

(** A field of five samples and the seven-point schemes of first order
    and sixth accuracy order (half-width 3), weights rounded to binary64. *)
Definition ex_field5 : ndarray float :=
  mk_ndarray [5] [1; 2; 4; 8; 16]%float.

Definition ex_coefs7 : scheme_table float :=
  mk_scheme_table
    (mk_stencil
       [-0x1.1111111111111p-6; 0x1.3333333333333p-3; -0.75; 0; 0.75;
        -0x1.3333333333333p-3; 0x1.1111111111111p-6]%float
       [-3; -2; -1; 0; 1; 2; 3]%Z)
    (mk_stencil
       [-0x1.399999999999ap+1; 6; -7.5; 0x1.aaaaaaaaaaaabp+2; -3.75;
        0x1.3333333333333p+0; -0x1.5555555555555p-3]%float
       [0; 1; 2; 3; 4; 5; 6]%Z)
    (mk_stencil
       [0x1.5555555555555p-3; -0x1.3333333333333p+0; 3.75;
        -0x1.aaaaaaaaaaaabp+2; 7.5; -6; 0x1.399999999999ap+1]%float
       [-6; -5; -4; -3; -2; -1; 0]%Z).

(** The three-point schemes of first order and second accuracy order. *)
Definition ex_coefs3 : scheme_table float :=
  mk_scheme_table
    (mk_stencil [-0.5; 0; 0.5]%float [-1; 0; 1]%Z)
    (mk_stencil [-1.5; 2; -0.5]%float [0; 1; 2]%Z)
    (mk_stencil [0.5; -2; 1.5]%float [-2; -1; 0]%Z).

(** Five unevenly spaced coordinates, and a provider answer that uses the
    two-point difference with offsets [-1, 0] at every node, the first one
    included. *)
Definition ex_coords5 : list float := [0; 1; 3; 6; 10]%float.

Definition ex_backward_everywhere : list (stencil float) :=
  repeat (mk_stencil [-1; 1]%float [-1; 0]%Z) 5.

(** A record that reads the node itself and the node after it, at every
    node: the last node reads one position beyond the axis. *)
Definition ex_forward_everywhere : list (stencil float) :=
  repeat (mk_stencil [-1; 1]%float [0; 1]%Z) 5.

(** A provider that answers every request with the three-point schemes,
    a uniform grid of spacing 1 and a field of three by three samples. *)
#[export] Instance ex_provider : Provider float := {|
  coefficients := fun _ _ => ex_coefs3;
  coefficients_non_uni := fun _ _ _ _ => mk_stencil [-1; 1]%float [-1; 0]%Z
|}.

Definition ex_grid : grid float :=
  mk_grid true (fun _ => 1%float) (fun _ => ex_coords5) 2.

(** The same coordinates presented as a non-uniform grid. *)
Definition ex_grid_non_uni : grid float :=
  mk_grid false (fun _ => 1%float) (fun _ => ex_coords5) 2.

(** A provider that answers every request with the seven-point schemes. *)
Definition ex_provider7 : Provider float := {|
  coefficients := fun _ _ => ex_coefs7;
  coefficients_non_uni := fun _ _ _ _ => mk_stencil [-1; 1]%float [-1; 0]%Z
|}.

Definition ex_field33 : ndarray float :=
  mk_ndarray [3; 3] [1; 2; 4; 3; 6; 12; 9; 18; 36]%float.

(** The mixed derivative along axis 0, then axis 1. *)
Definition ex_pairs : list (Z * Z) := [(0, 1); (1, 1)]%Z.

Definition ex_dx : operator float := PartialDerivative [(0, 1)%Z].
Definition ex_dy : operator float := PartialDerivative [(1, 1)%Z].

(** A multiplier of shape [3], broadcast along the rows of the field. *)
Definition ex_multiplier : value float :=
  VArray (mk_ndarray [3] [1; 10; 100]%float).

(** A field of two by three samples: too few along axis 0 for the
    three-point one-sided schemes. *)
Definition ex_field23 : ndarray float :=
  mk_ndarray [2; 3] [1; 2; 4; 8; 16; 32]%float.

(** * Facts about the array model *)

Lemma bind_ok {A B : Type} (m : result A) (k : A -> result B) (b : B) :
  bind m k = Ok b -> exists a, m = Ok a /\ k a = Ok b.
Proof.
  destruct m as [a|e]; simpl; intros H; [exists a; auto | discriminate].
Qed.

Lemma size_of_cons (d : nat) (s : list nat) : size_of (d :: s) = d * size_of s.
Proof. reflexivity. Qed.

Lemma unravel_valid (s : list nat) :
  forall p, p < size_of s -> valid_index s (unravel s p).
Proof.
  induction s as [|d s IH]; intros p Hp.
  - constructor.
  - rewrite size_of_cons in Hp.
    assert (Hz : size_of s <> 0) by (intros E; rewrite E in Hp; lia).
    cbn [unravel]. constructor.
    + apply Nat.Div0.div_lt_upper_bound. lia.
    + apply IH. apply Nat.mod_upper_bound. exact Hz.
Qed.

Lemma ravel_unravel (s : list nat) :
  forall p, p < size_of s -> ravel s (unravel s p) = p.
Proof.
  induction s as [|d s IH]; intros p Hp.
  - simpl in *. lia.
  - rewrite size_of_cons in Hp.
    assert (Hz : size_of s <> 0) by (intros E; rewrite E in Hp; lia).
    cbn [unravel ravel].
    rewrite IH by (apply Nat.mod_upper_bound; exact Hz).
    pose proof (Nat.div_mod_eq p (size_of s)). lia.
Qed.

Lemma ravel_lt (s : list nat) :
  forall idx, valid_index s idx -> ravel s idx < size_of s.
Proof.
  induction s as [|d s IH]; intros idx H; inversion H; subst.
  - simpl. lia.
  - match goal with Hv : Forall2 lt _ s |- _ => specialize (IH _ Hv) end.
    rewrite size_of_cons. cbn [ravel]. nia.
Qed.

Lemma unravel_ravel (s : list nat) :
  forall idx, valid_index s idx -> unravel s (ravel s idx) = idx.
Proof.
  induction s as [|d s IH]; intros idx H; inversion H; subst.
  - reflexivity.
  - match goal with Hv : Forall2 lt _ s |- _ =>
      pose proof (ravel_lt Hv) as Hlt; specialize (IH _ Hv) end.
    assert (Hz : size_of s <> 0) by lia.
    cbn [ravel unravel].
    rewrite Nat.div_add_l by exact Hz.
    rewrite (Nat.div_small _ _ Hlt), Nat.add_0_r.
    rewrite Nat.add_comm, Nat.Div0.mod_add, (Nat.mod_small _ _ Hlt).
    now rewrite IH.
Qed.

Lemma valid_index_length (s idx : list nat) :
  valid_index s idx -> length idx = length s.
Proof. apply Forall2_length. Qed.

Lemma valid_index_nth (s idx : list nat) (k : nat) :
  valid_index s idx -> k < length s -> nth k idx 0 < nth k s 0.
Proof.
  intros H; revert k; induction H; intros k Hk; simpl in *; [lia|].
  destruct k; [assumption | apply IHForall2; lia].
Qed.

Lemma length_upd (l : list nat) : forall k v, length (upd l k v) = length l.
Proof.
  induction l as [|x l IH]; intros [|k] v; simpl; auto.
Qed.

Lemma nth_upd_same (l : list nat) :
  forall k v, k < length l -> nth k (upd l k v) 0 = v.
Proof.
  induction l as [|x l IH]; intros [|k] v Hk; simpl in *; try lia; auto.
  apply IH; lia.
Qed.

Lemma upd_upd (l : list nat) : forall k v v', upd (upd l k v) k v' = upd l k v'.
Proof.
  induction l as [|x l IH]; intros [|k] v v'; simpl; auto.
  now rewrite IH.
Qed.

Lemma upd_nth (l : list nat) : forall k, upd l k (nth k l 0) = l.
Proof.
  induction l as [|x l IH]; intros [|k]; simpl; auto.
  now rewrite IH.
Qed.

Lemma valid_index_upd (s idx : list nat) (k v t : nat) :
  valid_index s idx -> v < t -> valid_index (upd s k t) (upd idx k v).
Proof.
  intros H; revert k; induction H; intros k Hv.
  - destruct k; constructor.
  - destruct k; simpl; constructor; auto. now apply IHForall2.
Qed.

Lemma valid_index_upd_idx (s idx : list nat) (k v : nat) :
  valid_index s idx -> v < nth k s 0 -> valid_index s (upd idx k v).
Proof.
  intros H; revert k; induction H; intros k Hv.
  - destruct k; constructor.
  - destruct k; simpl in *; constructor; auto. now apply IHForall2.
Qed.

(** An index that addresses an element of the operand itself is not
    changed by broadcasting. *)
Lemma bcast_index_valid (s idx : list nat) :
  valid_index s idx -> bcast_index s idx = idx.
Proof.
  intros H. unfold bcast_index.
  rewrite (valid_index_length H), Nat.sub_diag. simpl.
  induction H; simpl; auto.
  rewrite IHForall2.
  destruct (Nat.eqb_spec y 1); [f_equal; lia | reflexivity].
Qed.

Lemma all2_dim_fits_upd (s : list nat) :
  forall k a b, k < length s ->
    all2 dim_fits (upd s k a) (upd s k b) = dim_fits a b.
Proof.
  assert (Hrefl : forall l, all2 dim_fits l l = true).
  { induction l as [|x l IH]; simpl; auto.
    unfold dim_fits at 1. now rewrite Nat.eqb_refl, IH. }
  induction s as [|x s IH]; intros [|k] a b Hk; simpl in *; try lia.
  - now rewrite Hrefl, andb_true_r.
  - rewrite IH by lia. unfold dim_fits at 1. now rewrite Nat.eqb_refl.
Qed.

Lemma broadcastable_to_upd (s : list nat) (k a b : nat) :
  k < length s ->
  broadcastable_to (upd s k a) (upd s k b) = dim_fits a b.
Proof.
  intros Hk. unfold broadcastable_to.
  rewrite !length_upd, Nat.leb_refl, Nat.sub_diag. simpl.
  now apply all2_dim_fits_upd.
Qed.

Lemma join_shapes_same (s : list nat) : join_shapes s s = Some s.
Proof.
  induction s as [|x s IH]; simpl; auto.
  unfold dim_join. now rewrite Nat.eqb_refl, IH.
Qed.

Lemma broadcast_shapes_same (s : list nat) : broadcast_shapes s s = Some s.
Proof.
  unfold broadcast_shapes, pad_shape.
  rewrite Nat.max_id, Nat.sub_diag. simpl. apply join_shapes_same.
Qed.

Section ArrayFacts.
Context {R : Type} {SR : Scalar R}.

Lemma wf_build (s : list nat) (f : list nat -> R) : wf (build s f).
Proof. unfold wf, build; simpl. now rewrite length_map, length_seq. Qed.

Lemma shape_build (s : list nat) (f : list nat -> R) : shape (build s f) = s.
Proof. reflexivity. Qed.

Lemma get_build (s : list nat) (f : list nat -> R) (idx : list nat) :
  valid_index s idx -> get (build s f) idx = f idx.
Proof.
  intros H. unfold get, build; simpl.
  pose proof (ravel_lt H) as Hlt.
  rewrite (nth_indep _ r0 (f (unravel s 0)))
    by (now rewrite length_map, length_seq).
  rewrite (map_nth (fun p => f (unravel s p))).
  rewrite seq_nth by exact Hlt. simpl.
  now rewrite unravel_ravel.
Qed.

Lemma build_ext (s : list nat) (f g : list nat -> R) :
  (forall idx, valid_index s idx -> f idx = g idx) -> build s f = build s g.
Proof.
  intros H. unfold build. f_equal.
  apply map_ext_in. intros p Hp. apply in_seq in Hp.
  apply H, unravel_valid. lia.
Qed.

(** Two arrays of one shape with the same elements are the same array. *)
Lemma array_ext (a b : ndarray R) :
  wf a -> wf b -> shape a = shape b ->
  (forall idx, valid_index (shape a) idx -> get a idx = get b idx) ->
  a = b.
Proof.
  destruct a as [sa da], b as [sb db]; unfold wf, get; simpl.
  intros Ha Hb Hs H; subst sb. f_equal.
  apply (nth_ext _ _ r0 r0); [congruence|].
  intros p Hp. rewrite Ha in Hp.
  specialize (H _ (unravel_valid _ Hp)).
  now rewrite ravel_unravel in H.
Qed.

Lemma build_get (a : ndarray R) : wf a -> build (shape a) (get a) = a.
Proof.
  intros Ha. apply array_ext; auto using wf_build.
  intros idx H. now apply get_build.
Qed.

Lemma wf_zeros_like (a : ndarray R) : wf a -> wf (zeros_like a).
Proof. unfold wf, zeros_like; simpl. now rewrite length_map. Qed.

Lemma get_zeros_like (a : ndarray R) (idx : list nat) :
  wf a -> valid_index (shape a) idx -> get (zeros_like a) idx = r0.
Proof.
  intros Ha H. unfold get, zeros_like; simpl.
  pose proof (ravel_lt H) as Hlt. rewrite <- Ha in Hlt.
  exact (map_nth (fun _ : R => r0) (data a) r0 (ravel (shape a) idx)).
Qed.

Lemma wf_scalar_mul_l (c : R) (a : ndarray R) : wf a -> wf (scalar_mul_l c a).
Proof. unfold wf, scalar_mul_l; simpl. now rewrite length_map. Qed.

Lemma wf_scalar_mul_r (a : ndarray R) (c : R) : wf a -> wf (scalar_mul_r a c).
Proof. unfold wf, scalar_mul_r; simpl. now rewrite length_map. Qed.

Lemma get_scalar_mul_l (c : R) (a : ndarray R) (idx : list nat) :
  wf a -> valid_index (shape a) idx ->
  get (scalar_mul_l c a) idx = rmul c (get a idx).
Proof.
  intros Ha H. unfold get, scalar_mul_l; simpl.
  pose proof (ravel_lt H) as Hlt. rewrite <- Ha in Hlt.
  rewrite (nth_indep _ r0 (rmul c r0)) by (now rewrite length_map).
  now rewrite (map_nth (fun x => rmul c x)).
Qed.

Lemma get_scalar_mul_r (a : ndarray R) (c : R) (idx : list nat) :
  wf a -> valid_index (shape a) idx ->
  get (scalar_mul_r a c) idx = rmul (get a idx) c.
Proof.
  intros Ha H. unfold get, scalar_mul_r; simpl.
  pose proof (ravel_lt H) as Hlt. rewrite <- Ha in Hlt.
  rewrite (nth_indep _ r0 (rmul r0 c)) by (now rewrite length_map).
  now rewrite (map_nth (fun x => rmul x c)).
Qed.

End ArrayFacts.

(** * Facts about slices *)

Lemma slice_lo_plain (n : nat) (s e : Z) :
  (0 <= s <= e)%Z -> (e <= Z.of_nat n)%Z ->
  slice_lo n (mk_slice s e) = Z.to_nat s.
Proof.
  intros H1 H2. unfold slice_lo, clip; simpl.
  destruct (Z.ltb_spec s 0); lia.
Qed.

Lemma slice_len_plain (n : nat) (s e : Z) :
  (0 <= s <= e)%Z -> (e <= Z.of_nat n)%Z ->
  slice_len n (mk_slice s e) = Z.to_nat (e - s).
Proof.
  intros H1 H2. unfold slice_len, clip; simpl.
  destruct (Z.ltb_spec s 0), (Z.ltb_spec e 0); lia.
Qed.

Section EngineFacts.
Context {R : Type} {SR : Scalar R}.

(** For a slice with [0 <= start <= stop <= n] the selected indices are
    those of the interval [start, stop). *)
Lemma selects_plain (n : nat) (s e : Z) (i : nat) :
  (0 <= s <= e)%Z -> (e <= Z.of_nat n)%Z ->
  selects n (mk_slice s e) i = in_range s e i.
Proof.
  intros H1 H2. unfold selects, in_range.
  rewrite slice_lo_plain, slice_len_plain by assumption.
  destruct (Nat.leb_spec (Z.to_nat s) i), (Z.leb_spec s (Z.of_nat i)); try lia; simpl; auto.
  destruct (Nat.ltb_spec i (Z.to_nat s + Z.to_nat (e - s))),
           (Z.ltb_spec (Z.of_nat i) e); try lia; auto.
Qed.

Lemma shift_slice_ok (sl : slice) (n off : Z) :
  window_in_bounds sl n off ->
  _shift_slice sl off n = Ok (mk_slice (start sl + off) (stop sl + off)).
Proof.
  intros [H1 H2]. unfold _shift_slice.
  destruct (Z.ltb_spec (start sl + off) 0); [lia|].
  destruct (Z.ltb_spec n (stop sl + off)); [lia|]. reflexivity.
Qed.

(** [_shift_slice] raises IndexError exactly when the shifted window does
    not stay within [0, max_index), and nothing else. *)
Lemma shift_slice_raises (sl : slice) (n off : Z) :
  ~ window_in_bounds sl n off -> _shift_slice sl off n = Raise IndexError.
Proof.
  unfold window_in_bounds, _shift_slice. intros H.
  destruct (Z.ltb_spec (start sl + off) 0); [reflexivity|].
  destruct (Z.ltb_spec n (stop sl + off)); [reflexivity|]. lia.
Qed.

Lemma mapM_shift_ok (sl : slice) (n : Z) (offs : list Z) :
  Forall (window_in_bounds sl n) offs ->
  mapM (fun off => _shift_slice sl off n) offs =
  Ok (map (fun off => mk_slice (start sl + off) (stop sl + off)) offs).
Proof.
  induction 1 as [|off offs H _ IH]; simpl; [reflexivity|].
  now rewrite (shift_slice_ok H), IH.
Qed.

Lemma mapM_shift_raises (sl : slice) (n : Z) (offs : list Z) :
  ~ Forall (window_in_bounds sl n) offs ->
  mapM (fun off => _shift_slice sl off n) offs = Raise IndexError.
Proof.
  induction offs as [|off offs IH]; intros H.
  - exfalso. apply H. constructor.
  - simpl. unfold _shift_slice at 1.
    destruct (Z.ltb_spec (start sl + off) 0); [reflexivity|].
    destruct (Z.ltb_spec n (stop sl + off)); [reflexivity|]. simpl.
    rewrite IH; [reflexivity|].
    intros HF. apply H. constructor; [split; lia | exact HF].
Qed.

Lemma get_getitem_axis (a : ndarray R) (ax : nat) (sl : slice) (idx : list nat) :
  valid_index (upd (shape a) ax (slice_len (nth ax (shape a) 0) sl)) idx ->
  get (getitem_axis a ax sl) idx =
  get a (upd idx ax (slice_lo (nth ax (shape a) 0) sl + nth ax idx 0)).
Proof. intros H. unfold getitem_axis. now rewrite get_build. Qed.

(** One turn of the loop of [_apply_to_array] when the read window has as
    many indices as the reference window. *)
Lemma apply_pair_spec (yd y : ndarray R) (ax : nat) (ref_slice s : slice) (w : R) :
  wf y -> wf yd -> shape yd = shape y -> ax < ndim y ->
  slice_len (nth ax (shape y) 0) s = slice_len (nth ax (shape y) 0) ref_slice ->
  exists yd',
    (if near_one w
     then iadd_axis yd ax ref_slice (getitem_axis y ax s)
     else iadd_axis yd ax ref_slice (scalar_mul_l w (getitem_axis y ax s))) = Ok yd'
    /\ wf yd' /\ shape yd' = shape y
    /\ forall idx, valid_index (shape y) idx ->
         get yd' idx =
         if selects (nth ax (shape y) 0) ref_slice (nth ax idx 0)
         then radd (get yd idx)
                (weighted_unless_one w
                   (get y (upd idx ax
                      (slice_lo (nth ax (shape y) 0) s +
                       (nth ax idx 0 - slice_lo (nth ax (shape y) 0) ref_slice)))))
         else get yd idx.
Proof.
  intros Hy Hyd Hs Hax Hlen.
  set (n := nth ax (shape y) 0) in *.
  set (len := slice_len n ref_slice) in *.
  assert (Hfit : broadcastable_to (upd (shape y) ax (slice_len n s))
                                  (upd (shape y) ax len) = true).
  { rewrite Hlen, broadcastable_to_upd by exact Hax.
    unfold dim_fits. now rewrite Nat.eqb_refl. }
  assert (Hidx : forall idx, valid_index (shape y) idx ->
            selects n ref_slice (nth ax idx 0) = true ->
            valid_index (upd (shape y) ax (slice_len n s))
                        (upd idx ax (nth ax idx 0 - slice_lo n ref_slice))).
  { intros idx Hv Hsel. apply valid_index_upd; [exact Hv|].
    unfold selects in Hsel. apply andb_prop in Hsel as [H1 H2].
    apply Nat.leb_le in H1. apply Nat.ltb_lt in H2. fold len in H2. lia. }
  unfold weighted_unless_one. destruct (near_one w).
  - unfold iadd_axis. rewrite Hs. fold n. fold len.
    change (shape (getitem_axis y ax s)) with (upd (shape y) ax (slice_len n s)).
    rewrite Hfit. eexists; split; [reflexivity|].
    split; [apply wf_build|]. split; [reflexivity|].
    intros idx Hv. rewrite get_build by exact Hv. cbv zeta.
    destruct (selects n ref_slice (nth ax idx 0)) eqn:Hsel; [|reflexivity].
    specialize (Hidx _ Hv Hsel).
    rewrite (bcast_index_valid Hidx), get_getitem_axis by exact Hidx.
    fold n. rewrite upd_upd, nth_upd_same; [reflexivity|].
    rewrite (valid_index_length Hv). exact Hax.
  - unfold iadd_axis. rewrite Hs. fold n. fold len.
    change (shape (scalar_mul_l w (getitem_axis y ax s)))
      with (upd (shape y) ax (slice_len n s)).
    rewrite Hfit. eexists; split; [reflexivity|].
    split; [apply wf_build|]. split; [reflexivity|].
    intros idx Hv. rewrite get_build by exact Hv. cbv zeta.
    destruct (selects n ref_slice (nth ax idx 0)) eqn:Hsel; [|reflexivity].
    specialize (Hidx _ Hv Hsel).
    rewrite (bcast_index_valid Hidx).
    rewrite get_scalar_mul_l by (try apply wf_build; exact Hidx).
    rewrite get_getitem_axis by exact Hidx.
    fold n. rewrite upd_upd, nth_upd_same; [reflexivity|].
    rewrite (valid_index_length Hv). exact Hax.
Qed.

Lemma norm_index_lt (n : nat) (k : Z) (j : nat) :
  norm_index n k = Ok j -> j < n.
Proof.
  unfold norm_index.
  destruct (Z.ltb_spec k (- Z.of_nat n)); simpl; [discriminate|].
  destruct (Z.leb_spec (Z.of_nat n) k); simpl; [discriminate|].
  intros E; injection E as <-. destruct (Z.ltb_spec k 0); lia.
Qed.

Lemma norm_index_nonneg (n : nat) (k : nat) :
  k < n -> norm_index n (Z.of_nat k) = Ok k.
Proof.
  intros H. unfold norm_index.
  destruct (Z.ltb_spec (Z.of_nat k) (- Z.of_nat n)); [lia|].
  destruct (Z.leb_spec (Z.of_nat n) (Z.of_nat k)); [lia|]. simpl.
  destruct (Z.ltb_spec (Z.of_nat k) 0); [lia|]. now rewrite Nat2Z.id.
Qed.

Lemma combine_map_r {A B C : Type} (f : B -> C) (xs : list A) :
  forall ys, combine xs (map f ys) = map (fun p => (fst p, f (snd p))) (combine xs ys).
Proof.
  induction xs as [|x xs IH]; intros [|y ys]; simpl; auto.
  now rewrite IH.
Qed.

Lemma Forall_combine_r {A B : Type} (P : B -> Prop) (xs : list A) (ys : list B) :
  Forall P ys -> Forall (fun p => P (snd p)) (combine xs ys).
Proof.
  intros H. apply Forall_forall. intros [x y] Hin. simpl.
  apply in_combine_r in Hin. revert y Hin. now apply Forall_forall.
Qed.

(** The loop of [_apply_to_array] over windows shifted within bounds: the
    reference range receives, element by element, the sum of the record. *)
Lemma apply_to_array_loop_spec (y : ndarray R) (ax : nat) (s0 e0 : Z)
  (pairs : list (R * Z)) :
  wf y -> ax < ndim y ->
  (0 <= s0 <= e0)%Z -> (e0 <= Z.of_nat (nth ax (shape y) 0%nat))%Z ->
  Forall (fun p => window_in_bounds (mk_slice s0 e0)
                     (Z.of_nat (nth ax (shape y) 0)) (snd p)) pairs ->
  forall yd, wf yd -> shape yd = shape y ->
  exists yd',
    _apply_to_array_loop yd y ax (mk_slice s0 e0)
      (map (fun p => (fst p, mk_slice (s0 + snd p) (e0 + snd p))) pairs) = Ok yd'
    /\ wf yd' /\ shape yd' = shape y
    /\ forall idx, valid_index (shape y) idx ->
         get yd' idx =
         if in_range s0 e0 (nth ax idx 0)
         then fold_left
                (fun acc wo =>
                   radd acc (weighted_unless_one (fst wo) (shifted y ax idx (snd wo))))
                pairs (get yd idx)
         else get yd idx.
Proof.
  intros Hy Hax Hse Hen HF.
  induction HF as [|[w o] pairs [Ho1 Ho2] _ IH]; intros yd Hyd Hs.
  - exists yd. simpl. repeat split; auto.
    intros idx _. now destruct (in_range s0 e0 (nth ax idx 0)).
  - simpl in Ho1, Ho2. cbn [map fst snd _apply_to_array_loop].
    destruct (@apply_pair_spec yd y ax (mk_slice s0 e0)
                (mk_slice (s0 + o) (e0 + o)) w Hy Hyd Hs Hax)
      as (yd1 & E1 & Hwf1 & Hs1 & Hget1).
    { rewrite !slice_len_plain by lia. f_equal. lia. }
    rewrite E1. cbn [bind].
    destruct (IH yd1 Hwf1 Hs1) as (yd' & E & Hwf & Hs' & Hget).
    exists yd'. repeat split; auto.
    intros idx Hv. rewrite (Hget idx Hv), (Hget1 idx Hv).
    rewrite selects_plain by lia.
    destruct (in_range s0 e0 (nth ax idx 0)) eqn:Hin; [|reflexivity].
    cbn [fold_left fst snd]. f_equal. f_equal. f_equal.
    unfold shifted. f_equal. f_equal.
    rewrite !slice_lo_plain by lia.
    unfold in_range in Hin. apply andb_prop in Hin as [H1 H2].
    apply Z.leb_le in H1. apply Z.ltb_lt in H2. lia.
Qed.

(** One scheme of [_diff] on a reference range [s0, e0) inside the axis. *)
Lemma apply_scheme_spec (y yd : ndarray R) (st : stencil R) (s0 e0 : Z)
  (dim : Z) (ax : nat) :
  wf y -> norm_axis (ndim y) dim = Ok ax ->
  (0 <= s0 <= e0)%Z -> (e0 <= Z.of_nat (nth ax (shape y) 0%nat))%Z ->
  Forall (window_in_bounds (mk_slice s0 e0) (Z.of_nat (nth ax (shape y) 0)))
         (st_offsets st) ->
  wf yd -> shape yd = shape y ->
  exists yd',
    apply_scheme yd y st (mk_slice s0 e0) (Z.of_nat (nth ax (shape y) 0)) dim = Ok yd'
    /\ wf yd' /\ shape yd' = shape y
    /\ forall idx, valid_index (shape y) idx ->
         get yd' idx =
         if in_range s0 e0 (nth ax idx 0)
         then stencil_sum weighted_unless_one y ax st idx (get yd idx)
         else get yd idx.
Proof.
  intros Hy Hax Hse Hen HF Hyd Hs.
  unfold apply_scheme. rewrite (mapM_shift_ok HF). cbn [bind].
  unfold _apply_to_array. rewrite Hax. cbn [bind start stop].
  rewrite combine_map_r.
  apply apply_to_array_loop_spec; auto.
  - now apply norm_index_lt in Hax.
  - now apply Forall_combine_r.
Qed.

End EngineFacts.

(** * The uniform stencil algorithm *)

Section Uniform.
Context {R : Type} {SR : Scalar R}.

(** C1 (as amended): on a uniform grid, when [dim] names the axis [ax] of
    the field, [2 * b <= npts] and every shifted window stays within
    [0, npts), [_diff] returns exactly the array described by the
    specification: an accumulator that starts at zero, to which the center
    record is added over [b, npts - b), the forward record over [0, b)
    and the backward record over [npts - b, npts), scaled by [1 / h^m];
    a pair contributes weight times the shifted sample, except that a
    weight within [1e-14] of one contributes the sample itself. *)
Theorem diff_uniform_spec (y : ndarray R) (h : R) (m dim : Z) (ax : nat)
  (coefs : scheme_table R) :
  wf y ->
  norm_axis (ndim y) dim = Ok ax ->
  2 * half_width coefs <= nth ax (shape y) 0 ->
  windows_in_bounds (nth ax (shape y) 0) coefs ->
  _diff y h m dim coefs = Ok (diff_spec weighted_unless_one y h m ax coefs).
Proof.
  intros Hy Hax Hb (Hc & Hf & Hbk).
  unfold _diff. rewrite Hax. cbn [bind]. cbv zeta.
  fold (half_width coefs).
  set (n := nth ax (shape y) 0) in *.
  set (b := half_width coefs) in *.
  unfold ref_center, ref_forward, ref_backward in *.
  destruct (@apply_scheme_spec _ _ y (zeros_like y) (center coefs)
              (Z.of_nat b) (Z.of_nat n - Z.of_nat b) dim ax Hy Hax)
    as (yd1 & E1 & Hwf1 & Hs1 & Hg1);
    [lia | fold n; lia | exact Hc | now apply wf_zeros_like | reflexivity |].
  fold n in E1. rewrite E1. cbn [bind].
  destruct (@apply_scheme_spec _ _ y yd1 (forward coefs)
              0%Z (Z.of_nat b) dim ax Hy Hax)
    as (yd2 & E2 & Hwf2 & Hs2 & Hg2);
    [lia | fold n; lia | exact Hf | exact Hwf1 | exact Hs1 |].
  fold n in E2. rewrite E2. cbn [bind].
  destruct (@apply_scheme_spec _ _ y yd2 (backward coefs)
              (Z.of_nat n - Z.of_nat b) (Z.of_nat n) dim ax Hy Hax)
    as (yd3 & E3 & Hwf3 & Hs3 & Hg3);
    [lia | fold n; lia | exact Hbk | exact Hwf2 | exact Hs2 |].
  fold n in E3. rewrite E3. cbn [bind].
  f_equal. apply array_ext.
  - now apply wf_scalar_mul_r.
  - apply wf_build.
  - exact Hs3.
  - intros idx Hv. cbn [scalar_mul_r shape] in Hv. rewrite Hs3 in Hv.
    rewrite get_scalar_mul_r by (try rewrite Hs3; assumption).
    unfold diff_spec. rewrite get_build by exact Hv. cbv zeta.
    fold n. fold b. unfold interior, leading, trailing.
    rewrite (Hg3 idx Hv), (Hg2 idx Hv), (Hg1 idx Hv).
    now rewrite get_zeros_like.
Qed.

End Uniform.

(** [diff_uniform_spec] at a field of five samples with the three-point
    schemes of first order. *)
Lemma diff_uniform_spec_witness :
  wf ex_field5 /\
  norm_axis (ndim ex_field5) 0 = Ok 0 /\
  2 * half_width ex_coefs3 <= nth 0 (shape ex_field5) 0 /\
  windows_in_bounds (nth 0 (shape ex_field5) 0) ex_coefs3 /\
  _diff ex_field5 1%float 1 0 ex_coefs3
  = Ok (diff_spec weighted_unless_one ex_field5 1%float 1 0 ex_coefs3).
Proof.
  assert (Hw : wf ex_field5) by reflexivity.
  assert (Ha : norm_axis (ndim ex_field5) 0 = Ok 0) by reflexivity.
  assert (Hb : 2 * half_width ex_coefs3 <= nth 0 (shape ex_field5) 0)
    by (vm_compute; lia).
  assert (Hi : windows_in_bounds (nth 0 (shape ex_field5) 0) ex_coefs3).
  { unfold windows_in_bounds, window_in_bounds; cbn.
    repeat split; repeat constructor; cbn; lia. }
  split; [exact Hw|]. split; [exact Ha|]. split; [exact Hb|].
  split; [exact Hi|].
  exact (@diff_uniform_spec float float_scalar ex_field5 1%float 1%Z 0%Z 0
           ex_coefs3 Hw Ha Hb Hi).
Defined.

(** C1 (as stated) fails: for a constant field and a weight one unit in
    the last place above 1, [_diff] adds the sample itself and returns an
    exact zero at the boundary, where "weight times the sample" gives
    [2^-50]. *)
Lemma diff_weight_times_sample_counterexample :
  _diff ex_const3 1%float 1 0 ex_coefs_near_one
  <> Ok (diff_spec weighted ex_const3 1%float 1 0%nat ex_coefs_near_one).
Proof.
  intros H.
  apply (f_equal (fun r => match r with
                           | Ok a => PrimFloat.eqb (nth 0 (data a) 1%float) 0%float
                           | Raise _ => false
                           end)) in H.
  vm_compute in H. discriminate H.
Qed.

(** * The three regions of the uniform stencil algorithm *)

(** C8 (as amended): for every axis extent [npts] and half-width [b] with
    [2 * b <= npts], the leading, interior and trailing region that the
    reference slices of [_diff] select are pairwise disjoint and cover
    exactly [0, npts): every index is written by exactly one scheme. *)
Theorem regions_partition_when_fits (npts b : nat) :
  2 * b <= npts -> regions_partition npts b.
Proof.
  intros Hb i.
  unfold writes_leading, writes_interior, writes_trailing,
         ref_forward, ref_center, ref_backward.
  rewrite !selects_plain by lia.
  unfold in_range.
  destruct (Z.leb_spec 0 (Z.of_nat i));
  destruct (Z.ltb_spec (Z.of_nat i) (Z.of_nat b));
  destruct (Z.leb_spec (Z.of_nat b) (Z.of_nat i));
  destruct (Z.ltb_spec (Z.of_nat i) (Z.of_nat npts - Z.of_nat b));
  destruct (Z.leb_spec (Z.of_nat npts - Z.of_nat b) (Z.of_nat i));
  destruct (Z.ltb_spec (Z.of_nat i) (Z.of_nat npts));
  cbn [andb]; split; intros Hi; try lia; auto 6.
Qed.

(** [regions_partition_when_fits] at an axis of five points and the
    half-width 1 of a three-point center scheme. *)
Lemma regions_partition_when_fits_witness :
  2 * 1 <= 5 /\ regions_partition 5 1.
Proof.
  assert (H : 2 * 1 <= 5) by lia.
  split; [exact H | exact (@regions_partition_when_fits 5 1 H)].
Defined.

(** C8 (as stated) fails: on an axis of three points with half-width 2 the
    index 1 is selected both by the forward and by the backward reference
    slice. *)
Lemma regions_overlap_counterexample : ~ regions_partition 3 2.
Proof.
  intros H. destruct (H 1) as [H1 _].
  assert (Hlt : 1 < 3) by lia.
  destruct (H1 Hlt) as [(_ & _ & E) | [(E & _) | (E & _)]];
    vm_compute in E; discriminate E.
Qed.

(** On a non-empty axis that is shorter than [2 * b], the forward slice
    [0:b] and the backward slice [npts-b:npts] have an index in common:
    [npts - b] when [b < npts], and the last index when [npts <= b], where
    the start [npts - b] is not positive and numpy counts it from the end
    of the axis or clips it to 0. *)
Lemma forward_backward_overlap (npts b : nat) :
  0 < npts -> npts < 2 * b ->
  exists i, i < npts /\
    writes_leading npts b i = true /\ writes_trailing npts b i = true.
Proof.
  intros Hn Hgt.
  destruct (Nat.le_gt_cases npts b) as [Hbig|Hsmall].
  - exists (npts - 1). split; [lia|].
    unfold writes_leading, writes_trailing, selects, slice_lo, slice_len,
           ref_forward, ref_backward, clip; cbn [start stop].
    change (0 <? 0)%Z with false. cbv iota.
    destruct (Z.ltb_spec (Z.of_nat b) 0); [lia|].
    destruct (Z.ltb_spec (Z.of_nat npts) 0); [lia|].
    destruct (Z.ltb_spec (Z.of_nat npts - Z.of_nat b) 0);
      (split; apply andb_true_intro; split;
       [apply Nat.leb_le | apply Nat.ltb_lt | apply Nat.leb_le | apply Nat.ltb_lt];
       lia).
  - exists (npts - b). split; [lia|].
    unfold writes_leading, writes_trailing, ref_forward, ref_backward.
    rewrite !selects_plain by lia. unfold in_range.
    split; apply andb_true_intro; split;
      try apply Z.leb_le; try apply Z.ltb_lt; lia.
Qed.

(** On a non-empty axis the condition [2 * b <= npts] is also necessary. *)
Lemma regions_partition_only_if (npts b : nat) :
  0 < npts -> regions_partition npts b -> 2 * b <= npts.
Proof.
  intros Hn H.
  destruct (Nat.le_gt_cases (2 * b) npts) as [Hle|Hgt]; [exact Hle|exfalso].
  destruct (@forward_backward_overlap npts b Hn Hgt) as (i & Hi & Hl & Ht).
  destruct (H i) as [H1 _].
  destruct (H1 Hi) as [(_ & _ & E) | [(E & _) | (E & _)]]; congruence.
Qed.

(** When [2 * b <= npts] the indices the three reference slices select
    are those of the intervals [0, b), [b, npts - b) and [npts - b, npts)
    the specification names. *)
Lemma writes_are_intervals (npts b i : nat) :
  2 * b <= npts ->
  writes_leading npts b i = leading npts b i /\
  writes_interior npts b i = interior npts b i /\
  writes_trailing npts b i = trailing npts b i.
Proof.
  intros Hb.
  unfold writes_leading, writes_interior, writes_trailing, leading, interior,
         trailing, ref_forward, ref_center, ref_backward.
  now rewrite !selects_plain by lia.
Qed.

(** * Bounds errors of the uniform stencil algorithm *)

Section UniformErrors.
Context {R : Type} {SR : Scalar R}.

Lemma window_in_bounds_dec (sl : slice) (n off : Z) :
  {window_in_bounds sl n off} + {~ window_in_bounds sl n off}.
Proof.
  unfold window_in_bounds.
  destruct (Z_le_dec 0 (start sl + off)), (Z_le_dec (stop sl + off) n);
    (left; lia) || (right; lia).
Defined.

Lemma apply_scheme_raises (yd y : ndarray R) (st : stencil R) (sl : slice)
  (n dim : Z) :
  ~ Forall (window_in_bounds sl n) (st_offsets st) ->
  apply_scheme yd y st sl n dim = Raise IndexError.
Proof.
  intros H. unfold apply_scheme. now rewrite (mapM_shift_raises H).
Qed.

(** X17: when [2 * b <= npts], a shifted window of any scheme that leaves
    [0, npts) makes [_diff] raise IndexError: no array is returned. *)
Lemma diff_out_of_bounds (y : ndarray R) (h : R) (m dim : Z) (ax : nat)
  (coefs : scheme_table R) :
  wf y ->
  norm_axis (ndim y) dim = Ok ax ->
  2 * half_width coefs <= nth ax (shape y) 0 ->
  ~ windows_in_bounds (nth ax (shape y) 0) coefs ->
  _diff y h m dim coefs = Raise IndexError.
Proof.
  intros Hy Hax Hb Hno.
  unfold _diff. rewrite Hax. cbn [bind]. cbv zeta.
  fold (half_width coefs).
  unfold windows_in_bounds in Hno. cbv zeta in Hno.
  set (n := nth ax (shape y) 0) in *.
  set (b := half_width coefs) in *.
  destruct (Forall_dec _ (window_in_bounds_dec (ref_center (Z.of_nat n) (Z.of_nat b))
                            (Z.of_nat n)) (st_offsets (center coefs))) as [Hc|Hc];
    [|now rewrite (apply_scheme_raises _ _ _ _ Hc)].
  unfold ref_center, ref_forward, ref_backward in *.
  destruct (@apply_scheme_spec _ _ y (zeros_like y) (center coefs)
              (Z.of_nat b) (Z.of_nat n - Z.of_nat b) dim ax Hy Hax)
    as (yd1 & E1 & Hwf1 & Hs1 & _);
    [lia | fold n; lia | exact Hc | now apply wf_zeros_like | reflexivity |].
  fold n in E1. rewrite E1. cbn [bind].
  destruct (Forall_dec _ (window_in_bounds_dec (mk_slice 0 (Z.of_nat b))
                            (Z.of_nat n)) (st_offsets (forward coefs))) as [Hf|Hf];
    [|now rewrite (apply_scheme_raises _ _ _ _ Hf)].
  destruct (@apply_scheme_spec _ _ y yd1 (forward coefs)
              0%Z (Z.of_nat b) dim ax Hy Hax)
    as (yd2 & E2 & Hwf2 & Hs2 & _);
    [lia | fold n; lia | exact Hf | exact Hwf1 | exact Hs1 |].
  fold n in E2. rewrite E2. cbn [bind].
  rewrite apply_scheme_raises; [reflexivity|].
  intros Hbk. apply Hno. auto.
Qed.

(** X18, the defect behind C6 in general: on an axis with [b < npts < 2 * b]
    the interior reference slice is inverted and selects nothing; a center
    offset [o] with [npts - b + o < 0 <= b + o] shifts it to a slice whose
    stop is negative.  [_shift_slice] lets that slice pass, numpy counts
    its stop from the end, the slice selects [2 * (npts - b)] samples, and
    adding them into the empty interior raises ValueError. *)
Lemma diff_wrapped_window_value_error (y : ndarray R) (h : R) (m dim : Z)
  (ax : nat) (coefs : scheme_table R) (w : R) (ws : list R) (o : Z) (os : list Z) :
  wf y ->
  norm_axis (ndim y) dim = Ok ax ->
  st_coefficients (center coefs) = w :: ws ->
  st_offsets (center coefs) = o :: os ->
  half_width coefs < nth ax (shape y) 0 ->
  (0 <= Z.of_nat (half_width coefs) + o)%Z ->
  (Z.of_nat (nth ax (shape y) 0%nat) - Z.of_nat (half_width coefs) + o < 0)%Z ->
  Forall (window_in_bounds
            (ref_center (Z.of_nat (nth ax (shape y) 0%nat))
                        (Z.of_nat (half_width coefs)))
            (Z.of_nat (nth ax (shape y) 0%nat))) os ->
  _diff y h m dim coefs = Raise ValueError.
Proof.
  intros Hy Hax Hws Hos Hb Ho1 Ho2 Hrest.
  unfold _diff. rewrite Hax. cbn [bind]. cbv zeta.
  fold (half_width coefs).
  set (n := nth ax (shape y) 0) in *.
  set (b := half_width coefs) in *.
  assert (Hc : Forall (window_in_bounds (ref_center (Z.of_nat n) (Z.of_nat b))
                         (Z.of_nat n)) (st_offsets (center coefs))).
  { rewrite Hos. constructor; [|exact Hrest].
    unfold window_in_bounds, ref_center; cbn [start stop]. lia. }
  unfold apply_scheme at 1. rewrite (mapM_shift_ok Hc). cbn [bind].
  unfold _apply_to_array. rewrite Hax. cbn [bind].
  rewrite Hws, Hos. cbn [map combine _apply_to_array_loop].
  assert (Hax' : ax < ndim y) by now apply norm_index_lt in Hax.
  assert (Hlen_ref : slice_len n (ref_center (Z.of_nat n) (Z.of_nat b)) = 0).
  { unfold slice_len, ref_center, clip; cbn [start stop].
    destruct (Z.ltb_spec (Z.of_nat n - Z.of_nat b) 0),
             (Z.ltb_spec (Z.of_nat b) 0); lia. }
  assert (Hlen_off :
    slice_len n (mk_slice (start (ref_center (Z.of_nat n) (Z.of_nat b)) + o)
                          (stop (ref_center (Z.of_nat n) (Z.of_nat b)) + o))
    = 2 * (n - b)).
  { unfold slice_len, ref_center, clip; cbn [start stop].
    destruct (Z.ltb_spec (Z.of_nat n - Z.of_nat b + o) 0),
             (Z.ltb_spec (Z.of_nat b + o) 0); lia. }
  assert (Hno : forall rhs : ndarray R,
            shape rhs = upd (shape y) ax (2 * (n - b)) ->
            iadd_axis (zeros_like y) ax (ref_center (Z.of_nat n) (Z.of_nat b)) rhs
            = Raise ValueError).
  { intros rhs Hs. unfold iadd_axis. cbn [zeros_like shape]. fold n.
    rewrite Hlen_ref, Hs, broadcastable_to_upd by exact Hax'.
    unfold dim_fits.
    destruct (Nat.eqb_spec (2 * (n - b)) 0); [lia|].
    destruct (Nat.eqb_spec (2 * (n - b)) 1); [lia|]. reflexivity. }
  destruct (near_one w); rewrite Hno; try reflexivity;
    cbn [scalar_mul_l getitem_axis build shape]; fold n; now rewrite Hlen_off.
Qed.

End UniformErrors.

(** C6: [_diff] on a field of five samples with the seven-point schemes.
    The forward window [0, 3) shifted by 6 leaves [0, 5), yet the call
    ends with ValueError and not with IndexError: the inverted interior
    range [3, 2) shifted by -3 is [slice(0, -1)], which passes
    [_shift_slice] and selects four samples, and adding them into the empty
    interior fails to broadcast before the forward scheme is reached. *)
Theorem diff_small_grid_value_error :
  ~ windows_in_bounds 5 ex_coefs7 /\
  _shift_slice (ref_center 5 3) (-3) 5 = Ok (mk_slice 0 (-1)) /\
  slice_len 5 (ref_center 5 3) = 0 /\
  slice_len 5 (mk_slice 0 (-1)) = 4 /\
  _diff ex_field5 1%float 1 0 ex_coefs7 = Raise ValueError /\
  @apply float float_scalar ex_provider7 (PartialDerivative [(0, 1)%Z]) ex_grid
    ex_field5 = Raise ValueError.
Proof.
  split.
  - intros (_ & Hf & _). cbn in Hf.
    assert (H6 : window_in_bounds (ref_forward 5 3) 5 6).
    { revert Hf. rewrite Forall_forall. intros Hf. apply Hf. simpl. tauto. }
    unfold window_in_bounds in H6; cbn in H6. lia.
  - repeat split; vm_compute; reflexivity.
Qed.

(** * Construction of a [PartialDerivative] *)

Lemma has_key_false (derivs : list (Z * Z)) (k : Z) :
  has_key derivs k = false <-> ~ In k (map fst derivs).
Proof.
  unfold has_key. induction derivs as [|[a o] derivs IH]; simpl.
  - tauto.
  - destruct (Z.eqb_spec a k); simpl.
    + split; [discriminate | intros H; exfalso; apply H; auto].
    + rewrite IH. tauto.
Qed.

Lemma assert_tuple_valid_ok (p : Z * Z) :
  valid_pair p -> _assert_tuple_valid (pair_items p) = Ok tt.
Proof.
  destruct p as [a o]; intros [Ha Ho]; simpl in *.
  unfold _assert_tuple_valid; simpl.
  destruct (Z.ltb_spec a 0); [lia|].
  destruct (Z.leb_spec o 0); [lia|]. reflexivity.
Qed.

Lemma assert_tuple_valid_inv (t : list pyobj) (u : unit) :
  _assert_tuple_valid t = Ok u -> exists p, t = pair_items p /\ valid_pair p.
Proof.
  unfold _assert_tuple_valid.
  destruct t as [|[a| |?] [|[o| |?] [|? ?]]]; simpl; try discriminate;
    try (destruct (a <? 0)%Z; discriminate).
  destruct (Z.ltb_spec a 0); [discriminate|].
  destruct (Z.leb_spec o 0); [discriminate|].
  intros _. exists (a, o). split; [reflexivity | split; simpl; lia].
Qed.

(** [_assert_tuple_valid] never raises anything but ValueError. *)
Lemma assert_tuple_valid_error (t : list pyobj) (e : exn) :
  _assert_tuple_valid t = Raise e -> e = ValueError.
Proof.
  unfold _assert_tuple_valid.
  destruct t as [|[a| |?] [|[o| |?] [|? ?]]]; simpl; try congruence;
    try (destruct (a <? 0)%Z; congruence).
  destruct (a <? 0)%Z; [congruence|].
  destruct (o <=? 0)%Z; congruence.
Qed.

Lemma mapM_assert_ok (ps : list (Z * Z)) :
  Forall valid_pair ps ->
  exists us, mapM _assert_tuple_valid (map pair_items ps) = Ok us.
Proof.
  induction 1 as [|p ps Hp _ [us IH]]; simpl.
  - now exists [].
  - rewrite (assert_tuple_valid_ok Hp), IH. simpl. now exists (tt :: us).
Qed.

Lemma mapM_assert_inv (ts : list (list pyobj)) :
  forall us, mapM _assert_tuple_valid ts = Ok us ->
  exists ps, ts = map pair_items ps /\ Forall valid_pair ps.
Proof.
  induction ts as [|t ts IH]; simpl; intros us H.
  - exists []. split; [reflexivity | constructor].
  - apply bind_ok in H as (u & Ht & H).
    apply bind_ok in H as (us' & Hts & _).
    destruct (assert_tuple_valid_inv _ Ht) as (p & -> & Hp).
    destruct (IH _ Hts) as (ps & -> & Hps).
    exists (p :: ps). split; [reflexivity | now constructor].
Qed.

Lemma mapM_assert_error (ts : list (list pyobj)) (e : exn) :
  mapM _assert_tuple_valid ts = Raise e -> e = ValueError.
Proof.
  induction ts as [|t ts IH]; simpl; [discriminate|].
  destruct (_assert_tuple_valid t) eqn:Ht; simpl.
  - destruct (mapM _assert_tuple_valid ts); simpl; [discriminate|].
    intros H; injection H as <-. now apply IH.
  - intros H; injection H as <-. now apply assert_tuple_valid_error in Ht.
Qed.

(** Filling the dictionary keeps the pairs in the order they were given;
    it succeeds exactly when no axis repeats. *)
Lemma fill_derivs_ok (ps : list (Z * Z)) :
  forall acc, NoDup (map fst (acc ++ ps)) ->
  fill_derivs acc (map pair_items ps) = Ok (acc ++ ps).
Proof.
  induction ps as [|[a o] ps IH]; intros acc H; simpl.
  - now rewrite app_nil_r.
  - assert (Hk : has_key acc a = false).
    { apply has_key_false. rewrite map_app in H. simpl in H.
      apply NoDup_remove_2 in H. intros Hin. apply H, in_or_app. now left. }
    rewrite Hk. rewrite (IH (acc ++ [(a, o)])).
    + now rewrite <- app_assoc.
    + now rewrite <- app_assoc.
Qed.

Lemma fill_derivs_inv (ps : list (Z * Z)) :
  forall acc d, NoDup (map fst acc) ->
  fill_derivs acc (map pair_items ps) = Ok d ->
  d = acc ++ ps /\ NoDup (map fst (acc ++ ps)).
Proof.
  induction ps as [|[a o] ps IH]; intros acc d Hacc; simpl.
  - intros H; injection H as <-. now rewrite app_nil_r.
  - destruct (has_key acc a) eqn:Hk; [discriminate|].
    apply has_key_false in Hk. intros H.
    apply IH in H.
    + now rewrite <- app_assoc in H.
    + rewrite map_app. simpl. apply NoDup_app_remove_l with (l := []).
      simpl. clear - Hacc Hk.
      induction acc as [|x acc IHa]; simpl in *.
      * constructor; [tauto | constructor].
      * inversion Hacc; subst. constructor.
        -- rewrite in_app_iff. simpl. intuition congruence.
        -- apply IHa; tauto.
Qed.

Lemma fill_derivs_error (ts : list (list pyobj)) :
  forall acc e, fill_derivs acc ts = Raise e -> e = ValueError.
Proof.
  induction ts as [|t ts IH]; intros acc e; simpl; [discriminate|].
  destruct t as [|[a| |?] [|[o| |?] [|? ?]]]; try congruence.
  destruct (has_key acc a); [congruence | apply IH].
Qed.

Lemma tuples_of_items (args : list pyobj) :
  forall ps, forallb is_tuple args = true ->
  map tuple_items args = map pair_items ps ->
  args = map to_tuple ps.
Proof.
  induction args as [|x args IH]; intros [|p ps]; simpl; try discriminate; auto.
  intros Ht E. apply andb_prop in Ht as [Hx Ht].
  injection E as Ex E. destruct x; try discriminate. simpl in Ex. subst.
  unfold to_tuple at 1. f_equal. now apply IH.
Qed.

Lemma forallb_is_tuple_map (ps : list (Z * Z)) :
  forallb is_tuple (map to_tuple ps) = true.
Proof. induction ps; simpl; auto. Qed.

Lemma tuple_items_map (ps : list (Z * Z)) :
  map tuple_items (map to_tuple ps) = map pair_items ps.
Proof. induction ps; simpl; congruence. Qed.

Section Construction.
Context {R : Type}.

(** Every argument list the specification accepts constructs, and the
    dictionary holds its pairs in the order they were written. *)
Lemma init_valid (args : list pyobj) (ps : list (Z * Z)) :
  valid_args args ps ->
  @PartialDerivative_init R args = Ok (PartialDerivative ps).
Proof.
  intros [ps' Hv Hnd | a o Hv]; unfold PartialDerivative_init,
    _convert_to_valid_tuple_list.
  - rewrite forallb_is_tuple_map, tuple_items_map. cbn [bind].
    destruct (mapM_assert_ok Hv) as [us ->]. cbn [bind].
    now rewrite (@fill_derivs_ok ps' []).
  - cbn. destruct (mapM_assert_ok (Forall_cons _ Hv (Forall_nil _))) as [us E].
    cbn in E. destruct Hv as [Ha Ho]; simpl in *.
    unfold _assert_tuple_valid; cbn.
    destruct (Z.ltb_spec a 0); [lia|].
    destruct (Z.leb_spec o 0); [lia|]. reflexivity.
Qed.

(** Conversely, whatever constructs is an argument list the specification
    accepts. *)
Lemma init_ok_inv (args : list pyobj) (op : operator R) :
  PartialDerivative_init args = Ok op ->
  exists ps, valid_args args ps /\ op = PartialDerivative ps.
Proof.
  unfold PartialDerivative_init, _convert_to_valid_tuple_list. intros H.
  apply bind_ok in H as (tuples & H & Hfill).
  apply bind_ok in H as (all_tuples & Hall & H).
  apply bind_ok in H as (us & Hval & H). injection H as <-.
  apply bind_ok in Hfill as (derivs & Hfill & H). injection H as <-.
  destruct (mapM_assert_inv _ Hval) as (ps & -> & Hps).
  apply fill_derivs_inv in Hfill as [-> Hnd]; [|constructor].
  simpl in *. exists ps. split; [|reflexivity].
  destruct (forallb is_tuple args) eqn:Ht.
  - injection Hall as Hall.
    rewrite (tuples_of_items _ _ Ht Hall). now constructor.
  - destruct args as [|a0 [|a1 [|a2 rest]]]; cbn in Hall; try discriminate.
    injection Hall as Hall.
    destruct ps as [|[a o] [|? ?]]; try discriminate.
    cbn in Hall. injection Hall as -> ->.
    constructor. now inversion Hps.
Qed.

(** The constructor raises IndexError exactly for a single positional
    value that is not a tuple: [args[1]] does not exist. *)
Lemma init_index_error (args : list pyobj) :
  @PartialDerivative_init R args = Raise IndexError <->
  exists x, args = [x] /\ is_tuple x = false.
Proof.
  unfold PartialDerivative_init, _convert_to_valid_tuple_list. split.
  - destruct (forallb is_tuple args) eqn:Ht; cbn [bind].
    + destruct (mapM _assert_tuple_valid (map tuple_items args)) eqn:Hv; cbn [bind].
      * destruct (fill_derivs [] (map tuple_items args)) eqn:Hf; cbn [bind];
          [discriminate|].
        apply fill_derivs_error in Hf. congruence.
      * apply mapM_assert_error in Hv. congruence.
    + destruct (2 <? length args) eqn:Hl; cbn [bind]; [discriminate|].
      destruct args as [|a0 [|a1 rest]]; cbn in Ht; try discriminate.
      * intros _. exists a0. split; [reflexivity|].
        now rewrite andb_true_r in Ht.
      * cbn [list_get nth_error bind].
        destruct (mapM _assert_tuple_valid [[a0; a1]]) eqn:Hv; cbn [bind].
        -- destruct (fill_derivs [] [[a0; a1]]) eqn:Hf; cbn [bind];
             [discriminate|].
           apply fill_derivs_error in Hf. congruence.
        -- apply mapM_assert_error in Hv. congruence.
  - intros (x & -> & Hx). cbn. rewrite Hx. reflexivity.
Qed.

(** X19: the constructor raises ValueError exactly for the argument lists
    the specification rejects, the single positional value apart. *)
Lemma init_value_error_iff (args : list pyobj) :
  @PartialDerivative_init R args = Raise ValueError <->
  (~ exists ps, valid_args args ps) /\
  (~ exists x, args = [x] /\ is_tuple x = false).
Proof.
  split.
  - intros H. split.
    + intros [ps Hv]. rewrite (init_valid Hv) in H. discriminate.
    + intros Hx. apply init_index_error in Hx. congruence.
  - intros [Hnv Hnx].
    destruct (@PartialDerivative_init R args) as [op|[|]] eqn:E.
    + exfalso. apply Hnv. destruct (init_ok_inv _ E) as (ps & Hv & _).
      now exists ps.
    + exfalso. apply Hnx. now apply init_index_error.
    + reflexivity.
Qed.

End Construction.

(** C5: the single positional value [PartialDerivative(0)] is not an
    argument list the specification accepts, and the constructor fails on
    it with IndexError, raised by [args[1]], where the specification
    requires ConfigurationError (the ValueError of every other rejected
    argument list). *)
Theorem init_single_value_index_error :
  (~ exists ps, valid_args [PyInt 0] ps) /\
  @PartialDerivative_init float [PyInt 0] = Raise IndexError.
Proof.
  split; [|reflexivity].
  intros [ps H]. inversion H as [ps' _ _ E|].
  destruct ps' as [|? [|? ?]]; discriminate E.
Qed.

(** * Shapes are preserved *)

Section Shapes.
Context {R : Type} {SR : Scalar R}.

Lemma iadd_axis_shape (yd rhs yd' : ndarray R) (ax : nat) (sl : slice) :
  iadd_axis yd ax sl rhs = Ok yd' -> wf yd' /\ shape yd' = shape yd.
Proof.
  unfold iadd_axis. destruct (broadcastable_to _ _); [|discriminate].
  intros H; injection H as <-. split; [apply wf_build | reflexivity].
Qed.

Lemma apply_to_array_loop_shape (y : ndarray R) (ax : nat) (ref_slice : slice)
  (pairs : list (R * slice)) :
  forall yd yd', wf yd ->
  _apply_to_array_loop yd y ax ref_slice pairs = Ok yd' ->
  wf yd' /\ shape yd' = shape yd.
Proof.
  induction pairs as [|[w s] pairs IH]; intros yd yd' Hwf; simpl.
  - intros H; injection H as <-. auto.
  - intros H. apply bind_ok in H as (yd1 & H1 & H).
    assert (H1' : wf yd1 /\ shape yd1 = shape yd)
      by (destruct (near_one w); eapply iadd_axis_shape; eassumption).
    destruct H1' as [Hwf1 Hs1].
    destruct (IH _ _ Hwf1 H) as [Hwf' Hs']. split; congruence.
Qed.

Lemma apply_scheme_shape (yd y yd' : ndarray R) (st : stencil R) (sl : slice)
  (n dim : Z) :
  wf yd -> apply_scheme yd y st sl n dim = Ok yd' ->
  wf yd' /\ shape yd' = shape yd.
Proof.
  unfold apply_scheme, _apply_to_array. intros Hwf H.
  apply bind_ok in H as (offs & _ & H).
  apply bind_ok in H as (ax & _ & H).
  eapply apply_to_array_loop_shape; eassumption.
Qed.

(** Whatever [_diff] returns has the shape of its input. *)
Lemma diff_shape (y r : ndarray R) (h : R) (m dim : Z) (coefs : scheme_table R) :
  wf y -> _diff y h m dim coefs = Ok r -> wf r /\ shape r = shape y.
Proof.
  unfold _diff. intros Hwf H.
  apply bind_ok in H as (ax & _ & H). cbv zeta in H.
  apply bind_ok in H as (yd1 & H1 & H).
  apply bind_ok in H as (yd2 & H2 & H).
  apply bind_ok in H as (yd3 & H3 & H). injection H as <-.
  apply apply_scheme_shape in H1 as [W1 S1]; [|now apply wf_zeros_like].
  apply apply_scheme_shape in H2 as [W2 S2]; [|exact W1].
  apply apply_scheme_shape in H3 as [W3 S3]; [|exact W2].
  split; [now apply wf_scalar_mul_r|].
  cbn [scalar_mul_r shape]. rewrite S3, S2, S1. reflexivity.
Qed.

Lemma iadd_int_shape (yd rhs yd' : ndarray R) (ax : nat) (k : Z) :
  iadd_int yd ax k rhs = Ok yd' -> wf yd' /\ shape yd' = shape yd.
Proof.
  unfold iadd_int. intros H. apply bind_ok in H as (j & _ & H).
  destruct (broadcastable_to _ _); [|discriminate].
  injection H as <-. split; [apply wf_build | reflexivity].
Qed.

Lemma diff_non_uni_inner_shape (y : ndarray R) (ax i : nat) (pairs : list (Z * R)) :
  forall yd yd', wf yd ->
  _diff_non_uni_inner yd y ax i pairs = Ok yd' ->
  wf yd' /\ shape yd' = shape yd.
Proof.
  induction pairs as [|[off w] pairs IH]; intros yd yd' Hwf; simpl.
  - intros H; injection H as <-. auto.
  - intros H. apply bind_ok in H as (j & _ & H).
    apply bind_ok in H as (rhs & _ & H).
    apply bind_ok in H as (yd1 & H1 & H).
    apply iadd_int_shape in H1 as [W1 S1].
    destruct (IH _ _ W1 H) as [W S]. split; congruence.
Qed.

Lemma diff_non_uni_loop_shape (y : ndarray R) (dim : Z) (coefs : list (stencil R))
  (coords : list R) :
  forall i yd yd', wf yd ->
  _diff_non_uni_loop yd y dim coefs i coords = Ok yd' ->
  wf yd' /\ shape yd' = shape yd.
Proof.
  induction coords as [|x coords IH]; intros i yd yd' Hwf; simpl.
  - intros H; injection H as <-. auto.
  - intros H. apply bind_ok in H as (st & _ & H).
    apply bind_ok in H as (ax & _ & H).
    apply bind_ok in H as (yd1 & H1 & H).
    apply diff_non_uni_inner_shape in H1 as [W1 S1]; [|exact Hwf].
    destruct (IH _ _ _ W1 H) as [W S]. split; congruence.
Qed.

(** Whatever [_diff_non_uni] returns has the shape of its input. *)
Lemma diff_non_uni_shape (y r : ndarray R) (coords : list R) (dim : Z)
  (coefs : list (stencil R)) :
  wf y -> _diff_non_uni y coords dim coefs = Ok r -> wf r /\ shape r = shape y.
Proof.
  unfold _diff_non_uni. intros Hwf H.
  apply diff_non_uni_loop_shape in H; [|now apply wf_zeros_like]. exact H.
Qed.

End Shapes.

(** * Broadcasting *)

Lemma join_shapes_fits (c : list nat) :
  forall s, all2 dim_fits c s = true -> join_shapes c s = Some s.
Proof.
  induction c as [|d c IH]; intros [|x s]; simpl; try discriminate; auto.
  intros H. apply andb_prop in H as [Hd Hc]. rewrite (IH _ Hc).
  unfold dim_fits in Hd. unfold dim_join.
  destruct (Nat.eqb_spec d x); [now subst|].
  simpl in Hd. now rewrite Hd.
Qed.

Lemma join_shapes_padded (k : nat) :
  forall s c, all2 dim_fits c (skipn k s) = true -> k <= length s ->
  join_shapes (repeat 1 k ++ c) s = Some s.
Proof.
  induction k as [|k IH]; intros s c H Hk.
  - simpl in *. now apply join_shapes_fits.
  - destruct s as [|x s]; simpl in Hk; [lia|].
    simpl in *. rewrite (IH s c H) by lia.
    unfold dim_join. destruct (Nat.eqb_spec 1 x); [now subst|reflexivity].
Qed.

(** An operand that fits a shape broadcasts with it to that shape. *)
Lemma broadcast_shapes_to (c s : list nat) :
  broadcastable_to c s = true -> broadcast_shapes c s = Some s.
Proof.
  unfold broadcastable_to, broadcast_shapes, pad_shape. intros H.
  apply andb_prop in H as [Hl H]. apply Nat.leb_le in Hl.
  rewrite Nat.max_r by exact Hl. rewrite Nat.sub_diag. simpl.
  apply join_shapes_padded; [exact H | lia].
Qed.

Section BroadcastFacts.
Context {R : Type} {SR : Scalar R}.

Lemma broadcast2_same (f : R -> R -> R) (a b : ndarray R) :
  shape a = shape b ->
  broadcast2 f a b = Ok (build (shape a) (fun idx => f (get a idx) (get b idx))).
Proof.
  intros Hs. unfold broadcast2. rewrite <- Hs, broadcast_shapes_same.
  f_equal. apply build_ext. intros idx Hv.
  now rewrite (bcast_index_valid Hv).
Qed.

Lemma broadcast2_fits (f : R -> R -> R) (v a : ndarray R) :
  broadcastable_to (shape v) (shape a) = true ->
  broadcast2 f v a =
  Ok (build (shape a) (fun idx => f (get v (bcast_index (shape v) idx)) (get a idx))).
Proof.
  intros H. unfold broadcast2. rewrite (broadcast_shapes_to _ _ H).
  f_equal. apply build_ext. intros idx Hv.
  now rewrite (bcast_index_valid Hv).
Qed.

Lemma scalar_mul_l_build (c : R) (a : ndarray R) :
  wf a -> scalar_mul_l c a = build (shape a) (fun idx => rmul c (get a idx)).
Proof.
  intros Ha. apply array_ext.
  - now apply wf_scalar_mul_l.
  - apply wf_build.
  - reflexivity.
  - intros idx Hv. cbn [scalar_mul_l shape] in Hv.
    now rewrite get_scalar_mul_l, get_build.
Qed.

End BroadcastFacts.

(** * Evaluation of the operator tree *)

Section Operators.
Context {R : Type} {SR : Scalar R} {PR : Provider R}.

Lemma apply_axis_shape (fd : grid R) (axis order : Z) (u r : ndarray R) :
  wf u -> apply_axis fd axis order u = Ok r -> wf r /\ shape r = shape u.
Proof.
  unfold apply_axis. intros Hwf. destruct (is_uniform fd).
  - now apply diff_shape.
  - now apply diff_non_uni_shape.
Qed.

Lemma apply_derivs_shape (fd : grid R) (items : list (Z * Z)) :
  forall u r, wf u -> apply_derivs fd items u = Ok r ->
  wf r /\ shape r = shape u.
Proof.
  induction items as [|[axis order] items IH]; intros u r Hwf; simpl.
  - intros H; injection H as <-. auto.
  - intros H. apply bind_ok in H as (u' & H1 & H).
    apply apply_axis_shape in H1 as [W1 S1]; [|exact Hwf].
    destruct (IH _ _ W1 H) as [W S]. split; congruence.
Qed.

Lemma mul_value_spec (v : value R) (x : ndarray R) :
  wf x -> value_fits v (shape x) ->
  mul_value v x = Ok (build (shape x) (fun idx => rmul (value_at v idx) (get x idx))).
Proof.
  intros Hx Hv. destruct v as [c|a]; simpl in *.
  - now rewrite scalar_mul_l_build.
  - destruct Hv as [_ Hb]. unfold mul_arrays. now apply broadcast2_fits.
Qed.

(** In a tree whose multipliers fit the field, every node returns an array
    of the shape of the field. *)
Lemma apply_shape (op : operator R) (fd : grid R) :
  forall u r, wf u -> values_fit op (shape u) ->
  apply op fd u = Ok r -> wf r /\ shape r = shape u.
Proof.
  induction op as [derivs | l IHl r0 IHr | v r0 IHr]; intros u r Hwf Hfit; simpl.
  - now apply apply_derivs_shape.
  - destruct Hfit as [Hl Hr]. intros H.
    apply bind_ok in H as (a & Ha & H). apply bind_ok in H as (b & Hb & H).
    destruct (IHl _ _ Hwf Hl Ha) as [Wa Sa].
    destruct (IHr _ _ Hwf Hr Hb) as [Wb Sb].
    unfold add_arrays in H. rewrite broadcast2_same in H by congruence.
    injection H as <-. split; [apply wf_build | exact Sa].
  - destruct Hfit as [Hv Hr]. intros H.
    apply bind_ok in H as (x & Hx & H).
    destruct (IHr _ _ Hwf Hr Hx) as [Wx Sx].
    rewrite mul_value_spec in H by (try rewrite Sx; assumption).
    injection H as <-. split; [apply wf_build | exact Sx].
Qed.

(** The value of a sum: both operands are applied to [u], the element at
    [idx] of the result is the sum of their elements at [idx], and an
    exception of either operand is the exception of the sum. *)
Lemma plus_sum_of_values (A B : operator R) (fd : grid R) (u : ndarray R) :
  wf u -> values_fit A (shape u) -> values_fit B (shape u) ->
  apply (Plus A B) fd u =
  (a <- apply A fd u ;;
   b <- apply B fd u ;;
   Ok (build (shape u) (fun idx => radd (get a idx) (get b idx)))).
Proof.
  intros Hwf HA HB. cbn [apply].
  destruct (apply A fd u) as [a|e] eqn:Ea; cbn [bind]; [|reflexivity].
  destruct (apply B fd u) as [b|e] eqn:Eb; cbn [bind]; [|reflexivity].
  destruct (apply_shape _ _ Hwf HA Ea) as [Wa Sa].
  destruct (apply_shape _ _ Hwf HB Eb) as [Wb Sb].
  unfold add_arrays. rewrite broadcast2_same by congruence.
  now rewrite Sa.
Qed.

(** C4: for a multiplier [c] that is a scalar or an array broadcastable to
    the field shape, [Multiply(c, A).apply(g, u)] is [c] times
    [A.apply(g, u)] element by element; the multiplier enters only through
    its value at the element ([value_at] has no grid argument). *)
Theorem multiply_elementwise (c : value R) (A : operator R) (fd : grid R)
  (u : ndarray R) :
  wf u -> value_fits c (shape u) -> values_fit A (shape u) ->
  apply (Multiply c A) fd u =
  (a <- apply A fd u ;;
   Ok (build (shape u) (fun idx => rmul (value_at c idx) (get a idx)))).
Proof.
  intros Hwf Hc HA. cbn [apply].
  destruct (apply A fd u) as [a|e] eqn:Ea; cbn [bind]; [|reflexivity].
  destruct (apply_shape _ _ Hwf HA Ea) as [Wa Sa].
  rewrite mul_value_spec by (try rewrite Sa; assumption).
  now rewrite Sa.
Qed.

Lemma fold_left_raise (fd : grid R) (ps : list (Z * Z)) (e : exn) :
  fold_left (fun r p => v <- r ;; apply (single_axis p) fd v) ps (Raise e) = Raise e.
Proof. induction ps as [|p ps IH]; simpl; auto. Qed.

Lemma bind_ret {A : Type} (m : result A) : bind m (fun x => Ok x) = m.
Proof. now destruct m. Qed.

Lemma apply_single_axis (fd : grid R) (p : Z * Z) (u : ndarray R) :
  apply (single_axis p) fd u = apply_axis fd (fst p) (snd p) u.
Proof. destruct p as [axis order]. simpl. apply bind_ret. Qed.

(** The loop of [PartialDerivative.apply] is the composition of the
    single-axis derivatives in the order of the items. *)
Lemma apply_derivs_sequential (fd : grid R) (ps : list (Z * Z)) :
  forall u, apply_derivs fd ps u = compose_in_order fd ps u.
Proof.
  unfold compose_in_order.
  induction ps as [|[axis order] ps IH]; intros u; [reflexivity|].
  cbn [fold_left apply_derivs bind].
  rewrite apply_single_axis. cbn [fst snd].
  destruct (apply_axis fd axis order u) as [u'|e]; cbn [bind].
  - apply IH.
  - now rewrite fold_left_raise.
Qed.

Lemma axis_by_axis_raise (fd : grid R) (ps : list (Z * Z)) (e : exn) :
  fold_left (fun r p => v <- r ;; apply_axis fd (fst p) (snd p) v) ps (Raise e)
  = Raise e.
Proof. induction ps as [|p ps IH]; simpl; auto. Qed.

(** The loop of [PartialDerivative.apply] runs the turns [apply_axis] in
    the order of the items, each on the array the turn before it
    returned. *)
Lemma apply_derivs_axis_by_axis (fd : grid R) (ps : list (Z * Z)) :
  forall u, apply_derivs fd ps u = axis_by_axis fd ps u.
Proof.
  unfold axis_by_axis.
  induction ps as [|[axis order] ps IH]; intros u; [reflexivity|].
  cbn [fold_left apply_derivs bind fst snd].
  destruct (apply_axis fd axis order u) as [u'|e]; cbn [bind].
  - apply IH.
  - now rewrite axis_by_axis_raise.
Qed.

(** C2: a [PartialDerivative] built from the valid pairs [ps] holds them
    in insertion order, and applying it to a field differentiates along the
    axes one at a time in that order, by [_diff] or [_diff_non_uni] as
    [apply_axis] chooses: the array returned for one axis is the field
    differentiated along the next.  The operator built from one pair alone
    does exactly the turn of its axis, so the result is the sequential
    composition of the single-axis derivatives of the pairs. *)
Theorem apply_sequential (ps : list (Z * Z)) :
  Forall valid_pair ps -> NoDup (map fst ps) ->
  @PartialDerivative_init R (map to_tuple ps) = Ok (PartialDerivative ps) /\
  (forall p, In p ps ->
     @PartialDerivative_init R [to_tuple p] = Ok (single_axis p)) /\
  forall (fd : grid R) (u : ndarray R),
    apply (PartialDerivative ps) fd u = axis_by_axis fd ps u /\
    (forall (p : Z * Z) (v : ndarray R),
       apply (single_axis p) fd v = apply_axis fd (fst p) (snd p) v) /\
    apply (PartialDerivative ps) fd u = compose_in_order fd ps u.
Proof.
  intros Hv Hnd. split; [|split].
  - apply init_valid. now constructor.
  - intros p Hp. apply (@init_valid R [to_tuple p] [p]).
    apply (valid_tuples (ps := [p])).
    + constructor; [|constructor]. revert p Hp. now apply Forall_forall.
    + constructor; [simpl; tauto | constructor].
  - intros fd u. split; [|split].
    + apply apply_derivs_axis_by_axis.
    + intros p v. apply apply_single_axis.
    + apply apply_derivs_sequential.
Qed.

(** C10: [PartialDerivative()] constructs the operator without axes, and
    applying it returns the input field as it is, on a uniform and on a
    non-uniform grid alike; over the store it is the very object that was
    passed in, and the store is untouched. *)
Theorem identity_operator :
  @PartialDerivative_init R [] = Ok (PartialDerivative []) /\
  (forall (fd : grid R) (u : ndarray R), apply (PartialDerivative []) fd u = Ok u) /\
  (forall (fd : grid R) (l : Store.loc) (st : Store.store R),
     Store.apply (PartialDerivative []) fd l st = (Ok l, st)).
Proof. repeat split. Qed.

End Operators.

(** * The non-uniform stencil algorithm *)

Section NonUniform.
Context {R : Type} {SR : Scalar R}.

(** A read position in [-n, 0) is not rejected: numpy counts it from the
    end of the axis. *)
Lemma getitem_int_wraps (a : ndarray R) (ax : nat) (k : Z) :
  (- Z.of_nat (nth ax (shape a) 0%nat) <= k < 0)%Z ->
  getitem_int a ax k = getitem_int a ax (k + Z.of_nat (nth ax (shape a) 0)).
Proof.
  intros Hk. unfold getitem_int, norm_index.
  set (n := nth ax (shape a) 0) in *.
  destruct (Z.ltb_spec k (- Z.of_nat n)); [lia|].
  destruct (Z.leb_spec (Z.of_nat n) k); [lia|].
  destruct (Z.ltb_spec (k + Z.of_nat n) (- Z.of_nat n)); [lia|].
  destruct (Z.leb_spec (Z.of_nat n) (k + Z.of_nat n)); [lia|].
  destruct (Z.ltb_spec k 0); [|lia].
  destruct (Z.ltb_spec (k + Z.of_nat n) 0); [lia|]. reflexivity.
Qed.

(** A read position at or beyond the extent, or below [-n], raises
    IndexError. *)
Lemma getitem_int_raises (a : ndarray R) (ax : nat) (k : Z) :
  (k < - Z.of_nat (nth ax (shape a) 0%nat) \/ Z.of_nat (nth ax (shape a) 0%nat) <= k)%Z ->
  getitem_int a ax k = Raise IndexError.
Proof.
  intros Hk. unfold getitem_int, norm_index.
  destruct (Z.ltb_spec k (- Z.of_nat (nth ax (shape a) 0))); [reflexivity|].
  destruct (Z.leb_spec (Z.of_nat (nth ax (shape a) 0)) k); [reflexivity|]. lia.
Qed.

End NonUniform.

(** C7 (as stated) fails: [_diff_non_uni] on a field of five samples with
    a record whose offsets are [-1, 0] at every node.  At node 0 the read
    position [0 + (-1)] lies outside [0, 5), and [_shift_slice] rejects the
    window of node 0 shifted by -1; the call does not raise: it reads the
    last sample, 16, and returns [1 - 16] at node 0, and so does [apply] on
    a non-uniform grid whose provider answers with that record. *)
Lemma diff_non_uni_reads_wrapped_counterexample :
  (Z.of_nat 0 + (-1) < 0)%Z /\
  _shift_slice (mk_slice 0 1) (-1) 5 = Raise IndexError /\
  getitem_int ex_field5 0 (Z.of_nat 0 + (-1)) = Ok (mk_ndarray [] [16%float]) /\
  _diff_non_uni ex_field5 ex_coords5 0 ex_backward_everywhere
  = Ok (mk_ndarray [5] [-15; 1; 2; 4; 8]%float) /\
  apply (PartialDerivative [(0, 1)%Z]) ex_grid_non_uni ex_field5
  = Ok (mk_ndarray [5] [-15; 1; 2; 4; 8]%float).
Proof. repeat split; vm_compute; reflexivity. Qed.

(** [multiply_elementwise] for a multiplier of shape [3] and a field of
    shape [3; 3]. *)
Lemma multiply_elementwise_witness :
  wf ex_field33 /\
  value_fits ex_multiplier (shape ex_field33) /\
  values_fit ex_dx (shape ex_field33) /\
  apply (Multiply ex_multiplier ex_dx) ex_grid ex_field33 =
  (a <- apply ex_dx ex_grid ex_field33 ;;
   Ok (build (shape ex_field33)
         (fun idx => rmul (value_at ex_multiplier idx) (get a idx)))).
Proof.
  assert (Hw : wf ex_field33) by reflexivity.
  assert (Hc : value_fits ex_multiplier (shape ex_field33))
    by (split; reflexivity).
  assert (Ha : values_fit ex_dx (shape ex_field33)) by exact I.
  split; [exact Hw|]. split; [exact Hc|]. split; [exact Ha|].
  exact (@multiply_elementwise float float_scalar ex_provider ex_multiplier
           ex_dx ex_grid ex_field33 Hw Hc Ha).
Defined.

(** [apply_sequential] for the mixed derivative along axis 0, then 1, of
    a field of three by three samples: the derivative along axis 1 of the
    array that the derivative along axis 0 returns. *)
Lemma apply_sequential_witness :
  Forall valid_pair ex_pairs /\
  NoDup (map fst ex_pairs) /\
  @PartialDerivative_init float (map to_tuple ex_pairs)
    = Ok (PartialDerivative ex_pairs) /\
  apply (PartialDerivative ex_pairs) ex_grid ex_field33
    = (v <- apply_axis ex_grid 0 1 ex_field33 ;; apply_axis ex_grid 1 1 v).
Proof.
  assert (Hv : Forall valid_pair ex_pairs).
  { repeat constructor; simpl; lia. }
  assert (Hn : NoDup (map fst ex_pairs)).
  { repeat constructor; simpl; intuition discriminate. }
  split; [exact Hv|]. split; [exact Hn|].
  destruct (@apply_sequential float float_scalar ex_provider ex_pairs Hv Hn)
    as (Hinit & _ & Happ).
  split; [exact Hinit | exact (proj1 (Happ ex_grid ex_field33))].
Defined.

(** * The store: aliasing and freshness *)

Section StoreFacts.
Context {R : Type} {SR : Scalar R} {PR : Provider R}.

Lemma nth_last (st : Store.store R) (a d : ndarray R) :
  nth (length st) (st ++ [a]) d = a.
Proof. now rewrite app_nth2, Nat.sub_diag by lia. Qed.

Lemma nth_old (st extra : Store.store R) (l : nat) (d : ndarray R) :
  l < length st -> nth l (st ++ extra) d = nth l st d.
Proof. intros H. now apply app_nth1. Qed.

Lemma set_nth_last (st : Store.store R) (a b : ndarray R) :
  Store.set_nth (st ++ [a]) (length st) b = st ++ [b].
Proof. induction st as [|x st IH]; simpl; [reflexivity | now rewrite IH]. Qed.

Lemma extends_refl (st : Store.store R) : Store.extends st st.
Proof. exists []. now rewrite app_nil_r. Qed.

Lemma extends_trans (st1 st2 st3 : Store.store R) :
  Store.extends st1 st2 -> Store.extends st2 st3 -> Store.extends st1 st3.
Proof.
  intros [e1 ->] [e2 ->]. exists (e1 ++ e2). now rewrite app_assoc.
Qed.

Lemma extends_app (st extra : Store.store R) : Store.extends st (st ++ extra).
Proof. now exists extra. Qed.

Lemma nth_accumulator (st tmps : Store.store R) (a d : ndarray R) :
  nth (length st) (st ++ a :: tmps) d = a.
Proof. now rewrite app_nth2, Nat.sub_diag by lia. Qed.

Lemma set_nth_accumulator (st tmps : Store.store R) (a b : ndarray R) :
  Store.set_nth (st ++ a :: tmps) (length st) b = st ++ b :: tmps.
Proof. induction st as [|x st IH]; simpl; [reflexivity | now rewrite IH]. Qed.

Lemma app_accumulator (st tmps : Store.store R) (a p : ndarray R) :
  (st ++ a :: tmps) ++ [p] = st ++ a :: (tmps ++ [p]).
Proof. now rewrite <- app_assoc. Qed.

Lemma bindM_lift {A B : Type} (r : result A) (k : A -> Store.M B)
  (st : Store.store R) :
  Store.bindM (Store.lift r) k st =
  match r with
  | Ok a => k a st
  | Raise e => (Raise e, st)
  end.
Proof. unfold Store.bindM, Store.lift. now destruct r. Qed.

Lemma bindM_deref {B : Type} (l : Store.loc) (k : ndarray R -> Store.M B)
  (st : Store.store R) :
  Store.bindM (Store.deref l) k st = k (nth l st Store.no_object) st.
Proof. reflexivity. Qed.

Lemma bindM_alloc {B : Type} (a : ndarray R) (k : Store.loc -> Store.M B)
  (st : Store.store R) :
  Store.bindM (Store.alloc a) k st = k (length st) (st ++ [a]).
Proof. reflexivity. Qed.

Lemma bindM_assign {B : Type} (l : Store.loc) (a : ndarray R)
  (k : unit -> Store.M B) (st : Store.store R) :
  Store.bindM (Store.assign l a) k st = k tt (Store.set_nth st l a).
Proof. reflexivity. Qed.

Lemma bindM_assoc {A B C : Type} (m : Store.M A) (f : A -> Store.M B)
  (g : B -> Store.M C) (st : Store.store R) :
  Store.bindM (Store.bindM m f) g st =
  Store.bindM m (fun x => Store.bindM (f x) g) st.
Proof. unfold Store.bindM. now destruct (m st) as [[a|e] st']. Qed.

(** The loop of [_apply_to_array] run on the accumulator object [yd], the
    object allocated right after those of [st0]: the objects of [st0] stay
    as they are, the products are allocated behind the accumulator, and the
    accumulator ends up holding what the value-level loop returns. *)
Lemma store_loop_run (y : Store.loc) (ax : nat) (ref_slice : slice)
  (pairs : list (R * slice)) :
  forall (st0 : Store.store R) (ydv : ndarray R) (tmps : Store.store R),
  y < length st0 ->
  exists ydv' tmps',
    Store._apply_to_array_loop (length st0) y ax ref_slice pairs (st0 ++ ydv :: tmps) =
    (Store.erase (_apply_to_array_loop ydv (nth y st0 Store.no_object) ax ref_slice pairs),
     st0 ++ ydv' :: tmps') /\
    forall v, _apply_to_array_loop ydv (nth y st0 Store.no_object) ax ref_slice pairs = Ok v ->
              ydv' = v.
Proof.
  induction pairs as [|[w s] pairs IH]; intros st0 ydv tmps Hy.
  - exists ydv, tmps. split; [reflexivity|]. simpl. intros v H. now injection H.
  - cbn [Store._apply_to_array_loop _apply_to_array_loop].
    rewrite bindM_deref, nth_accumulator.
    rewrite bindM_deref, nth_old by exact Hy.
    destruct (near_one w).
    + rewrite bindM_assoc, bindM_lift.
      destruct (iadd_axis ydv ax ref_slice
                  (getitem_axis (nth y st0 Store.no_object) ax s))
        as [new|e]; cbn [bind].
      * rewrite bindM_assign, set_nth_accumulator. now apply IH.
      * exists ydv, tmps. split; [reflexivity | discriminate].
    + rewrite bindM_assoc, bindM_alloc, bindM_assoc, bindM_deref.
      rewrite nth_last, app_accumulator, bindM_assoc, bindM_lift.
      destruct (iadd_axis ydv ax ref_slice
                  (scalar_mul_l w (getitem_axis (nth y st0 Store.no_object) ax s)))
        as [new|e]; cbn [bind].
      * rewrite bindM_assign, set_nth_accumulator. now apply IH.
      * eexists ydv, _. split; [reflexivity | discriminate].
Qed.

Lemma store_apply_to_array_run (y : Store.loc) (weights : list R)
  (off_slices : list slice) (ref_slice : slice) (dim : Z)
  (st0 : Store.store R) (ydv : ndarray R) (tmps : Store.store R) :
  y < length st0 ->
  exists ydv' tmps',
    Store._apply_to_array (length st0) y weights off_slices ref_slice dim
      (st0 ++ ydv :: tmps) =
    (Store.erase (_apply_to_array ydv (nth y st0 Store.no_object) weights off_slices
                    ref_slice dim),
     st0 ++ ydv' :: tmps') /\
    forall v, _apply_to_array ydv (nth y st0 Store.no_object) weights off_slices
                ref_slice dim = Ok v -> ydv' = v.
Proof.
  intros Hy. unfold Store._apply_to_array, _apply_to_array.
  rewrite bindM_deref, nth_old by exact Hy. rewrite bindM_lift.
  destruct (norm_axis (ndim (nth y st0 Store.no_object)) dim) as [ax|e]; cbn [bind].
  - now apply store_loop_run.
  - exists ydv, tmps. split; [reflexivity | discriminate].
Qed.

(** One scheme of [_diff] on the accumulator object, followed by the rest
    [k] of the call. *)
Lemma store_scheme_run {A : Type} (y : Store.loc) (st : stencil R) (ref_slice : slice)
  (npts dim : Z) (st0 : Store.store R) (ydv : ndarray R) (tmps : Store.store R)
  (k : Store.M A) :
  y < length st0 ->
  exists ydv' tmps',
    Store.bindM
      (Store.lift (mapM (fun off => _shift_slice ref_slice off npts) (st_offsets st)))
      (fun off_slices =>
         Store.bindM
           (Store._apply_to_array (length st0) y (st_coefficients st) off_slices
              ref_slice dim)
           (fun _ => k))
      (st0 ++ ydv :: tmps) =
    match apply_scheme ydv (nth y st0 Store.no_object) st ref_slice npts dim with
    | Ok v => k (st0 ++ v :: tmps')
    | Raise e => (Raise e, st0 ++ ydv' :: tmps')
    end.
Proof.
  intros Hy. unfold apply_scheme.
  rewrite bindM_lift.
  destruct (mapM (fun off => _shift_slice ref_slice off npts) (st_offsets st))
    as [offs|e]; cbn [bind].
  - destruct (@store_apply_to_array_run y (st_coefficients st) offs ref_slice dim
                st0 ydv tmps Hy) as (ydv' & tmps' & E & Hv).
    exists ydv', tmps'. unfold Store.bindM at 1. rewrite E.
    destruct (_apply_to_array ydv (nth y st0 Store.no_object) (st_coefficients st)
                offs ref_slice dim) as [v|e]; cbn [Store.erase].
    + now rewrite (Hv v eq_refl).
    + reflexivity.
  - exists ydv, tmps. reflexivity.
Qed.

Lemma nth_error_accumulator (st tmps : Store.store R) (a : ndarray R) :
  nth_error (st ++ a :: tmps) (length st) = Some a.
Proof. rewrite nth_error_app2 by lia. now rewrite Nat.sub_diag. Qed.

Lemma nth_error_app_last (st : Store.store R) (a : ndarray R) :
  nth_error (st ++ [a]) (length st) = Some a.
Proof. apply nth_error_accumulator. Qed.

(** [_diff] over the store: every object it adds is new, and the object
    it returns, the last one it allocates, holds what the value-level
    [_diff] returns. *)
Lemma store_diff_run (y : Store.loc) (h : R) (m dim : Z) (coefs : scheme_table R)
  (st : Store.store R) :
  y < length st ->
  exists extra l,
    Store._diff y h m dim coefs st =
    (match _diff (nth y st Store.no_object) h m dim coefs with
     | Ok _ => Ok l
     | Raise e => Raise e
     end, st ++ extra) /\
    forall r, _diff (nth y st Store.no_object) h m dim coefs = Ok r ->
              length st <= l /\ nth_error (st ++ extra) l = Some r.
Proof.
  intros Hy. unfold Store._diff, _diff.
  rewrite bindM_deref, bindM_lift.
  set (yv := nth y st Store.no_object).
  destruct (norm_axis (ndim yv) dim) as [ax|e]; cbn [bind];
    [|exists [], 0; rewrite app_nil_r; split; [reflexivity | discriminate]].
  cbv zeta.
  set (npts := Z.of_nat (nth ax (shape yv) 0)).
  set (nb := Z.of_nat (length (st_coefficients (center coefs)) / 2)).
  (* center: the shifted slices are computed before [yd] is allocated *)
  unfold apply_scheme at 1 4. rewrite bindM_lift.
  destruct (mapM (fun off => _shift_slice (ref_center npts nb) off npts)
              (st_offsets (center coefs))) as [offs|e]; cbn [bind];
    [|exists [], 0; rewrite app_nil_r; split; [reflexivity | discriminate]].
  rewrite bindM_alloc.
  destruct (@store_apply_to_array_run y (st_coefficients (center coefs)) offs
              (ref_center npts nb) dim st (zeros_like yv) [] Hy)
    as (yd1' & tmps1 & E1 & Hv1).
  fold yv in E1, Hv1.
  unfold Store.bindM at 1. rewrite E1.
  destruct (_apply_to_array (zeros_like yv) yv (st_coefficients (center coefs)) offs
              (ref_center npts nb) dim) as [yd1|e]; cbn [Store.erase bind];
    [|exists (yd1' :: tmps1), 0; split; [reflexivity | discriminate]].
  rewrite (Hv1 yd1 eq_refl). clear E1 Hv1 yd1'.
  (* forward *)
  match goal with
  | |- context [Store.bindM (Store.lift (mapM _ (st_offsets (forward coefs))))
                  (fun off_slices => Store.bindM _ (fun _ => ?k))] =>
      destruct (@store_scheme_run _ y (forward coefs) (ref_forward npts nb)
                  npts dim st yd1 tmps1 k Hy) as (yd2' & tmps2 & E2)
  end.
  fold yv in E2. rewrite E2. clear E2.
  destruct (apply_scheme yd1 yv (forward coefs) (ref_forward npts nb) npts dim)
    as [yd2|e]; cbn [bind];
    [|exists (yd2' :: tmps2), 0; split; [reflexivity | discriminate]].
  (* backward *)
  match goal with
  | |- context [Store.bindM (Store.lift (mapM _ (st_offsets (backward coefs))))
                  (fun off_slices => Store.bindM _ (fun _ => ?k))] =>
      destruct (@store_scheme_run _ y (backward coefs) (ref_backward npts nb)
                  npts dim st yd2 tmps2 k Hy) as (yd3' & tmps3 & E3)
  end.
  fold yv in E3. rewrite E3. clear E3.
  destruct (apply_scheme yd2 yv (backward coefs) (ref_backward npts nb) npts dim)
    as [yd3|e]; cbn [bind];
    [|exists (yd3' :: tmps3), 0; split; [reflexivity | discriminate]].
  exists ((yd3 :: tmps3) ++ [scalar_mul_r yd3 (rdiv r1 (rpow h m))]),
         (length (st ++ yd3 :: tmps3)).
  rewrite bindM_deref, nth_accumulator.
  unfold Store.alloc. rewrite app_assoc. split; [reflexivity|].
  intros r Hr. injection Hr as <-. split.
  - rewrite length_app. lia.
  - apply nth_error_app_last.
Qed.

Lemma store_non_uni_inner_run (y : Store.loc) (ax i : nat) (pairs : list (Z * R)) :
  forall (st0 : Store.store R) (ydv : ndarray R) (tmps : Store.store R),
  y < length st0 ->
  exists ydv' tmps',
    Store._diff_non_uni_inner (length st0) y ax i pairs (st0 ++ ydv :: tmps) =
    (Store.erase (_diff_non_uni_inner ydv (nth y st0 Store.no_object) ax i pairs),
     st0 ++ ydv' :: tmps') /\
    forall v, _diff_non_uni_inner ydv (nth y st0 Store.no_object) ax i pairs = Ok v ->
              ydv' = v.
Proof.
  induction pairs as [|[off w] pairs IH]; intros st0 ydv tmps Hy.
  - exists ydv, tmps. split; [reflexivity|]. simpl. intros v H. now injection H.
  - cbn [Store._diff_non_uni_inner _diff_non_uni_inner].
    rewrite bindM_deref, nth_accumulator, bindM_lift.
    destruct (norm_index (nth ax (shape ydv) 0) (Z.of_nat i)) as [j|e]; cbn [bind];
      [|exists ydv, tmps; split; [reflexivity | discriminate]].
    rewrite bindM_deref, nth_old by exact Hy. rewrite bindM_lift.
    destruct (getitem_int (nth y st0 Store.no_object) ax (Z.of_nat i + off))
      as [rhs|e]; cbn [bind];
      [|exists ydv, tmps; split; [reflexivity | discriminate]].
    rewrite bindM_alloc, bindM_deref, nth_last, app_accumulator, bindM_lift.
    destruct (iadd_int ydv ax (Z.of_nat i) (scalar_mul_l w rhs)) as [new|e];
      cbn [bind];
      [|eexists ydv, _; split; [reflexivity | discriminate]].
    rewrite bindM_assign, set_nth_accumulator. now apply IH.
Qed.

Lemma store_non_uni_loop_run (y : Store.loc) (dim : Z) (coefs : list (stencil R))
  (coords : list R) :
  forall (i : nat) (st0 : Store.store R) (ydv : ndarray R) (tmps : Store.store R),
  y < length st0 ->
  exists ydv' tmps',
    Store._diff_non_uni_loop (length st0) y dim coefs i coords (st0 ++ ydv :: tmps) =
    (Store.erase (_diff_non_uni_loop ydv (nth y st0 Store.no_object) dim coefs i coords),
     st0 ++ ydv' :: tmps') /\
    forall v, _diff_non_uni_loop ydv (nth y st0 Store.no_object) dim coefs i coords = Ok v ->
              ydv' = v.
Proof.
  induction coords as [|x coords IH]; intros i st0 ydv tmps Hy.
  - exists ydv, tmps. split; [reflexivity|]. simpl. intros v H. now injection H.
  - cbn [Store._diff_non_uni_loop _diff_non_uni_loop].
    rewrite bindM_lift.
    destruct (list_get coefs i) as [st|e]; cbn [bind];
      [|exists ydv, tmps; split; [reflexivity | discriminate]].
    rewrite bindM_deref, nth_old by exact Hy. rewrite bindM_lift.
    destruct (norm_axis (ndim (nth y st0 Store.no_object)) dim) as [ax|e]; cbn [bind];
      [|exists ydv, tmps; split; [reflexivity | discriminate]].
    destruct (@store_non_uni_inner_run y ax i
                (combine (st_offsets st) (st_coefficients st)) st0 ydv tmps Hy)
      as (yd1' & tmps1 & E1 & Hv1).
    unfold Store.bindM at 1. rewrite E1.
    destruct (_diff_non_uni_inner ydv (nth y st0 Store.no_object) ax i
                (combine (st_offsets st) (st_coefficients st))) as [yd1|e];
      cbn [Store.erase bind];
      [|exists yd1', tmps1; split; [reflexivity | discriminate]].
    rewrite (Hv1 yd1 eq_refl). now apply IH.
Qed.

(** [_diff_non_uni] over the store: the accumulator is the first object
    it allocates, and it is the object returned. *)
Lemma store_diff_non_uni_run (y : Store.loc) (coords : list R) (dim : Z)
  (coefs : list (stencil R)) (st : Store.store R) :
  y < length st ->
  exists extra,
    Store._diff_non_uni y coords dim coefs st =
    (match _diff_non_uni (nth y st Store.no_object) coords dim coefs with
     | Ok _ => Ok (length st)
     | Raise e => Raise e
     end, st ++ extra) /\
    forall r, _diff_non_uni (nth y st Store.no_object) coords dim coefs = Ok r ->
              nth_error (st ++ extra) (length st) = Some r.
Proof.
  intros Hy. unfold Store._diff_non_uni, _diff_non_uni.
  rewrite bindM_deref, bindM_alloc.
  destruct (@store_non_uni_loop_run y dim coefs coords 0 st
              (zeros_like (nth y st Store.no_object)) [] Hy)
    as (yd' & tmps & E & Hv).
  unfold Store.bindM at 1. rewrite E.
  destruct (_diff_non_uni_loop (zeros_like (nth y st Store.no_object))
              (nth y st Store.no_object) dim coefs 0 coords) as [r|e];
    cbn [Store.erase].
  - exists (r :: tmps). rewrite (Hv r eq_refl). split; [reflexivity|].
    intros r' Hr. injection Hr as <-. apply nth_error_accumulator.
  - exists (yd' :: tmps). split; [reflexivity | discriminate].
Qed.

Lemma nth_of_nth_error (st : Store.store R) (l : nat) (a d : ndarray R) :
  nth_error st l = Some a -> l < length st /\ nth l st d = a.
Proof.
  intros H. split.
  - apply nth_error_Some. congruence.
  - now apply nth_error_nth.
Qed.

(** One axis over the store: the call agrees with the value level, and
    what it returns is an object it allocated. *)
Lemma store_apply_axis_refines (fd : grid R) (axis order : Z) (u : Store.loc)
  (st : Store.store R) :
  u < length st ->
  Store.refines st u (apply_axis fd axis order (nth u st Store.no_object))
    (Store.apply_axis fd axis order u st) /\
  forall l, fst (Store.apply_axis fd axis order u st) = Ok l -> length st <= l.
Proof.
  intros Hu. unfold Store.apply_axis, apply_axis, Store.refines.
  destruct (is_uniform fd).
  - destruct (@store_diff_run u (spac fd axis) order axis
                (coefficients order (acc fd)) st Hu) as (extra & l0 & E & Hr).
    rewrite E. cbn [fst snd].
    destruct (_diff (nth u st Store.no_object) (spac fd axis) order axis
                (coefficients order (acc fd))) as [r|e].
    + destruct (Hr r eq_refl) as [Hge Hnth].
      split; [split; [apply extends_app|] |].
      * exists l0. split; [reflexivity|]. split; [exact Hnth | now right].
      * intros l H. now injection H as <-.
    + split; [split; [apply extends_app | reflexivity] | discriminate].
  - match goal with
    | |- context [Store._diff_non_uni u ?c axis ?cf st] =>
        destruct (@store_diff_non_uni_run u c axis cf st Hu) as (extra & E & Hr);
        rewrite E; cbn [fst snd];
        destruct (_diff_non_uni (nth u st Store.no_object) c axis cf) as [r|e]
    end.
    + split; [split; [apply extends_app|] |].
      * exists (length st). split; [reflexivity|]. split; [|right; lia].
        now apply Hr.
      * intros l H. injection H as <-. lia.
    + split; [split; [apply extends_app | reflexivity] | discriminate].
Qed.

Lemma store_apply_derivs_refines (fd : grid R) (items : list (Z * Z)) :
  forall (u : Store.loc) (st : Store.store R),
  u < length st ->
  Store.refines st u (apply_derivs fd items (nth u st Store.no_object))
    (Store.apply_derivs fd items u st) /\
  (items <> [] ->
   forall l, fst (Store.apply_derivs fd items u st) = Ok l -> length st <= l).
Proof.
  induction items as [|[axis order] items IH]; intros u st Hu.
  - split; [|congruence]. split; [apply extends_refl|].
    exists u. cbn. split; [reflexivity|]. split; [|now left].
    now apply nth_error_nth'.
  - cbn [Store.apply_derivs apply_derivs].
    destruct (store_apply_axis_refines fd axis order st Hu) as [[Hext Hres] Hfresh].
    unfold Store.bindM.
    destruct (Store.apply_axis fd axis order u st) as [[l1|e1] st1] eqn:E1;
      cbn [fst snd] in *.
    + destruct (apply_axis fd axis order (nth u st Store.no_object)) as [v|e];
        [|discriminate].
      destruct Hres as (l & Hl & Hnth & _). injection Hl as <-.
      destruct (nth_of_nth_error _ _ Store.no_object Hnth) as [Hl1 Hv].
      cbn [bind]. rewrite <- Hv.
      destruct (IH l1 st1 Hl1) as [[Hext2 Hres2] _].
      assert (Hlen : length st <= length st1).
      { destruct Hext as [ex ->]. rewrite length_app. lia. }
      assert (Hge : length st <= l1) by now apply Hfresh.
      split; [split|].
      * eapply extends_trans; eassumption.
      * destruct (apply_derivs fd items (nth l1 st1 Store.no_object)) as [r|e];
          [|exact Hres2].
        destruct Hres2 as (l2 & Hl2 & Hnth2 & Hor).
        exists l2. split; [exact Hl2|]. split; [exact Hnth2|]. right.
        destruct Hor as [->|Hor]; lia.
      * intros _ l2 Hl2.
        destruct (apply_derivs fd items (nth l1 st1 Store.no_object)) as [r|e].
        -- destruct Hres2 as (l2' & Hl2' & _ & Hor).
           rewrite Hl2 in Hl2'. injection Hl2' as <-.
           destruct Hor as [->|Hor]; lia.
        -- rewrite Hl2 in Hres2. discriminate.
    + destruct (apply_axis fd axis order (nth u st Store.no_object)) as [v|e].
      * destruct Hres as (l & Hl & _). discriminate.
      * injection Hres as <-. cbn [bind].
        split; [split; [exact Hext | reflexivity] | discriminate].
Qed.

(** Evaluation over the store agrees with evaluation on values: the store
    only grows, exceptions coincide, and the returned reference holds the
    value-level result; it is an object the call allocated unless the
    operator is the [PartialDerivative] without axes. *)
Lemma store_apply_refines (op : operator R) (fd : grid R) :
  forall (u : Store.loc) (st : Store.store R),
  u < length st ->
  Store.refines st u (apply op fd (nth u st Store.no_object))
    (Store.apply op fd u st) /\
  (op <> PartialDerivative [] -> Store.returns_new_array op fd u st).
Proof.
  unfold Store.returns_new_array.
  induction op as [derivs | A IHA B IHB | v A IHA]; intros u st Hu.
  - destruct (store_apply_derivs_refines fd derivs st Hu) as [H1 H2].
    split; [exact H1|]. intros Hne. apply H2. congruence.
  - remember (Store.apply (Plus A B) fd u st) as out eqn:Eout.
    cbn [Store.apply] in Eout. cbn [apply].
    destruct (IHA u st Hu) as [[HextA HresA] _].
    unfold Store.bindM at 1 in Eout.
    destruct (Store.apply A fd u st) as [[la|ea] st1] eqn:EA; cbn [fst snd] in *.
    + destruct (apply A fd (nth u st Store.no_object)) as [a|e]; [|discriminate].
      destruct HresA as (l & Hl & HnthA & _). injection Hl as <-.
      cbn [bind].
      assert (Hu1 : u < length st1).
      { destruct HextA as [ex ->]. rewrite length_app. lia. }
      assert (Hsame : nth u st1 Store.no_object = nth u st Store.no_object).
      { destruct HextA as [ex ->]. now apply nth_old. }
      destruct (IHB u st1 Hu1) as [[HextB HresB] _]. rewrite Hsame in HresB.
      unfold Store.bindM at 1 in Eout.
      destruct (Store.apply B fd u st1) as [[lb|eb] st2] eqn:EB; cbn [fst snd] in *.
      * destruct (apply B fd (nth u st Store.no_object)) as [b|e]; [|discriminate].
        destruct HresB as (l & Hl & HnthB & _). injection Hl as <-.
        cbn [bind].
        rewrite !bindM_deref in Eout.
        destruct (nth_of_nth_error _ _ Store.no_object HnthA) as [Hla Hva].
        destruct (nth_of_nth_error _ _ Store.no_object HnthB) as [Hlb Hvb].
        assert (Hva2 : nth la st2 Store.no_object = a).
        { destruct HextB as [ex ->]. now rewrite nth_old. }
        rewrite Hva2, Hvb, bindM_lift in Eout.
        assert (Hlen : length st <= length st2).
        { destruct HextA as [ex1 ->]. destruct HextB as [ex2 ->].
          rewrite !length_app. lia. }
        destruct (add_arrays a b) as [s|e]; subst out; cbn [fst snd Store.alloc].
        -- split; [split|].
           ++ eapply extends_trans; [exact HextA|].
              eapply extends_trans; [exact HextB | apply extends_app].
           ++ exists (length st2). split; [reflexivity|].
              split; [apply nth_error_app_last | now right].
           ++ intros _ l H. injection H as <-. exact Hlen.
        -- split; [split; [|reflexivity] | discriminate].
           eapply extends_trans; eassumption.
      * destruct (apply B fd (nth u st Store.no_object)) as [b|e].
        -- destruct HresB as (l & Hl & _). discriminate.
        -- injection HresB as <-. cbn [bind]. subst out. cbn [fst snd].
           split; [split; [|reflexivity] | discriminate].
           eapply extends_trans; eassumption.
    + destruct (apply A fd (nth u st Store.no_object)) as [a|e].
      * destruct HresA as (l & Hl & _). discriminate.
      * injection HresA as <-. cbn [bind]. subst out. cbn [fst snd].
        split; [split; [exact HextA | reflexivity] | discriminate].
  - remember (Store.apply (Multiply v A) fd u st) as out eqn:Eout.
    cbn [Store.apply] in Eout. cbn [apply].
    destruct (IHA u st Hu) as [[HextA HresA] _].
    unfold Store.bindM at 1 in Eout.
    destruct (Store.apply A fd u st) as [[la|ea] st1] eqn:EA; cbn [fst snd] in *.
    + destruct (apply A fd (nth u st Store.no_object)) as [a|e]; [|discriminate].
      destruct HresA as (l & Hl & HnthA & _). injection Hl as <-.
      cbn [bind].
      destruct (nth_of_nth_error _ _ Store.no_object HnthA) as [Hla Hva].
      rewrite bindM_deref, Hva, bindM_lift in Eout.
      assert (Hlen : length st <= length st1).
      { destruct HextA as [ex1 ->]. rewrite length_app. lia. }
      destruct (mul_value v a) as [s|e]; subst out; cbn [fst snd Store.alloc].
      * split; [split|].
        -- eapply extends_trans; [exact HextA | apply extends_app].
        -- exists (length st1). split; [reflexivity|].
           split; [apply nth_error_app_last | now right].
        -- intros _ l H. injection H as <-. exact Hlen.
      * split; [split; [exact HextA | reflexivity] | discriminate].
    + destruct (apply A fd (nth u st Store.no_object)) as [a|e].
      * destruct HresA as (l & Hl & _). discriminate.
      * injection HresA as <-. cbn [bind]. subst out. cbn [fst snd].
        split; [split; [exact HextA | reflexivity] | discriminate].
Qed.

(** C3: for operators [A] and [B] whose multipliers fit the field [u],
    [Plus(A, B).apply(g, u)] is the elementwise sum of [A.apply(g, u)] and
    [B.apply(g, u)], an exception of either operand being the exception of
    the sum.  Both operands are applied to the same field: over the store,
    where [B] runs after [A] and receives the same reference, the array
    returned is still the sum of what [A] and [B] return for the field as
    it was before the call. *)
Theorem plus_elementwise (A B : operator R) (fd : grid R) (u : ndarray R) :
  wf u -> values_fit A (shape u) -> values_fit B (shape u) ->
  apply (Plus A B) fd u =
  (a <- apply A fd u ;;
   b <- apply B fd u ;;
   Ok (build (shape u) (fun idx => radd (get a idx) (get b idx)))) /\
  forall (l : Store.loc) (st : Store.store R),
    l < length st -> nth l st Store.no_object = u ->
    Store.refines st l
      (a <- apply A fd u ;;
       b <- apply B fd u ;;
       Ok (build (shape u) (fun idx => radd (get a idx) (get b idx))))
      (Store.apply (Plus A B) fd l st).
Proof.
  intros Hwf HA HB.
  pose proof (plus_sum_of_values A B fd Hwf HA HB) as Hsum.
  split; [exact Hsum|].
  intros l st Hl Hu. rewrite <- Hsum, <- Hu.
  now destruct (store_apply_refines (Plus A B) fd st Hl).
Qed.

(** C9 (as amended): for every operator whose multipliers fit the field,
    [apply] leaves every object that existed before the call as it was,
    the input field among them; the array it returns has the shape of the
    input field; and the returned array is a newly allocated object unless
    the operator is a [PartialDerivative] without axes. *)
Theorem apply_frame_and_shape (op : operator R) (fd : grid R) (u : Store.loc)
  (st : Store.store R) :
  u < length st ->
  wf (nth u st Store.no_object) ->
  values_fit op (shape (nth u st Store.no_object)) ->
  Store.extends st (snd (Store.apply op fd u st)) /\
  nth u (snd (Store.apply op fd u st)) Store.no_object = nth u st Store.no_object /\
  (forall l, fst (Store.apply op fd u st) = Ok l ->
     exists r, nth_error (snd (Store.apply op fd u st)) l = Some r /\
               apply op fd (nth u st Store.no_object) = Ok r /\
               shape r = shape (nth u st Store.no_object)) /\
  (op <> PartialDerivative [] -> Store.returns_new_array op fd u st).
Proof.
  intros Hu Hwf Hfit.
  destruct (store_apply_refines op fd st Hu) as [[Hext Hres] Hnew].
  split; [exact Hext|]. split; [|split; [|exact Hnew]].
  - destruct Hext as [ex ->]. now apply nth_old.
  - intros l Hl. rewrite Hl in Hres.
    destruct (apply op fd (nth u st Store.no_object)) as [r|e] eqn:E;
      [|discriminate].
    destruct Hres as (l' & Hl' & Hnth & _). injection Hl' as <-.
    exists r. split; [exact Hnth|]. split; [reflexivity|].
    now destruct (apply_shape _ _ Hwf Hfit E).
Qed.

End StoreFacts.

(** [apply_frame_and_shape] for the sum of two derivatives applied to the
    only object of a store. *)
Lemma apply_frame_and_shape_witness :
  0 < length [ex_field33] /\
  wf (nth 0 [ex_field33] Store.no_object) /\
  values_fit (Plus ex_dx ex_dy) (shape (nth 0 [ex_field33] Store.no_object)) /\
  Store.extends [ex_field33]
    (snd (Store.apply (Plus ex_dx ex_dy) ex_grid 0 [ex_field33])) /\
  Store.returns_new_array (Plus ex_dx ex_dy) ex_grid 0 [ex_field33].
Proof.
  assert (Hu : 0 < length [ex_field33]) by (simpl; lia).
  assert (Hw : wf (nth 0 [ex_field33] Store.no_object)) by reflexivity.
  assert (Hf : values_fit (Plus ex_dx ex_dy)
                 (shape (nth 0 [ex_field33] Store.no_object)))
    by (split; exact I).
  split; [exact Hu|]. split; [exact Hw|]. split; [exact Hf|].
  destruct (@apply_frame_and_shape float float_scalar ex_provider
              (Plus ex_dx ex_dy) ex_grid 0 [ex_field33] Hu Hw Hf)
    as (Hext & _ & _ & Hnew).
  split; [exact Hext|]. apply Hnew. discriminate.
Defined.

(** C9 (as stated) fails: [PartialDerivative()] applied to a field returns
    the reference it was given, not a new array. *)
Lemma identity_returns_input_counterexample :
  ~ Store.returns_new_array (PartialDerivative []) ex_grid 0 [ex_field5].
Proof.
  intros H. specialize (H 0 eq_refl). simpl in H. lia.
Qed.

(** [plus_elementwise] for the sum of the derivatives along the two axes of
    a field of three by three samples. *)
Lemma plus_elementwise_witness :
  wf ex_field33 /\
  values_fit ex_dx (shape ex_field33) /\
  values_fit ex_dy (shape ex_field33) /\
  apply (Plus ex_dx ex_dy) ex_grid ex_field33 =
  (a <- apply ex_dx ex_grid ex_field33 ;;
   b <- apply ex_dy ex_grid ex_field33 ;;
   Ok (build (shape ex_field33) (fun idx => radd (get a idx) (get b idx)))).
Proof.
  assert (Hw : wf ex_field33) by reflexivity.
  assert (Ha : values_fit ex_dx (shape ex_field33)) by exact I.
  assert (Hb : values_fit ex_dy (shape ex_field33)) by exact I.
  split; [exact Hw|]. split; [exact Ha|]. split; [exact Hb|].
  exact (proj1 (@plus_elementwise float float_scalar ex_provider ex_dx ex_dy
                  ex_grid ex_field33 Hw Ha Hb)).
Defined.

(** * The accessors [axes] and [order] *)

Lemma strongly_sorted_strict (l : list Z) :
  StronglySorted (fun x y => is_true (ZOrder.leb x y)) l -> NoDup l ->
  StronglySorted Z.lt l.
Proof.
  induction 1 as [|x l Hs IH Hall]; intros Hnd; constructor.
  - apply IH. now inversion Hnd.
  - inversion Hnd as [|? ? Hnotin _]; subst.
    rewrite Forall_forall in *. intros y Hy.
    specialize (Hall y Hy). unfold is_true, ZOrder.leb in Hall.
    apply Z.leb_le in Hall.
    assert (x <> y) by (intros ->; contradiction). lia.
Qed.

Lemma leb_transitive : Relations_1.Transitive (fun x y => is_true (ZOrder.leb x y)).
Proof.
  intros x y z. unfold is_true, ZOrder.leb. rewrite !Z.leb_le. lia.
Qed.

Lemma has_key_true (derivs : list (Z * Z)) (k : Z) :
  has_key derivs k = true <-> In k (map fst derivs).
Proof.
  destruct (has_key derivs k) eqn:E.
  - split; [intros _|reflexivity].
    destruct (in_dec Z.eq_dec k (map fst derivs)) as [Hin|Hnot]; [exact Hin|].
    apply has_key_false in Hnot. congruence.
  - apply has_key_false in E. split; [discriminate | contradiction].
Qed.

(** In a dictionary without repeated keys the lookup of a stored key
    returns the value stored with it. *)
Lemma dict_value_in (derivs : list (Z * Z)) (a o : Z) :
  NoDup (map fst derivs) -> In (a, o) derivs -> dict_value derivs a = o.
Proof.
  unfold dict_value.
  induction derivs as [|[a' o'] derivs IH]; intros Hnd Hin; [contradiction|].
  simpl in *. inversion Hnd as [|? ? Hnotin Hnd']; subst.
  destruct (Z.eqb_spec a' a) as [->|Hne]; simpl.
  - destruct Hin as [E|Hin]; [now injection E|].
    exfalso. apply Hnotin. now apply (in_map fst) in Hin.
  - destruct Hin as [E|Hin]; [injection E; congruence|]. now apply IH.
Qed.

Section Accessors.
Context {R : Type}.

(** X1: whatever the order in which the pairs were passed to the
    constructor, [axes()] lists exactly the constructed axes, each once,
    in strictly increasing order. *)
Theorem axes_sorted_permutation (args : list pyobj) (derivs : list (Z * Z)) :
  @PartialDerivative_init R args = Ok (PartialDerivative derivs) ->
  StronglySorted Z.lt (axes derivs) /\
  Permutation (map fst derivs) (axes derivs).
Proof.
  intros H. destruct (init_ok_inv _ H) as (ps & Hv & E). injection E as ->.
  assert (Hnd : NoDup (map fst ps)).
  { destruct Hv as [ps Hval Hnd | a o Hval]; [exact Hnd|].
    simpl. constructor; [tauto | constructor]. }
  pose proof (ZSort.Permuted_sort (map fst ps)) as Hperm.
  split; [|exact Hperm].
  apply strongly_sorted_strict.
  - apply ZSort.StronglySorted_sort. exact leb_transitive.
  - eapply Permutation_NoDup; eassumption.
Qed.

(** X2: after construction, [order(axis)] is the order that was given for
    [axis], and 0 for an axis that was not given; so [order(axis)] is
    positive exactly for the axes that [axes()] lists. *)
Theorem order_after_init (args : list pyobj) (derivs : list (Z * Z)) :
  @PartialDerivative_init R args = Ok (PartialDerivative derivs) ->
  (forall a o, In (a, o) derivs -> order derivs a = o) /\
  (forall a, ~ In a (map fst derivs) -> order derivs a = 0%Z) /\
  (forall a, (0 < order derivs a)%Z <-> In a (axes derivs)).
Proof.
  intros H. destruct (init_ok_inv _ H) as (ps & Hv & E). injection E as ->.
  assert (Hnd : NoDup (map fst ps) /\ Forall valid_pair ps).
  { destruct Hv as [ps Hval Hnd | a o Hval]; [now split|].
    split; [simpl; constructor; [tauto | constructor] | now constructor]. }
  destruct Hnd as [Hnd Hval].
  assert (Hin : forall a o, In (a, o) ps -> order ps a = o).
  { intros a o Hin. unfold order.
    assert (Hk : has_key ps a = true)
      by (apply has_key_true; now apply (in_map fst) in Hin).
    rewrite Hk. now apply dict_value_in. }
  assert (Hout : forall a, ~ In a (map fst ps) -> order ps a = 0%Z).
  { intros a Hnot. unfold order. apply has_key_false in Hnot. now rewrite Hnot. }
  split; [exact Hin|]. split; [exact Hout|].
  intros a. split.
  - intros Hpos.
    apply (Permutation_in _ (ZSort.Permuted_sort (map fst ps))).
    destruct (in_dec Z.eq_dec a (map fst ps)) as [Hi|Hn]; [exact Hi|].
    rewrite (Hout a Hn) in Hpos. lia.
  - intros Ha.
    apply (Permutation_in _ (Permutation_sym (ZSort.Permuted_sort (map fst ps)))) in Ha.
    apply in_map_iff in Ha as ([a' o] & <- & Hp). simpl.
    rewrite (Hin a' o Hp).
    rewrite Forall_forall in Hval. now destruct (Hval _ Hp).
Qed.

End Accessors.

(** [axes_sorted_permutation] for the pairs [(2, 1), (0, 3)]. *)
Lemma axes_sorted_permutation_witness :
  @PartialDerivative_init float [PyTuple [PyInt 2; PyInt 1]; PyTuple [PyInt 0; PyInt 3]]
    = Ok (PartialDerivative [(2, 1); (0, 3)]%Z) /\
  StronglySorted Z.lt (axes [(2, 1); (0, 3)]%Z) /\
  axes [(2, 1); (0, 3)]%Z = [0; 2]%Z.
Proof.
  assert (H : @PartialDerivative_init float
                [PyTuple [PyInt 2; PyInt 1]; PyTuple [PyInt 0; PyInt 3]]
              = Ok (PartialDerivative [(2, 1); (0, 3)]%Z)) by reflexivity.
  split; [exact H|].
  split; [exact (proj1 (axes_sorted_permutation _ H)) | reflexivity].
Defined.

(** [order_after_init] for the pairs [(2, 1), (0, 3)]. *)
Lemma order_after_init_witness :
  @PartialDerivative_init float [PyTuple [PyInt 2; PyInt 1]; PyTuple [PyInt 0; PyInt 3]]
    = Ok (PartialDerivative [(2, 1); (0, 3)]%Z) /\
  order [(2, 1); (0, 3)]%Z 0 = 3%Z /\
  order [(2, 1); (0, 3)]%Z 1 = 0%Z.
Proof.
  assert (H : @PartialDerivative_init float
                [PyTuple [PyInt 2; PyInt 1]; PyTuple [PyInt 0; PyInt 3]]
              = Ok (PartialDerivative [(2, 1); (0, 3)]%Z)) by reflexivity.
  destruct (order_after_init _ H) as (Hin & Hout & _).
  split; [exact H|]. split.
  - apply Hin. simpl. tauto.
  - apply Hout. simpl. intros [E|[E|[]]]; discriminate E.
Defined.

(** * What [_apply_to_array] leaves alone *)

Section ApplyToArrayFrame.
Context {R : Type} {SR : Scalar R}.

Lemma iadd_axis_outside (yd rhs yd' : ndarray R) (ax : nat) (sl : slice)
  (idx : list nat) :
  iadd_axis yd ax sl rhs = Ok yd' ->
  valid_index (shape yd) idx ->
  selects (nth ax (shape yd) 0) sl (nth ax idx 0) = false ->
  get yd' idx = get yd idx.
Proof.
  unfold iadd_axis. destruct (broadcastable_to _ _); [|discriminate].
  intros H Hv Hsel. injection H as <-.
  rewrite get_build by exact Hv. cbv zeta. now rewrite Hsel.
Qed.

Lemma apply_to_array_loop_outside (y : ndarray R) (ax : nat) (ref_slice : slice)
  (pairs : list (R * slice)) :
  forall yd yd',
  _apply_to_array_loop yd y ax ref_slice pairs = Ok yd' ->
  shape yd' = shape yd /\
  forall idx, valid_index (shape yd) idx ->
    selects (nth ax (shape yd) 0) ref_slice (nth ax idx 0) = false ->
    get yd' idx = get yd idx.
Proof.
  induction pairs as [|[w s] pairs IH]; intros yd yd'; simpl.
  - intros H; injection H as <-. auto.
  - intros H. apply bind_ok in H as (yd1 & H1 & H).
    assert (Hs1 : shape yd1 = shape yd)
      by (destruct (near_one w); now apply iadd_axis_shape in H1).
    destruct (IH _ _ H) as [Hs Hget]. rewrite Hs1 in *.
    split; [exact Hs|]. intros idx Hv Hsel.
    rewrite (Hget idx Hv Hsel).
    destruct (near_one w); eapply iadd_axis_outside; eassumption.
Qed.

(** X3: whenever [_apply_to_array] returns, the accumulator keeps its
    shape, and every element whose index along the active axis is not
    selected by the reference slice keeps its value: the call writes inside
    the reference window only. *)
Theorem apply_to_array_writes_window_only (yd y yd' : ndarray R) (weights : list R)
  (off_slices : list slice) (ref_slice : slice) (dim : Z) :
  _apply_to_array yd y weights off_slices ref_slice dim = Ok yd' ->
  exists ax,
    norm_axis (ndim y) dim = Ok ax /\
    shape yd' = shape yd /\
    forall idx, valid_index (shape yd) idx ->
      selects (nth ax (shape yd) 0) ref_slice (nth ax idx 0) = false ->
      get yd' idx = get yd idx.
Proof.
  unfold _apply_to_array. intros H.
  apply bind_ok in H as (ax & Hax & H). exists ax.
  split; [exact Hax|]. now apply apply_to_array_loop_outside in H.
Qed.

Lemma combine_truncates {A B : Type} (xs : list A) (ys : list B) :
  combine xs ys =
  combine (firstn (Nat.min (length xs) (length ys)) xs)
          (firstn (Nat.min (length xs) (length ys)) ys).
Proof.
  rewrite <- combine_firstn, firstn_all2; [reflexivity|].
  rewrite length_combine. lia.
Qed.

(** X4: [_apply_to_array] pairs weights with shifted slices as [zip]
    does: with [k] the smaller of the two lengths, only the first [k]
    weights and the first [k] slices take part; surplus weights or slices
    never raise and never contribute. *)
Theorem apply_to_array_ignores_surplus (yd y : ndarray R) (weights : list R)
  (off_slices : list slice) (ref_slice : slice) (dim : Z) :
  _apply_to_array yd y weights off_slices ref_slice dim =
  _apply_to_array yd y
    (firstn (Nat.min (length weights) (length off_slices)) weights)
    (firstn (Nat.min (length weights) (length off_slices)) off_slices)
    ref_slice dim.
Proof.
  unfold _apply_to_array. now rewrite <- combine_truncates.
Qed.

End ApplyToArrayFrame.

(** [apply_to_array_writes_window_only] for the interior pass on a field
    of five samples. *)
Lemma apply_to_array_writes_window_only_witness :
  _apply_to_array (zeros_like ex_field5) ex_field5 [-0.5; 0; 0.5]%float
    [mk_slice 0 3; mk_slice 1 4; mk_slice 2 5] (mk_slice 1 4) 0
  = Ok (mk_ndarray [5] [0; 1.5; 3; 6; 0]%float) /\
  get (mk_ndarray [5] [0; 1.5; 3; 6; 0]%float) [4] = get (zeros_like ex_field5) [4].
Proof.
  assert (H : _apply_to_array (zeros_like ex_field5) ex_field5 [-0.5; 0; 0.5]%float
                [mk_slice 0 3; mk_slice 1 4; mk_slice 2 5] (mk_slice 1 4) 0
              = Ok (mk_ndarray [5] [0; 1.5; 3; 6; 0]%float))
    by (vm_compute; reflexivity).
  split; [exact H|].
  destruct (apply_to_array_writes_window_only _ _ _ _ _ _ H) as (ax & Hax & _ & Hout).
  injection Hax as <-.
  apply Hout.
  - repeat constructor.
  - reflexivity.
Defined.

(** * Shifted slices *)

(** X6: when [_shift_slice] accepts the shift of a slice with
    [0 <= start <= stop <= n], the slice it returns selects as many indices
    as the slice it was given, and exactly those that lie [off] beyond a
    selected index: nothing is clipped and nothing is counted from the
    end. *)
Theorem shift_slice_translates (sl sl' : slice) (off : Z) (n : nat) :
  (0 <= start sl <= stop sl)%Z -> (stop sl <= Z.of_nat n)%Z ->
  _shift_slice sl off (Z.of_nat n) = Ok sl' ->
  slice_len n sl' = slice_len n sl /\
  forall j, selects n sl' j = true <->
            exists i, selects n sl i = true /\ Z.of_nat j = (Z.of_nat i + off)%Z.
Proof.
  intros Hs He H. unfold _shift_slice in H.
  destruct (Z.ltb_spec (start sl + off) 0); [discriminate|].
  destruct (Z.ltb_spec (Z.of_nat n) (stop sl + off)); [discriminate|].
  simpl in H. injection H as <-.
  destruct sl as [s e]; cbn [start stop] in *.
  split.
  - rewrite !slice_len_plain by lia. f_equal. lia.
  - intros j. rewrite selects_plain by lia. unfold in_range.
    rewrite andb_true_iff, Z.leb_le, Z.ltb_lt. split.
    + intros [Hj1 Hj2]. exists (Z.to_nat (Z.of_nat j - off)).
      rewrite selects_plain by lia. unfold in_range.
      rewrite andb_true_iff, Z.leb_le, Z.ltb_lt. lia.
    + intros (i & Hi & ->). rewrite selects_plain in Hi by lia.
      unfold in_range in Hi.
      rewrite andb_true_iff, Z.leb_le, Z.ltb_lt in Hi. lia.
Qed.

(** [shift_slice_translates] for the interior slice of five points shifted
    by one. *)
Lemma shift_slice_translates_witness :
  (0 <= start (mk_slice 1 4) <= stop (mk_slice 1 4))%Z /\
  (stop (mk_slice 1 4) <= Z.of_nat 5)%Z /\
  _shift_slice (mk_slice 1 4) 1 (Z.of_nat 5) = Ok (mk_slice 2 5) /\
  slice_len 5 (mk_slice 2 5) = slice_len 5 (mk_slice 1 4).
Proof.
  assert (H1 : (0 <= start (mk_slice 1 4) <= stop (mk_slice 1 4))%Z) by (simpl; lia).
  assert (H2 : (stop (mk_slice 1 4) <= Z.of_nat 5)%Z) by (simpl; lia).
  assert (H3 : _shift_slice (mk_slice 1 4) 1 (Z.of_nat 5) = Ok (mk_slice 2 5))
    by reflexivity.
  split; [exact H1|]. split; [exact H2|]. split; [exact H3|].
  exact (proj1 (@shift_slice_translates (mk_slice 1 4) (mk_slice 2 5) 1%Z 5
                  H1 H2 H3)).
Defined.

(** * Axes too short for the stencil *)

(** X7: on a non-empty axis with [npts < 2 * b] some index is selected
    both by the forward and by the backward reference slice of [_diff], so
    the three reference slices never partition the axis. *)
Theorem regions_overlap_when_too_short (npts b : nat) :
  0 < npts -> npts < 2 * b ->
  (exists i, i < npts /\
     selects npts (ref_forward (Z.of_nat npts) (Z.of_nat b)) i = true /\
     selects npts (ref_backward (Z.of_nat npts) (Z.of_nat b)) i = true) /\
  ~ regions_partition npts b.
Proof.
  intros Hn Hb. split.
  - exact (@forward_backward_overlap npts b Hn Hb).
  - intros H. apply (regions_partition_only_if Hn) in H. lia.
Qed.

(** [regions_overlap_when_too_short] for four points and half-width 3: the
    forward slice [0:3] and the backward slice [1:4]. *)
Lemma regions_overlap_when_too_short_witness :
  0 < 4 /\ 4 < 2 * 3 /\
  (exists i, i < 4 /\
     selects 4 (ref_forward (Z.of_nat 4) (Z.of_nat 3)) i = true /\
     selects 4 (ref_backward (Z.of_nat 4) (Z.of_nat 3)) i = true) /\
  ~ regions_partition 4 3.
Proof.
  assert (H1 : 0 < 4) by lia.
  assert (H2 : 4 < 2 * 3) by lia.
  split; [exact H1|]. split; [exact H2|].
  exact (@regions_overlap_when_too_short 4 3 H1 H2).
Defined.

(** [diff_out_of_bounds] for a field of two by three samples along axis 0:
    the forward window [0, 1) shifted by 2 leaves [0, 2). *)
Lemma diff_out_of_bounds_witness :
  wf ex_field23 /\
  norm_axis (ndim ex_field23) 0 = Ok 0 /\
  2 * half_width ex_coefs3 <= nth 0 (shape ex_field23) 0 /\
  ~ windows_in_bounds (nth 0 (shape ex_field23) 0) ex_coefs3 /\
  _diff ex_field23 1%float 1 0 ex_coefs3 = Raise IndexError.
Proof.
  assert (Hw : wf ex_field23) by reflexivity.
  assert (Ha : norm_axis (ndim ex_field23) 0 = Ok 0) by reflexivity.
  assert (Hb : 2 * half_width ex_coefs3 <= nth 0 (shape ex_field23) 0)
    by (vm_compute; lia).
  assert (Hn : ~ windows_in_bounds (nth 0 (shape ex_field23) 0) ex_coefs3).
  { intros (_ & Hf & _). cbn in Hf.
    assert (H2 : window_in_bounds (ref_forward 2 1) 2 2).
    { revert Hf. rewrite Forall_forall. intros Hf. apply Hf. simpl. tauto. }
    unfold window_in_bounds in H2; cbn in H2. lia. }
  split; [exact Hw|]. split; [exact Ha|]. split; [exact Hb|]. split; [exact Hn|].
  exact (@diff_out_of_bounds float float_scalar ex_field23 1%float 1%Z 0%Z 0
           ex_coefs3 Hw Ha Hb Hn).
Defined.

(** [diff_wrapped_window_value_error] for five samples and the seven-point
    center scheme: half-width 3, first offset -3. *)
Lemma diff_wrapped_window_value_error_witness :
  half_width ex_coefs7 < nth 0 (shape ex_field5) 0 /\
  (Z.of_nat (nth 0 (shape ex_field5) 0%nat) - Z.of_nat (half_width ex_coefs7) + -3 < 0)%Z /\
  _diff ex_field5 1%float 1 0 ex_coefs7 = Raise ValueError.
Proof.
  assert (Hb : half_width ex_coefs7 < nth 0 (shape ex_field5) 0) by (vm_compute; lia).
  assert (Ho2 : (Z.of_nat (nth 0 (shape ex_field5) 0%nat)
                 - Z.of_nat (half_width ex_coefs7) + -3 < 0)%Z) by (vm_compute; reflexivity).
  split; [exact Hb|]. split; [exact Ho2|].
  apply (@diff_wrapped_window_value_error float float_scalar ex_field5 1%float 1%Z
           0%Z 0 ex_coefs7
           (-0x1.1111111111111p-6)%float
           [0x1.3333333333333p-3; -0.75; 0; 0.75;
            -0x1.3333333333333p-3; 0x1.1111111111111p-6]%float
           (-3)%Z [-2; -1; 0; 1; 2; 3]%Z).
  - reflexivity.
  - reflexivity.
  - reflexivity.
  - reflexivity.
  - exact Hb.
  - vm_compute. discriminate.
  - exact Ho2.
  - unfold window_in_bounds; cbn. repeat constructor; cbn; lia.
Defined.

(** * More on construction *)

Lemma to_tuple_injective (ps qs : list (Z * Z)) :
  map to_tuple ps = map to_tuple qs -> ps = qs.
Proof.
  revert qs. induction ps as [|[a o] ps IH]; intros [|[a' o'] qs] H;
    try discriminate; [reflexivity|].
  injection H as -> -> H. f_equal. now apply IH.
Qed.

Section ConstructionMore.
Context {R : Type}.

(** X8: the constructor returns an operator exactly for the argument
    lists of the two accepted forms, valid pairs without a repeated axis or
    the two values of one valid pair, and the operator then holds exactly
    those pairs, in the order they were written. *)
Theorem init_succeeds_iff_valid (args : list pyobj) (op : operator R) :
  PartialDerivative_init args = Ok op <->
  exists ps, valid_args args ps /\ op = PartialDerivative ps.
Proof.
  split.
  - apply init_ok_inv.
  - intros (ps & Hv & ->). now apply init_valid.
Qed.

(** X9: pairs that are each valid but repeat an axis are rejected with
    ValueError, wherever in the list the repetition occurs. *)
Theorem init_duplicate_axis (ps : list (Z * Z)) :
  Forall valid_pair ps -> ~ NoDup (map fst ps) ->
  @PartialDerivative_init R (map to_tuple ps) = Raise ValueError.
Proof.
  intros Hv Hdup.
  destruct (@PartialDerivative_init R (map to_tuple ps)) as [op|[|]] eqn:E.
  - exfalso. destruct (init_ok_inv _ E) as (qs & Hq & _).
    inversion Hq as [qs' Hval Hnd Hargs | a o Hval Hargs].
    + apply to_tuple_injective in Hargs. subst. contradiction.
    + destruct ps as [|? [|? [|? ?]]]; discriminate Hargs.
  - exfalso. apply init_index_error in E as (x & Hx & Ht).
    destruct ps as [|p [|? ?]]; try discriminate Hx.
    injection Hx as <-. discriminate Ht.
  - reflexivity.
Qed.

(** X10: two positional values that are not both tuples are treated as
    the one tuple they would form: [PartialDerivative(x, y)] has the
    outcome of [PartialDerivative((x, y))], whether that is an operator or
    a ValueError. *)
Theorem init_shorthand_is_tuple (x y : pyobj) :
  is_tuple x && is_tuple y = false ->
  @PartialDerivative_init R [x; y] = PartialDerivative_init [PyTuple [x; y]].
Proof.
  intros H. unfold PartialDerivative_init, _convert_to_valid_tuple_list.
  cbn [forallb is_tuple]. rewrite andb_true_r, H. reflexivity.
Qed.

End ConstructionMore.

(** [init_duplicate_axis] for the pairs [(0, 1), (1, 1), (0, 2)]. *)
Lemma init_duplicate_axis_witness :
  Forall valid_pair [(0, 1); (1, 1); (0, 2)]%Z /\
  ~ NoDup (map fst [(0, 1); (1, 1); (0, 2)]%Z) /\
  @PartialDerivative_init float (map to_tuple [(0, 1); (1, 1); (0, 2)]%Z)
    = Raise ValueError.
Proof.
  assert (Hv : Forall valid_pair [(0, 1); (1, 1); (0, 2)]%Z).
  { repeat constructor; simpl; lia. }
  assert (Hd : ~ NoDup (map fst [(0, 1); (1, 1); (0, 2)]%Z)).
  { simpl. intros H. inversion H as [|? ? Hnotin _]. apply Hnotin. simpl. tauto. }
  split; [exact Hv|]. split; [exact Hd|].
  exact (@init_duplicate_axis float _ Hv Hd).
Defined.

(** [init_shorthand_is_tuple] for [PartialDerivative(0, 2)]. *)
Lemma init_shorthand_is_tuple_witness :
  is_tuple (PyInt 0) && is_tuple (PyInt 2) = false /\
  @PartialDerivative_init float [PyInt 0; PyInt 2]
    = PartialDerivative_init [PyTuple [PyInt 0; PyInt 2]].
Proof.
  assert (H : is_tuple (PyInt 0) && is_tuple (PyInt 2) = false) by reflexivity.
  split; [exact H|].
  exact (@init_shorthand_is_tuple float (PyInt 0) (PyInt 2) H).
Defined.

(** * The non-uniform stencil algorithm, element by element *)

Lemma valid_index_remove_at (s idx : list nat) (k : nat) :
  valid_index s idx -> valid_index (remove_at k s) (remove_at k idx).
Proof.
  intros H; revert k; induction H; intros k.
  - destruct k; constructor.
  - destruct k; simpl; [assumption | constructor; auto]. now apply IHForall2.
Qed.

Lemma insert_at_remove_at (idx : list nat) :
  forall k v, k < length idx -> insert_at k v (remove_at k idx) = upd idx k v.
Proof.
  induction idx as [|x idx IH]; intros [|k] v Hk; simpl in *; try lia; auto.
  f_equal. apply IH. lia.
Qed.

Lemma all2_dim_fits_refl (s : list nat) : all2 dim_fits s s = true.
Proof.
  induction s as [|x s IH]; simpl; auto.
  unfold dim_fits at 1. now rewrite Nat.eqb_refl, IH.
Qed.

Lemma broadcastable_to_refl (s : list nat) : broadcastable_to s s = true.
Proof.
  unfold broadcastable_to. rewrite Nat.leb_refl, Nat.sub_diag. simpl.
  apply all2_dim_fits_refl.
Qed.

Lemma norm_index_accepted (n : nat) (k : Z) :
  (- Z.of_nat n <= k < Z.of_nat n)%Z ->
  norm_index n k = Ok (read_position n k) /\ read_position n k < n.
Proof.
  intros Hk. unfold norm_index, read_position.
  destruct (Z.ltb_spec k (- Z.of_nat n)); [lia|].
  destruct (Z.leb_spec (Z.of_nat n) k); [lia|]. simpl.
  destruct (Z.ltb_spec k 0).
  - assert (E : (k mod Z.of_nat n = k + Z.of_nat n)%Z).
    { symmetry. apply Z.mod_unique with (q := (-1)%Z); lia. }
    rewrite E. split; [reflexivity | lia].
  - rewrite Z.mod_small by lia. split; [reflexivity | lia].
Qed.

Lemma norm_index_error (n : nat) (k : Z) (e : exn) :
  norm_index n k = Raise e -> e = IndexError.
Proof.
  unfold norm_index. destruct (_ || _)%bool; congruence.
Qed.

Section NonUniformSpec.
Context {R : Type} {SR : Scalar R}.

(** One turn of the inner loop of [_diff_non_uni]. *)
Lemma diff_non_uni_pair_spec (yd y : ndarray R) (ax i : nat) (off : Z) (w : R) :
  wf y -> wf yd -> shape yd = shape y -> ax < ndim y ->
  i < nth ax (shape y) 0 ->
  (- Z.of_nat (nth ax (shape y) 0%nat) <= Z.of_nat i + off
   < Z.of_nat (nth ax (shape y) 0%nat))%Z ->
  exists yd',
    (norm_index (nth ax (shape yd) 0) (Z.of_nat i) ;;;
     rhs <- getitem_int y ax (Z.of_nat i + off) ;;
     iadd_int yd ax (Z.of_nat i) (scalar_mul_l w rhs)) = Ok yd'
    /\ wf yd' /\ shape yd' = shape y
    /\ forall idx, valid_index (shape y) idx ->
         get yd' idx =
         if nth ax idx 0 =? i
         then radd (get yd idx)
                (rmul w (get y (upd idx ax
                           (read_position (nth ax (shape y) 0) (Z.of_nat i + off)))))
         else get yd idx.
Proof.
  intros Hy Hyd Hs Hax Hi Hoff.
  set (n := nth ax (shape y) 0) in *.
  destruct (norm_index_accepted _ Hoff) as [Ek Hk]. fold n in Ek, Hk.
  unfold getitem_int, iadd_int. rewrite Hs. fold n.
  rewrite (norm_index_nonneg Hi), Ek. cbn [bind scalar_mul_l shape build].
  rewrite broadcastable_to_refl.
  eexists. split; [reflexivity|].
  split; [apply wf_build|]. split; [reflexivity|].
  intros idx Hv. rewrite get_build by exact Hv.
  destruct (Nat.eqb_spec (nth ax idx 0) i) as [Ei|Hne]; [|reflexivity].
  pose proof (valid_index_remove_at ax Hv) as Hv'.
  rewrite (bcast_index_valid Hv').
  f_equal.
  change (mk_ndarray (remove_at ax (shape y))
            (map (fun x => rmul w x)
               (data (build (remove_at ax (shape y))
                        (fun idx0 => get y (insert_at ax (read_position n (Z.of_nat i + off)) idx0))))))
    with (scalar_mul_l w (build (remove_at ax (shape y))
                            (fun idx0 => get y (insert_at ax (read_position n (Z.of_nat i + off)) idx0)))).
  rewrite get_scalar_mul_l by (try apply wf_build; exact Hv').
  rewrite get_build by exact Hv'.
  rewrite insert_at_remove_at; [reflexivity|].
  rewrite (valid_index_length Hv). exact Hax.
Qed.

Lemma diff_non_uni_inner_spec (y : ndarray R) (ax i : nat) (pairs : list (Z * R)) :
  wf y -> ax < ndim y -> i < nth ax (shape y) 0 ->
  Forall (fun p => (- Z.of_nat (nth ax (shape y) 0%nat) <= Z.of_nat i + fst p
                    < Z.of_nat (nth ax (shape y) 0%nat))%Z) pairs ->
  forall yd, wf yd -> shape yd = shape y ->
  exists yd',
    _diff_non_uni_inner yd y ax i pairs = Ok yd'
    /\ wf yd' /\ shape yd' = shape y
    /\ forall idx, valid_index (shape y) idx ->
         get yd' idx =
         if nth ax idx 0 =? i
         then fold_left
                (fun acc p =>
                   radd acc
                     (rmul (snd p)
                        (get y (upd idx ax
                                  (read_position (nth ax (shape y) 0)
                                     (Z.of_nat (nth ax idx 0) + fst p))))))
                pairs (get yd idx)
         else get yd idx.
Proof.
  intros Hy Hax Hi HF.
  induction HF as [|[off w] pairs Hoff _ IH]; intros yd Hyd Hs.
  - exists yd. simpl. repeat split; auto.
    intros idx _. now destruct (nth ax idx 0 =? i).
  - simpl in Hoff.
    destruct (@diff_non_uni_pair_spec yd y ax i off w Hy Hyd Hs Hax Hi Hoff)
      as (yd1 & E1 & Hwf1 & Hs1 & Hget1).
    cbn [_diff_non_uni_inner].
    destruct (norm_index (nth ax (shape yd) 0) (Z.of_nat i)) as [j|e] eqn:Ej;
      cbn [bind] in *; [|discriminate].
    destruct (getitem_int y ax (Z.of_nat i + off)) as [rhs|e] eqn:Er;
      cbn [bind] in *; [|discriminate].
    rewrite E1. cbn [bind].
    destruct (IH yd1 Hwf1 Hs1) as (yd' & E & Hwf & Hs' & Hget).
    exists yd'. repeat split; auto.
    intros idx Hv. rewrite (Hget idx Hv), (Hget1 idx Hv).
    destruct (Nat.eqb_spec (nth ax idx 0) i) as [->|Hne]; reflexivity.
Qed.

Lemma list_get_nth (coefs : list (stencil R)) (i : nat) :
  i < length coefs -> list_get coefs i = Ok (node_record coefs i).
Proof.
  intros Hi. unfold list_get, node_record.
  now rewrite (nth_error_nth' coefs (mk_stencil [] []) Hi).
Qed.

Lemma diff_non_uni_loop_spec (y : ndarray R) (dim : Z) (ax : nat)
  (coefs : list (stencil R)) :
  wf y -> norm_axis (ndim y) dim = Ok ax ->
  forall (coords : list R) (i0 : nat) (yd : ndarray R),
  wf yd -> shape yd = shape y ->
  i0 + length coords <= nth ax (shape y) 0 ->
  i0 + length coords <= length coefs ->
  (forall i, i0 <= i < i0 + length coords ->
     reads_accepted (nth ax (shape y) 0) i (node_record coefs i)) ->
  exists yd',
    _diff_non_uni_loop yd y dim coefs i0 coords = Ok yd'
    /\ wf yd' /\ shape yd' = shape y
    /\ forall idx, valid_index (shape y) idx ->
         get yd' idx =
         if (i0 <=? nth ax idx 0) && (nth ax idx 0 <? i0 + length coords)
         then node_sum y ax (node_record coefs (nth ax idx 0)) idx (get yd idx)
         else get yd idx.
Proof.
  intros Hy Hax.
  assert (Hax' : ax < ndim y) by now apply norm_index_lt in Hax.
  intros cs. induction cs as [|x cs IH]; intros i0 yd Hyd Hs Hn Hc Hacc.
  - exists yd. simpl. repeat split; auto.
    intros idx _. rewrite Nat.add_0_r.
    destruct (Nat.leb_spec i0 (nth ax idx 0)), (Nat.ltb_spec (nth ax idx 0) i0);
      try lia; reflexivity.
  - cbn [_diff_non_uni_loop length] in *.
    rewrite list_get_nth by lia. cbn [bind]. rewrite Hax. cbn [bind].
    assert (Hi0 : i0 < nth ax (shape y) 0) by lia.
    assert (HF0 : reads_accepted (nth ax (shape y) 0) i0 (node_record coefs i0))
      by (apply Hacc; lia).
    destruct (@diff_non_uni_inner_spec y ax i0 (node_pairs (node_record coefs i0))
                Hy Hax' Hi0 HF0 yd Hyd Hs) as (yd1 & E1 & Hwf1 & Hs1 & Hget1).
    unfold node_pairs in E1. rewrite E1. cbn [bind].
    destruct (IH (S i0) yd1 Hwf1 Hs1) as (yd' & E & Hwf & Hs' & Hget);
      [lia | lia | intros i Hi; apply Hacc; lia |].
    exists yd'. repeat split; auto.
    intros idx Hv. rewrite (Hget idx Hv), (Hget1 idx Hv).
    unfold node_sum.
    destruct (Nat.eqb_spec (nth ax idx 0) i0) as [Ei|Hne].
    + rewrite Ei.
      destruct (Nat.leb_spec (S i0) i0); [lia|].
      destruct (Nat.leb_spec i0 i0); [|lia].
      destruct (Nat.ltb_spec i0 (i0 + S (length cs))); [|lia].
      reflexivity.
    + destruct (Nat.leb_spec (S i0) (nth ax idx 0)),
               (Nat.leb_spec i0 (nth ax idx 0)),
               (Nat.ltb_spec (nth ax idx 0) (S i0 + length cs)),
               (Nat.ltb_spec (nth ax idx 0) (i0 + S (length cs)));
        try lia; reflexivity.
Qed.

(** The value of [_diff_non_uni] when every subscript is accepted. *)
Lemma diff_non_uni_value (y : ndarray R) (coords : list R) (dim : Z)
  (ax : nat) (coefs : list (stencil R)) :
  wf y ->
  norm_axis (ndim y) dim = Ok ax ->
  length coords <= nth ax (shape y) 0 ->
  length coords <= length coefs ->
  (forall i, i < length coords ->
     reads_accepted (nth ax (shape y) 0) i (node_record coefs i)) ->
  _diff_non_uni y coords dim coefs
  = Ok (diff_non_uni_spec y (length coords) ax coefs).
Proof.
  intros Hy Hax Hn Hc Hacc. unfold _diff_non_uni.
  destruct (@diff_non_uni_loop_spec y dim ax coefs Hy Hax coords 0 (zeros_like y))
    as (yd' & E & Hwf & Hs & Hget);
    [now apply wf_zeros_like | reflexivity | simpl; lia | simpl; lia
    | intros i Hi; apply Hacc; lia |].
  rewrite E. f_equal. apply array_ext; [exact Hwf | apply wf_build | exact Hs |].
  intros idx Hv. rewrite Hs in Hv.
  rewrite (Hget idx Hv). unfold diff_non_uni_spec.
  rewrite get_build by exact Hv. cbv zeta. cbn [Nat.add Nat.leb andb].
  unfold node_sum. rewrite get_zeros_like by assumption. reflexivity.
Qed.

(** X11: when [dim] names the axis [ax], there are no more coordinates
    than samples along it, a record exists for every coordinate, and every
    subscript [i + off] lies in [-npts, npts), [_diff_non_uni] returns
    exactly this array: at a node [i < len(coords)] the sum, in record
    order, of weight times the sample at [i + off] (counted from the end of
    the axis when negative); zero at the nodes beyond the coordinates.  The
    sum is not scaled, and a weight close to one is multiplied like any
    other. *)
Theorem diff_non_uni_elementwise (y : ndarray R) (coords : list R) (dim : Z)
  (ax : nat) (coefs : list (stencil R)) :
  wf y ->
  norm_axis (ndim y) dim = Ok ax ->
  length coords <= nth ax (shape y) 0 ->
  length coords <= length coefs ->
  (forall i, i < length coords ->
     reads_accepted (nth ax (shape y) 0) i (node_record coefs i)) ->
  _diff_non_uni y coords dim coefs
  = Ok (diff_non_uni_spec y (length coords) ax coefs).
Proof. apply diff_non_uni_value. Qed.

End NonUniformSpec.

(** [diff_non_uni_elementwise] for five samples and the record with offsets
    [-1, 0] at every node: node 0 reads the subscript -1. *)
Lemma diff_non_uni_elementwise_witness :
  wf ex_field5 /\
  norm_axis (ndim ex_field5) 0 = Ok 0 /\
  length ex_coords5 <= nth 0 (shape ex_field5) 0 /\
  length ex_coords5 <= length ex_backward_everywhere /\
  _diff_non_uni ex_field5 ex_coords5 0 ex_backward_everywhere
  = Ok (diff_non_uni_spec ex_field5 (length ex_coords5) 0 ex_backward_everywhere).
Proof.
  assert (Hw : wf ex_field5) by reflexivity.
  assert (Ha : norm_axis (ndim ex_field5) 0 = Ok 0) by reflexivity.
  assert (Hn : length ex_coords5 <= nth 0 (shape ex_field5) 0) by (simpl; lia).
  assert (Hc : length ex_coords5 <= length ex_backward_everywhere) by (simpl; lia).
  assert (Hr : forall i, i < length ex_coords5 ->
            reads_accepted (nth 0 (shape ex_field5) 0) i
              (node_record ex_backward_everywhere i)).
  { intros i Hi. simpl in Hi.
    do 5 (destruct i as [|i]; [repeat constructor; cbn; lia|]). lia. }
  split; [exact Hw|]. split; [exact Ha|]. split; [exact Hn|]. split; [exact Hc|].
  exact (@diff_non_uni_elementwise float float_scalar ex_field5 ex_coords5 0%Z 0
           ex_backward_everywhere Hw Ha Hn Hc Hr).
Defined.

(** * Exceptions of the non-uniform stencil algorithm *)

Section NonUniformErrors.
Context {R : Type} {SR : Scalar R}.

Lemma getitem_int_shape (a r : ndarray R) (ax : nat) (k : Z) :
  getitem_int a ax k = Ok r -> shape r = remove_at ax (shape a).
Proof.
  unfold getitem_int. intros H. apply bind_ok in H as (j & _ & H).
  now injection H as <-.
Qed.

Lemma getitem_int_error (a : ndarray R) (ax : nat) (k : Z) (e : exn) :
  getitem_int a ax k = Raise e -> e = IndexError.
Proof.
  unfold getitem_int. destruct (norm_index _ k) as [j|e'] eqn:E; cbn [bind].
  - discriminate.
  - intros H; injection H as <-. now apply norm_index_error in E.
Qed.

Lemma diff_non_uni_inner_error (y : ndarray R) (ax i : nat) (pairs : list (Z * R))
  (e : exn) :
  forall yd, shape yd = shape y ->
  _diff_non_uni_inner yd y ax i pairs = Raise e -> e = IndexError.
Proof.
  induction pairs as [|[off w] pairs IH]; intros yd Hs; simpl; [discriminate|].
  destruct (norm_index (nth ax (shape yd) 0) (Z.of_nat i)) as [j|e1] eqn:Ej;
    cbn [bind]; [|intros H; injection H as <-; now apply norm_index_error in Ej].
  destruct (getitem_int y ax (Z.of_nat i + off)) as [rhs|e1] eqn:Er; cbn [bind];
    [|intros H; injection H as <-; now apply getitem_int_error in Er].
  destruct (iadd_int yd ax (Z.of_nat i) (scalar_mul_l w rhs)) as [yd1|e1] eqn:Ea;
    cbn [bind].
  - apply IH. apply iadd_int_shape in Ea as [_ Hs1]. congruence.
  - intros H; injection H as <-. unfold iadd_int in Ea. rewrite Ej in Ea.
    cbn [bind scalar_mul_l shape] in Ea.
    rewrite (getitem_int_shape _ _ _ Er), Hs, broadcastable_to_refl in Ea.
    discriminate Ea.
Qed.

Lemma diff_non_uni_loop_error (y : ndarray R) (dim : Z) (coefs : list (stencil R))
  (e : exn) (cs : list R) :
  forall i yd, shape yd = shape y ->
  _diff_non_uni_loop yd y dim coefs i cs = Raise e -> e = IndexError.
Proof.
  induction cs as [|x cs IH]; intros i yd Hs; simpl; [discriminate|].
  unfold list_get. destruct (nth_error coefs i) as [st|]; cbn [bind];
    [|intros H; now injection H as <-].
  destruct (norm_axis (ndim y) dim) as [ax|e1] eqn:Eax; cbn [bind];
    [|intros H; injection H as <-; now apply norm_index_error in Eax].
  destruct (_diff_non_uni_inner yd y ax i (combine (st_offsets st) (st_coefficients st)))
    as [yd1|e1] eqn:Ei; cbn [bind].
  - apply IH. rewrite <- Hs.
    clear - Ei. revert yd yd1 Ei.
    induction (combine (st_offsets st) (st_coefficients st)) as [|[off w] pairs IHp];
      intros yd yd1; simpl.
    + intros H; now injection H as <-.
    + intros H. apply bind_ok in H as (j & _ & H).
      apply bind_ok in H as (rhs & _ & H).
      apply bind_ok in H as (yd2 & H2 & H).
      apply iadd_int_shape in H2 as [_ S2]. rewrite (IHp _ _ H). exact S2.
  - intros H; injection H as <-. eapply diff_non_uni_inner_error; eassumption.
Qed.

(** X12: [_diff_non_uni] ends in no exception but IndexError: a
    subscript out of range, on the field, on the coefficient list or on
    the axis.  The windows it adds always have the shape of the window
    they are added to, so numpy's broadcasting never fails. *)
Theorem diff_non_uni_raises_only_index_error (y : ndarray R) (coords : list R)
  (dim : Z) (coefs : list (stencil R)) (e : exn) :
  _diff_non_uni y coords dim coefs = Raise e -> e = IndexError.
Proof.
  unfold _diff_non_uni. apply diff_non_uni_loop_error. reflexivity.
Qed.

(** A negative axis number counts from the last axis. *)
Lemma norm_axis_negative (nd : nat) (dim : Z) :
  (0 <= dim < Z.of_nat nd)%Z ->
  norm_axis nd (dim - Z.of_nat nd) = norm_axis nd dim.
Proof.
  intros H. unfold norm_axis, norm_index.
  destruct (Z.ltb_spec (dim - Z.of_nat nd) (- Z.of_nat nd)); [lia|].
  destruct (Z.leb_spec (Z.of_nat nd) (dim - Z.of_nat nd)); [lia|].
  destruct (Z.ltb_spec dim (- Z.of_nat nd)); [lia|].
  destruct (Z.leb_spec (Z.of_nat nd) dim); [lia|]. simpl.
  destruct (Z.ltb_spec (dim - Z.of_nat nd) 0); [|lia].
  destruct (Z.ltb_spec dim 0); [lia|]. f_equal. f_equal. lia.
Qed.

Lemma diff_non_uni_loop_negative_axis (y : ndarray R) (dim : Z)
  (coefs : list (stencil R)) (cs : list R) :
  (0 <= dim < Z.of_nat (ndim y))%Z ->
  forall i yd,
  _diff_non_uni_loop yd y (dim - Z.of_nat (ndim y)) coefs i cs =
  _diff_non_uni_loop yd y dim coefs i cs.
Proof.
  intros Hd. induction cs as [|x cs IH]; intros i yd; simpl; [reflexivity|].
  destruct (list_get coefs i) as [st|e]; cbn [bind]; [|reflexivity].
  rewrite (norm_axis_negative _ Hd).
  destruct (norm_axis (ndim y) dim) as [ax|e]; cbn [bind]; [|reflexivity].
  destruct (_diff_non_uni_inner yd y ax i _) as [yd1|e]; cbn [bind]; [|reflexivity].
  apply IH.
Qed.

(** X13: both stencil routines take a negative axis number as Python
    subscripts do: for [0 <= dim < ndim], the axis number [dim - ndim]
    gives the outcome of the axis number [dim]. *)
Theorem diff_negative_axis (y : ndarray R) (h : R) (m dim : Z)
  (coefs : scheme_table R) (coords : list R) (records : list (stencil R)) :
  (0 <= dim < Z.of_nat (ndim y))%Z ->
  _diff y h m (dim - Z.of_nat (ndim y)) coefs = _diff y h m dim coefs /\
  _diff_non_uni y coords (dim - Z.of_nat (ndim y)) records
  = _diff_non_uni y coords dim records.
Proof.
  intros Hd. split.
  - unfold _diff, apply_scheme, _apply_to_array.
    now rewrite !(norm_axis_negative _ Hd).
  - unfold _diff_non_uni. now apply diff_non_uni_loop_negative_axis.
Qed.

End NonUniformErrors.

(** [diff_non_uni_raises_only_index_error] for a record that reads one
    node ahead at every node: the last node reads beyond the axis. *)
Lemma diff_non_uni_raises_only_index_error_witness :
  _diff_non_uni ex_field5 ex_coords5 0
    (repeat (mk_stencil [-1; 1]%float [0; 1]%Z) 5) = Raise IndexError.
Proof.
  assert (H : exists e, _diff_non_uni ex_field5 ex_coords5 0
                (repeat (mk_stencil [-1; 1]%float [0; 1]%Z) 5) = Raise e).
  { eexists. vm_compute. reflexivity. }
  destruct (_diff_non_uni ex_field5 ex_coords5 0
              (repeat (mk_stencil [-1; 1]%float [0; 1]%Z) 5)) as [r|e] eqn:E.
  - exfalso. destruct H as [e H]. discriminate H.
  - f_equal. exact (diff_non_uni_raises_only_index_error _ _ _ _ E).
Defined.

(** [diff_negative_axis] for the last axis of a field of three by three
    samples. *)
Lemma diff_negative_axis_witness :
  (0 <= 1 < Z.of_nat (ndim ex_field33))%Z /\
  _diff ex_field33 1%float 1 (1 - Z.of_nat (ndim ex_field33)) ex_coefs3
  = _diff ex_field33 1%float 1 1 ex_coefs3.
Proof.
  assert (H : (0 <= 1 < Z.of_nat (ndim ex_field33))%Z) by (simpl; lia).
  split; [exact H|].
  exact (proj1 (@diff_negative_axis float float_scalar ex_field33 1%float 1%Z 1%Z
                  ex_coefs3 [] [] H)).
Defined.

(** * A non-uniform grid, through [apply] *)

Section ApplyNonUniform.
Context {R : Type} {SR : Scalar R} {PR : Provider R}.

Lemma node_record_map (f : nat -> stencil R) (n i : nat) :
  i < n -> node_record (map f (seq 0 n)) i = f i.
Proof.
  intros Hi. unfold node_record.
  rewrite (nth_indep _ (mk_stencil [] []) (f 0))
    by (now rewrite length_map, length_seq).
  rewrite map_nth, seq_nth by exact Hi. reflexivity.
Qed.

(** X14: on a non-uniform grid, a [PartialDerivative] of one pair asks
    the provider for one record per coordinate index and uses the record of
    index [i] at node [i]: when the coordinates are no more than the
    samples along the axis and every subscript is accepted, the element at
    node [i] is the sum of that record, zero beyond the coordinates. *)
Theorem apply_non_uniform_elementwise (fd : grid R) (axis ord : Z)
  (u : ndarray R) (ax : nat) :
  is_uniform fd = false ->
  wf u ->
  norm_axis (ndim u) axis = Ok ax ->
  length (coords fd axis) <= nth ax (shape u) 0 ->
  (forall i, i < length (coords fd axis) ->
     reads_accepted (nth ax (shape u) 0) i
       (coefficients_non_uni ord (acc fd) (coords fd axis) i)) ->
  apply (PartialDerivative [(axis, ord)]) fd u =
  Ok (build (shape u) (fun idx =>
        let i := nth ax idx 0 in
        if i <? length (coords fd axis)
        then node_sum u ax (coefficients_non_uni ord (acc fd) (coords fd axis) i)
               idx r0
        else r0)).
Proof.
  intros Hnu Hw Hax Hn Hacc. cbn [apply apply_derivs].
  unfold apply_axis. rewrite Hnu.
  set (cs := coords fd axis) in *.
  set (f := fun i => coefficients_non_uni ord (acc fd) cs i).
  rewrite (@diff_non_uni_value R SR u cs axis ax (map f (seq 0 (length cs))) Hw Hax Hn).
  - cbn [bind]. f_equal. unfold diff_non_uni_spec. apply build_ext.
    intros idx Hv. cbv zeta.
    destruct (Nat.ltb_spec (nth ax idx 0) (length cs)) as [Hlt|Hge]; [|reflexivity].
    now rewrite node_record_map.
  - now rewrite length_map, length_seq.
  - intros i Hi. rewrite node_record_map by exact Hi. now apply Hacc.
Qed.

End ApplyNonUniform.

(** [apply_non_uniform_elementwise] for five samples on the grid of five
    uneven coordinates. *)
Lemma apply_non_uniform_elementwise_witness :
  is_uniform ex_grid_non_uni = false /\
  wf ex_field5 /\
  norm_axis (ndim ex_field5) 0 = Ok 0 /\
  length (coords ex_grid_non_uni 0) <= nth 0 (shape ex_field5) 0 /\
  apply (PartialDerivative [(0, 1)%Z]) ex_grid_non_uni ex_field5
  = Ok (mk_ndarray [5] [-15; 1; 2; 4; 8]%float).
Proof.
  assert (Hu : is_uniform ex_grid_non_uni = false) by reflexivity.
  assert (Hw : wf ex_field5) by reflexivity.
  assert (Ha : norm_axis (ndim ex_field5) 0 = Ok 0) by reflexivity.
  assert (Hn : length (coords ex_grid_non_uni 0) <= nth 0 (shape ex_field5) 0)
    by (simpl; lia).
  assert (Hr : forall i, i < length (coords ex_grid_non_uni 0) ->
            reads_accepted (nth 0 (shape ex_field5) 0) i
              (coefficients_non_uni 1 (acc ex_grid_non_uni)
                 (coords ex_grid_non_uni 0) i)).
  { intros i Hi. simpl in Hi.
    do 5 (destruct i as [|i]; [repeat constructor; cbn; lia|]). lia. }
  split; [exact Hu|]. split; [exact Hw|]. split; [exact Ha|]. split; [exact Hn|].
  rewrite (@apply_non_uniform_elementwise float float_scalar ex_provider
             ex_grid_non_uni 0%Z 1%Z ex_field5 0 Hu Hw Ha Hn Hr).
  vm_compute. reflexivity.
Defined.

(** * Read positions of the non-uniform stencil algorithm *)

Lemma norm_index_ok_inv (n : nat) (k : Z) (j : nat) :
  norm_index n k = Ok j -> (- Z.of_nat n <= k < Z.of_nat n)%Z.
Proof.
  unfold norm_index.
  destruct (Z.ltb_spec k (- Z.of_nat n)); [discriminate|].
  destruct (Z.leb_spec (Z.of_nat n) k); [discriminate|]. lia.
Qed.

Lemma read_position_in_bounds (n : nat) (k : Z) :
  (0 <= k < Z.of_nat n)%Z -> read_position n k = Z.to_nat k.
Proof. intros H. unfold read_position. now rewrite Z.mod_small. Qed.

Lemma read_position_from_end (n : nat) (k : Z) :
  (- Z.of_nat n <= k < 0)%Z -> read_position n k = Z.to_nat (k + Z.of_nat n).
Proof.
  intros H. unfold read_position. f_equal.
  symmetry. apply Z.mod_unique with (q := (-1)%Z); lia.
Qed.

Section NonUniformReads.
Context {R : Type} {SR : Scalar R} {PR : Provider R}.

(** When the inner loop returns, numpy has accepted every subscript
    [i + off] of the pairs. *)
Lemma diff_non_uni_inner_ok_accepted (y : ndarray R) (ax i : nat)
  (pairs : list (Z * R)) :
  forall yd yd',
  _diff_non_uni_inner yd y ax i pairs = Ok yd' ->
  Forall (fun p => (- Z.of_nat (nth ax (shape y) 0%nat) <= Z.of_nat i + fst p
                    < Z.of_nat (nth ax (shape y) 0%nat))%Z) pairs.
Proof.
  induction pairs as [|[off w] pairs IH]; intros yd yd'; simpl.
  - constructor.
  - intros H. apply bind_ok in H as (j & _ & H).
    apply bind_ok in H as (rhs & Hr & H).
    apply bind_ok in H as (yd1 & _ & H).
    constructor; [|exact (IH _ _ H)]. cbn [fst].
    unfold getitem_int in Hr. apply bind_ok in Hr as (j' & Hj & _).
    now apply norm_index_ok_inv in Hj.
Qed.

Lemma diff_non_uni_loop_ok_accepted (y : ndarray R) (dim : Z) (ax : nat)
  (coefs : list (stencil R)) :
  norm_axis (ndim y) dim = Ok ax ->
  forall (cs : list R) (i0 : nat) (yd yd' : ndarray R),
  _diff_non_uni_loop yd y dim coefs i0 cs = Ok yd' ->
  forall i, i0 <= i < i0 + length cs ->
    reads_accepted (nth ax (shape y) 0) i (node_record coefs i).
Proof.
  intros Hax cs. induction cs as [|x cs IH]; intros i0 yd yd' H i Hi.
  - simpl in Hi. lia.
  - cbn [_diff_non_uni_loop] in H.
    apply bind_ok in H as (st & Hst & H).
    rewrite Hax in H. cbn [bind] in H.
    apply bind_ok in H as (yd1 & H1 & H).
    destruct (Nat.eq_dec i i0) as [->|Hne].
    + apply diff_non_uni_inner_ok_accepted in H1.
      unfold reads_accepted, node_pairs.
      replace (node_record coefs i0) with st; [exact H1|].
      unfold list_get in Hst. unfold node_record.
      destruct (nth_error coefs i0) as [st'|] eqn:E; [|discriminate].
      injection Hst as <-. symmetry. now apply nth_error_nth.
    + apply (IH (S i0) yd1 yd' H). simpl in Hi. lia.
Qed.

(** C7 (as amended): the non-uniform stencil algorithm checks a read
    position [i + off] by numpy's subscript rule alone.  When [dim] names
    the axis [ax] of extent [n], there are no more coordinates than samples
    along it and a record exists for every coordinate: if every read
    position lies in [-n, n) the call returns, each pair having read the
    sample at [i + off] for a position in [0, n) and the sample at
    [i + off + n] for a position in [-n, 0); if some node has a pair whose
    read position lies outside [-n, n), the call raises IndexError.
    [apply] on a non-uniform grid is this algorithm on the records of the
    provider. *)
Theorem diff_non_uni_read_positions (y : ndarray R) (cs : list R) (dim : Z)
  (ax : nat) (coefs : list (stencil R)) :
  wf y ->
  norm_axis (ndim y) dim = Ok ax ->
  length cs <= nth ax (shape y) 0 ->
  length cs <= length coefs ->
  ((forall i, i < length cs ->
      reads_accepted (nth ax (shape y) 0) i (node_record coefs i)) ->
   _diff_non_uni y cs dim coefs
   = Ok (diff_non_uni_spec y (length cs) ax coefs)) /\
  ((exists i, i < length cs /\
      ~ reads_accepted (nth ax (shape y) 0) i (node_record coefs i)) ->
   _diff_non_uni y cs dim coefs = Raise IndexError) /\
  (forall (n : nat) (k : Z),
     ((0 <= k < Z.of_nat n)%Z -> read_position n k = Z.to_nat k) /\
     ((- Z.of_nat n <= k < 0)%Z -> read_position n k = Z.to_nat (k + Z.of_nat n))) /\
  (forall (fd : grid R) (ord : Z),
     is_uniform fd = false ->
     apply (PartialDerivative [(dim, ord)]) fd y =
     _diff_non_uni y (coords fd dim) dim
       (map (fun i => coefficients_non_uni ord (acc fd) (coords fd dim) i)
            (seq 0 (length (coords fd dim))))).
Proof.
  intros Hy Hax Hn Hc. split; [|split; [|split]].
  - now apply diff_non_uni_value.
  - intros (i & Hi & Hbad).
    destruct (_diff_non_uni y cs dim coefs) as [r|e] eqn:E.
    + exfalso. apply Hbad. unfold _diff_non_uni in E.
      apply (@diff_non_uni_loop_ok_accepted y dim ax coefs Hax cs 0
               (zeros_like y) r E).
      simpl. lia.
    + f_equal. unfold _diff_non_uni in E.
      now apply diff_non_uni_loop_error in E.
  - intros n k. split.
    + apply read_position_in_bounds.
    + apply read_position_from_end.
  - intros fd ord Hnu. cbn [apply apply_derivs]. unfold apply_axis.
    rewrite Hnu. apply bind_ret.
Qed.

End NonUniformReads.

(** [diff_non_uni_read_positions] for five samples and the record with
    offsets [0, 1] at every node: node 4 reads the position 5, which lies
    outside [-5, 5). *)
Lemma diff_non_uni_read_positions_witness :
  wf ex_field5 /\
  norm_axis (ndim ex_field5) 0 = Ok 0 /\
  length ex_coords5 <= nth 0 (shape ex_field5) 0 /\
  length ex_coords5 <= length ex_forward_everywhere /\
  ~ reads_accepted (nth 0 (shape ex_field5) 0) 4 (node_record ex_forward_everywhere 4) /\
  _diff_non_uni ex_field5 ex_coords5 0 ex_forward_everywhere = Raise IndexError.
Proof.
  assert (Hw : wf ex_field5) by reflexivity.
  assert (Ha : norm_axis (ndim ex_field5) 0 = Ok 0) by reflexivity.
  assert (Hn : length ex_coords5 <= nth 0 (shape ex_field5) 0) by (simpl; lia).
  assert (Hc : length ex_coords5 <= length ex_forward_everywhere) by (simpl; lia).
  assert (Hbad : ~ reads_accepted (nth 0 (shape ex_field5) 0) 4
                     (node_record ex_forward_everywhere 4)).
  { unfold reads_accepted. cbn. intros H.
    inversion H as [|? ? _ H2]. inversion H2 as [|? ? H3 _]. cbn in H3. lia. }
  split; [exact Hw|]. split; [exact Ha|]. split; [exact Hn|]. split; [exact Hc|].
  split; [exact Hbad|].
  apply (proj1 (proj2 (@diff_non_uni_read_positions float float_scalar ex_provider
                         ex_field5 ex_coords5 0%Z 0 ex_forward_everywhere
                         Hw Ha Hn Hc))).
  exists 4. split; [simpl; lia | exact Hbad].
Defined.

(** * Validation of one tuple *)

(** X15: [_assert_tuple_valid] accepts a tuple exactly when it holds two
    items, a non-negative integer and then a positive integer; every other
    tuple, one with fewer than two items included, ends in ValueError and
    in no other exception. *)
Theorem assert_tuple_valid_iff (t : list pyobj) :
  (_assert_tuple_valid t = Ok tt <-> exists p, t = pair_items p /\ valid_pair p) /\
  (_assert_tuple_valid t = Ok tt \/ _assert_tuple_valid t = Raise ValueError).
Proof.
  split; [split|].
  - apply assert_tuple_valid_inv.
  - intros (p & -> & Hp). now apply assert_tuple_valid_ok.
  - destruct (_assert_tuple_valid t) as [[]|e] eqn:E.
    + now left.
    + right. f_equal. eapply assert_tuple_valid_error. exact E.
Qed.
